(** * twitterSearch: a shallow embedding of [twitterSearch.js]

    The program pages through Twitter's premium search API, cleans the text
    of every tweet and writes the collected tweets to [./tweets.json].

    - JavaScript strings are sequences of UTF-16 code units: lists of
      numbers.  JSON values are an inductive type, with [undefined] for a
      property that is not there; numbers are the integer-valued ones.
    - The network, the console, the timer and the file system are an
      explicit [World] threaded through every asynchronous function.  The
      network is the sequence of outcomes of the successive calls of
      [fetch]; every effect is recorded in a trace.
    - An exception is the left summand of a result.  [try], [catch] and
      [finally] are written out where [search] has them.
    - The [do ... while] loop of [search] has no bound of its own; its
      embedding takes one, and [None] stands for a loop that is still
      running.
    - The time stamps of the console lines are left out, and writing the
      result file is taken to succeed. *)

From Stdlib Require Import ZArith NArith List Ascii String Bool Lia.
From Stdlib Require Import DecimalString DecimalPos DecimalZ.
From stdpp Require Import base option list gmap.

Local Open Scope N_scope.
#[local] Set Warnings "-register-all".

(** ** Strings *)

(** A JavaScript string: its UTF-16 code units. *)
Abbreviation jsstring := (list N).

(** The code units of an ASCII literal of the source. *)
Definition lit (s : string) : jsstring :=
  map N_of_ascii (list_ascii_of_string s).

Definition LF : N := 10.
Definition CR : N := 13.
Definition SPACE : N := 32.
Definition HASH : N := 35.
Definition AT : N := 64.

(** [WhiteSpace] and [LineTerminator] of ECMAScript: what
    [String.prototype.trim] strips. *)
Definition is_white_space (c : N) : bool :=
  (c =? 9) || (c =? 10) || (c =? 11) || (c =? 12) || (c =? 13) || (c =? 32)
  || (c =? 160) || (c =? 5760) || ((8192 <=? c) && (c <=? 8202))
  || (c =? 8232) || (c =? 8233) || (c =? 8239) || (c =? 8287)
  || (c =? 12288) || (c =? 65279).

Fixpoint trim_start (s : jsstring) : jsstring :=
  match s with
  | [] => []
  | c :: r => if is_white_space c then trim_start r else s
  end.

Definition trim_end (s : jsstring) : jsstring := rev (trim_start (rev s)).

(** [s.trim()] *)
Definition trim (s : jsstring) : jsstring := trim_end (trim_start s).

(** [s.replace(/\r?\n|\r|@|#/g, ' ')]: scanning left to right, a line feed,
    a carriage return followed by a line feed (taken together), a lone
    carriage return, an [@] or a [#] becomes one space. *)
Fixpoint replace_marks (s : jsstring) : jsstring :=
  match s with
  | [] => []
  | c :: r =>
      if c =? CR then
        match r with
        | d :: r' =>
            if d =? LF then SPACE :: replace_marks r'
            else SPACE :: replace_marks r
        | [] => [SPACE]
        end
      else if (c =? LF) || (c =? AT) || (c =? HASH) then SPACE :: replace_marks r
      else c :: replace_marks r
  end.

(** The characters the regular expression matches. *)
Definition is_mark (c : N) : bool :=
  (c =? LF) || (c =? CR) || (c =? AT) || (c =? HASH).

(** ** Values *)

(** The values the program handles: what [response.json()] produces, plus
    [undefined] for a property that is not there.  Numbers are the
    integer-valued ones. *)
Inductive jsvalue : Type :=
  | JUndefined
  | JNull
  | JBool (b : bool)
  | JNum (n : Z)
  | JStr (s : jsstring)
  | JArr (items : list jsvalue)
  | JObj (fields : list (jsstring * jsvalue)).

(** [ToBoolean]: the test of [if (v)] and [while (v)]. *)
Definition truthy (v : jsvalue) : bool :=
  match v with
  | JUndefined | JNull => false
  | JBool b => b
  | JNum n => negb (Z.eqb n 0)
  | JStr s => match s with [] => false | _ => true end
  | JArr _ | JObj _ => true
  end.

(** Exceptions. *)
Inductive exn : Type :=
  | JsError (message : jsstring)       (* [new Error(message)] *)
  | JsTypeError (property : jsstring)  (* the engine's, on reading or calling [property] *)
  | JsSyntaxError                      (* [JSON.parse] on text that is not JSON *)
  | External (name message : jsstring) (* raised by node-fetch or the platform *).

Fixpoint jsstring_eqb (a b : jsstring) : bool :=
  match a, b with
  | [], [] => true
  | x :: a', y :: b' => (x =? y) && jsstring_eqb a' b'
  | _, _ => false
  end.

(** Own properties of an object, in insertion order. *)
Fixpoint lookup_field (k : jsstring) (fields : list (jsstring * jsvalue)) : option jsvalue :=
  match fields with
  | [] => None
  | (k', v) :: rest => if jsstring_eqb k k' then Some v else lookup_field k rest
  end.

(** [o.k = v] *)
Fixpoint set_field (k : jsstring) (v : jsvalue) (fields : list (jsstring * jsvalue))
  : list (jsstring * jsvalue) :=
  match fields with
  | [] => [(k, v)]
  | (k', v') :: rest =>
      if jsstring_eqb k k' then (k, v) :: rest else (k', v') :: set_field k v rest
  end.

(** [delete o.k] *)
Fixpoint remove_field (k : jsstring) (fields : list (jsstring * jsvalue))
  : list (jsstring * jsvalue) :=
  match fields with
  | [] => []
  | (k', v') :: rest =>
      if jsstring_eqb k k' then rest else (k', v') :: remove_field k rest
  end.

(** [v.k] for a data property [k]: reading a property of [undefined] or
    [null] throws; a property that is not there reads as [undefined]. *)
Definition get (v : jsvalue) (k : jsstring) : exn + jsvalue :=
  match v with
  | JUndefined | JNull => inl (JsTypeError k)
  | JObj fields => inr (default JUndefined (lookup_field k fields))
  | JStr s =>
      inr (if jsstring_eqb k (lit "length") then JNum (Z.of_nat (length s)) else JUndefined)
  | JArr l =>
      inr (if jsstring_eqb k (lit "length") then JNum (Z.of_nat (length l)) else JUndefined)
  | JBool _ | JNum _ => inr JUndefined
  end.

(** [v.trim()]: only a string has the method. *)
Definition call_trim (v : jsvalue) : exn + jsstring :=
  match v with
  | JStr s => inr (trim s)
  | _ => inl (JsTypeError (lit "trim"))
  end.

(** Sequencing of computations that may throw. *)
Definition bind_exn {A B : Type} (m : exn + A) (k : A -> exn + B) : exn + B :=
  match m with
  | inl e => inl e
  | inr a => k a
  end.

Notation "'let*' x ':=' m 'in' k" := (bind_exn m (fun x => k))
  (at level 10, x name, m at level 100, k at level 200).

(** ** The normalizer (body of the [for] loop of [search]) *)

(** The text a raw item is read from: [extended_tweet.full_text] of a
    truncated item, [text] of any other. *)
Definition selected_text (item truncated : jsvalue) : exn + jsvalue :=
  if truthy truncated then
    let* ext := get item (lit "extended_tweet") in
    get ext (lit "full_text")
  else get item (lit "text").

(** One turn of the loop over [batch.results]: the tweet that is pushed. *)
Definition normalize (item : jsvalue) : exn + jsvalue :=
  let tweet := [] in
  let* truncated := get item (lit "truncated") in
  let* source := selected_text item truncated in
  let* trimmed := call_trim source in
  let tweet := set_field (lit "text") (JStr trimmed) tweet in
  let tweet := set_field (lit "text") (JStr (replace_marks trimmed)) tweet in
  let* created := get item (lit "created_at") in
  let tweet := set_field (lit "created_at") created tweet in
  inr (JObj tweet).

(** The transformation of the text alone. *)
Definition normalize_text (s : jsstring) : jsstring := replace_marks (trim s).

(** ** The request body of [getTweetBatch] *)

Definition request_body (query fromDate maxResults next : jsvalue) : list (jsstring * jsvalue) :=
  let body := [(lit "query", query); (lit "fromDate", fromDate); (lit "maxResults", maxResults)] in
  if truthy next then set_field (lit "next") next body else body.

(** ** Rendering values as text *)

(** Decimal digits of an integer ([Number.prototype.toString]). *)
Definition decimal (n : Z) : jsstring := lit (NilZero.string_of_int (Z.to_int n)).

Fixpoint join (sep : jsstring) (parts : list jsstring) : jsstring :=
  match parts with
  | [] => []
  | [p] => p
  | p :: rest => p ++ sep ++ join sep rest
  end.

(** [ToString], as applied by string concatenation and template literals. *)
Fixpoint to_string (v : jsvalue) : jsstring :=
  match v with
  | JUndefined => lit "undefined"
  | JNull => lit "null"
  | JBool true => lit "true"
  | JBool false => lit "false"
  | JNum n => decimal n
  | JStr s => s
  | JArr items =>
      join (lit ",")
        ((fix each (l : list jsvalue) : list jsstring :=
            match l with
            | [] => []
            | JUndefined :: r | JNull :: r => [] :: each r
            | x :: r => to_string x :: each r
            end) items)
  | JObj _ => lit "[object Object]"
  end.

(** [`${err}`] *)
Definition exn_to_string (e : exn) : jsstring :=
  match e with
  | JsError [] => lit "Error"
  | JsError m => lit "Error: " ++ m
  | JsTypeError p => lit "TypeError: " ++ p
  | JsSyntaxError => lit "SyntaxError"
  | External [] m => m
  | External name [] => name
  | External name m => name ++ lit ": " ++ m
  end.

(** *** JSON.stringify *)

Definition is_high_surrogate (c : N) : bool := (55296 <=? c) && (c <=? 56319).
Definition is_low_surrogate (c : N) : bool := (56320 <=? c) && (c <=? 57343).

Definition hex_digit (d : N) : N := if d <? 10 then 48 + d else 87 + d.

(** [\uXXXX], lower-case digits. *)
Definition unicode_escape (c : N) : jsstring :=
  [92; 117; hex_digit (c / 4096 mod 16); hex_digit (c / 256 mod 16);
   hex_digit (c / 16 mod 16); hex_digit (c mod 16)].

(** One code unit that is not half of a surrogate pair. *)
Definition quote_unit (c : N) : jsstring :=
  if c =? 8 then [92; 98]
  else if c =? 9 then [92; 116]
  else if c =? 10 then [92; 110]
  else if c =? 12 then [92; 102]
  else if c =? 13 then [92; 114]
  else if c =? 34 then [92; 34]
  else if c =? 92 then [92; 92]
  else if (c <? 32) || is_high_surrogate c || is_low_surrogate c then unicode_escape c
  else [c].

(** The characters between the quotes of [QuoteJSONString]: a surrogate
    pair is copied, a lone surrogate is escaped (well-formed
    [JSON.stringify]). *)
Fixpoint quote_body (s : jsstring) : jsstring :=
  match s with
  | [] => []
  | c :: r =>
      if is_high_surrogate c then
        match r with
        | d :: r' =>
            if is_low_surrogate d then c :: d :: quote_body r'
            else unicode_escape c ++ quote_body r
        | [] => unicode_escape c
        end
      else quote_unit c ++ quote_body r
  end.

Definition quote (s : jsstring) : jsstring := [34] ++ quote_body s ++ [34].

(** The brackets around the serialized members of an array or object. *)
Definition wrap (opening closing : N) (gap indent : jsstring) (partial : list jsstring)
  : jsstring :=
  match partial with
  | [] => [opening; closing]
  | _ =>
      match gap with
      | [] => [opening] ++ join [44] partial ++ [closing]
      | _ =>
          let stepped := indent ++ gap in
          [opening] ++ [LF] ++ stepped ++ join ([44; LF] ++ stepped) partial
            ++ [LF] ++ indent ++ [closing]
      end
  end.

(** [SerializeJSONProperty] with the indentation unit [gap] at the current
    indentation [indent].  An [undefined] array element is written [null];
    an [undefined] property is left out. *)
Fixpoint serialize (gap indent : jsstring) (v : jsvalue) {struct v} : jsstring :=
  match v with
  | JUndefined | JNull => lit "null"
  | JBool true => lit "true"
  | JBool false => lit "false"
  | JNum n => decimal n
  | JStr s => quote s
  | JArr items =>
      wrap 91 93 gap indent
        ((fix elements (l : list jsvalue) : list jsstring :=
            match l with
            | [] => []
            | x :: r => serialize gap (indent ++ gap) x :: elements r
            end) items)
  | JObj fields =>
      wrap 123 125 gap indent
        ((fix members (l : list (jsstring * jsvalue)) : list jsstring :=
            match l with
            | [] => []
            | (k, JUndefined) :: r => members r
            | (k, x) :: r =>
                (quote k ++ [58] ++ match gap with [] => [] | _ => [SPACE] end
                   ++ serialize gap (indent ++ gap) x) :: members r
            end) fields)
  end.

(** [JSON.stringify(v, null, space)]; [undefined] has no JSON text. *)
Definition JSON_stringify (v : jsvalue) (space : nat) : option jsstring :=
  match v with
  | JUndefined => None
  | _ => Some (serialize (repeat SPACE (Nat.min 10 space)) [] v)
  end.

(** ** The world outside the program *)

(** The JSON bodies of the two endpoints: [{access_token}] of the OAuth2
    endpoint, [{results: [...], next}] of the search endpoint ([next] is
    [undefined] when the body has none).  The items of [results] and the
    values of [next] and [access_token] are any JSON values; a body of
    another shape is outside the model. *)
Inductive json_body : Type :=
  | TokenJson (access_token : jsvalue)
  | PageJson (results : list jsvalue) (next : jsvalue).

(** What [fetch] resolves to: the status and what [response.json()] gives. *)
Record response : Type := {
  status : N;
  json : exn + json_body
}.

(** [response.ok] *)
Definition ok (r : response) : bool := (200 <=? status r) && (status r <? 300).

Inductive fetch_outcome : Type :=
  | Rejected (e : exn)
  | Responded (r : response).

Record request : Type := {
  method : jsstring;
  headers : list (jsstring * jsstring);
  body : option jsstring
}.

(** What the program does to the outside, in order.  Console lines are
    recorded without their leading timestamp. *)
Inductive event : Type :=
  | EDebug (line : jsstring)
  | EError (line : jsstring)
  | EFetch (url : jsstring) (req : request)
  | ETimeout (ms : Z)
  | EWriteFile (path data : jsstring).

Record World : Type := {
  network : nat -> fetch_outcome;   (* the outcome of the n-th call of [fetch] *)
  basic_credentials : jsstring;     (* btoa(urlEncode(CONSUMER_KEY) + ':' + urlEncode(CONSUMER_SECRET)) *)
  files : gmap jsstring jsstring;   (* the text of each file *)
  trace : list event
}.

(** An asynchronous function: it changes the world and returns or throws. *)
Definition M (A : Type) : Type := World -> (exn + A) * World.

Definition ret {A : Type} (a : A) : M A := fun w => (inr a, w).
Definition throw {A : Type} (e : exn) : M A := fun w => (inl e, w).

Definition bind {A B : Type} (m : M A) (k : A -> M B) : M B :=
  fun w =>
    match m w with
    | (inl e, w') => (inl e, w')
    | (inr a, w') => k a w'
    end.

Notation "'await' x ':=' m 'in' k" := (bind m (fun x => k))
  (at level 10, x name, m at level 100, k at level 200).

(** [try { m } catch (err) { handler err }] *)
Definition try_catch {A : Type} (m : M A) (handler : exn -> M A) : M A :=
  fun w =>
    match m w with
    | (inl e, w') => handler e w'
    | (inr a, w') => (inr a, w')
    end.

Definition lift {A : Type} (r : exn + A) : M A := fun w => (r, w).

Definition emit (ev : event) (w : World) : World :=
  {| network := network w; basic_credentials := basic_credentials w;
     files := files w; trace := trace w ++ [ev] |}.

(** The calls of [fetch] among some events, in order. *)
Fixpoint fetch_calls (evs : list event) : list (jsstring * request) :=
  match evs with
  | [] => []
  | EFetch url req :: rest => (url, req) :: fetch_calls rest
  | _ :: rest => fetch_calls rest
  end.

(** How many times [fetch] has been called. *)
Definition fetches (w : World) : nat := length (fetch_calls (trace w)).

Definition console_debug (line : jsstring) : M unit := fun w => (inr tt, emit (EDebug line) w).
Definition console_error (line : jsstring) : M unit := fun w => (inr tt, emit (EError line) w).

(** [fetch(url, req)]: the next outcome of the network. *)
Definition fetch (url : jsstring) (req : request) : M response :=
  fun w =>
    let w' := emit (EFetch url req) w in
    match network w (fetches w) with
    | Rejected e => (inl e, w')
    | Responded r => (inr r, w')
    end.

(** Lone surrogates do not survive the UTF-8 encoding of a file: each one
    is read back as U+FFFD. *)
Fixpoint to_well_formed (s : jsstring) : jsstring :=
  match s with
  | [] => []
  | c :: r =>
      if is_high_surrogate c then
        match r with
        | d :: r' =>
            if is_low_surrogate d then c :: d :: to_well_formed r'
            else 65533 :: to_well_formed r
        | [] => [65533]
        end
      else if is_low_surrogate c then 65533 :: to_well_formed r
      else c :: to_well_formed r
  end.

(** [fsp.writeFile(path, data)]: the file is replaced as a whole; [files]
    keeps the text as it decodes when read back. *)
Definition writeFile (path : jsstring) (data : option jsstring) : M unit :=
  fun w =>
    match data with
    | None => (inl (JsTypeError (lit "data")), w)
    | Some text =>
        (inr tt,
         {| network := network w; basic_credentials := basic_credentials w;
            files := <[path := to_well_formed text]> (files w);
            trace := trace w ++ [EWriteFile path text] |})
    end.

(** [fsp.readFile(file)], decoded. *)
Definition readFile (path : jsstring) : M jsstring :=
  fun w =>
    match files w !! path with
    | Some text => (inr text, w)
    | None => (inl (External (lit "Error") (lit "ENOENT: no such file or directory")), w)
    end.

Definition AUTH_URL : jsstring := lit "https://api.twitter.com/oauth2/token".
Definition SEARCH_URL : jsstring := lit "https://api.twitter.com/1.1/tweets/search".
Definition OUTFILE : jsstring := lit "./tweets.json".

(** ** The functions of the program *)

Definition getTweetBatch (token : jsvalue) (url query : jsstring)
    (fromDate maxResults next : jsvalue) : M json_body :=
  await _ := console_debug (lit " getTweetBatch - url:" ++ url ++ lit ", query:" ++ query) in
  let body := request_body (JStr query) fromDate maxResults next in
  try_catch
    (await response := fetch url
        {| method := lit "POST";
           headers := [(lit "Authorization", lit "Bearer " ++ to_string token)];
           body := JSON_stringify (JObj body) 0 |} in
     if ok response then lift (json response)
     else
       let msg := lit "authorization request response status: "
                    ++ decimal (Z.of_N (status response)) in
       throw (JsError msg))
    (fun err =>
       let msg := lit " getTweetBatch - query:" ++ query ++ lit " - " ++ exn_to_string err in
       await _ := console_error msg in
       throw err).

(** [json.access_token] *)
Definition access_token_of (j : json_body) : jsvalue :=
  match j with
  | TokenJson t => t
  | PageJson _ _ => JUndefined
  end.

Definition getTwitterToken (url : jsstring) : M jsvalue :=
  await _ := console_debug (lit " getTwitterToken - url:" ++ url) in
  fun w =>
    let consumerToken := basic_credentials w in
    try_catch
      (await response := fetch url
          {| method := lit "POST";
             headers := [(lit "Authorization", lit "Basic " ++ consumerToken);
                         (lit "Content-Type",
                          lit "application/x-www-form-urlencoded;charset=UTF-8")];
             body := Some (lit "grant_type=client_credentials") |} in
       if ok response then
         await j := lift (json response) in
         ret (access_token_of j)
       else
         let msg := lit "response status: " ++ decimal (Z.of_N (status response)) in
         throw (JsError msg))
      (fun err =>
         let msg := lit " getTwitterToken - url:" ++ url ++ lit " - " ++ exn_to_string err in
         await _ := console_error msg in
         throw err)
      w.

(** [setTimeout] behind a promise. *)
Definition rateLimiter (sec : Z) : M unit :=
  await _ := console_debug (lit " rateLimiter - sec:" ++ decimal sec) in
  fun w => (inr tt, emit (ETimeout (sec * 1000)) w).

(** The [for] loop over [batch.results]: each tweet is pushed as soon as it
    is built, so the tweets before a failing item stay in the array. *)
Fixpoint push_results (items : list jsvalue) (tweets : list jsvalue)
  : list jsvalue * (exn + unit) :=
  match items with
  | [] => (tweets, inr tt)
  | item :: rest =>
      match normalize item with
      | inl e => (tweets, inl e)
      | inr tweet => push_results rest (tweets ++ [tweet])
      end
  end.

(** The loop over one batch; a body without [results] has no [length]. *)
Definition push_batch (batch : json_body) (tweets : list jsvalue)
  : list jsvalue * (exn + unit) :=
  match batch with
  | PageJson results _ => push_results results tweets
  | TokenJson _ => (tweets, inl (JsTypeError (lit "length")))
  end.

(** [batch.next] *)
Definition next_of (batch : json_body) : jsvalue :=
  match batch with
  | PageJson _ next => next
  | TokenJson _ => JUndefined
  end.

(** The [do ... while (next)] loop of [search], with the array [tweets] it
    fills.  [fuel] bounds the number of pages; [None] is a loop still running
    when the bound is reached. *)
Fixpoint do_while (fuel : nat) (token : jsvalue) (url query : jsstring)
    (fromDate maxResults next : jsvalue) (tweets : list jsvalue) (w : World)
  : option (list jsvalue * (exn + unit) * World) :=
  match fuel with
  | O => None
  | S fuel' =>
      match getTweetBatch token url query fromDate maxResults next w with
      | (inl e, w1) => Some (tweets, inl e, w1)
      | (inr batch, w1) =>
          match push_batch batch tweets with
          | (tweets', inl e) => Some (tweets', inl e, w1)
          | (tweets', inr _) =>
              let next' := next_of batch in
              let w2 := snd (rateLimiter 3 w1) in
              if truthy next' then
                do_while fuel' token url query fromDate maxResults next' tweets' w2
              else Some (tweets', inr tt, w2)
          end
      end
  end.

(** The [try] block of [search]. *)
Definition search_try (fuel : nat) (url query : jsstring) (fromDate maxResults : jsvalue)
    (w : World) : option (list jsvalue * (exn + Z) * World) :=
  let tweets := [] in
  match getTwitterToken AUTH_URL w with
  | (inl e, w1) => Some (tweets, inl e, w1)
  | (inr token, w1) =>
      let next := JNull in
      match do_while fuel token url query fromDate maxResults next tweets w1 with
      | None => None
      | Some (tweets', inl e, w2) => Some (tweets', inl e, w2)
      | Some (tweets', inr _, w2) => Some (tweets', inr (Z.of_nat (length tweets')), w2)
      end
  end.

(** [search]: the [try] block, the [catch] block that logs and rethrows,
    and the [finally] block that writes [tweets] whatever happened. *)
Definition search (fuel : nat) (url query : jsstring) (fromDate maxResults : jsvalue)
    (w : World) : option ((exn + Z) * World) :=
  let w0 := snd (console_debug (lit " search - url:" ++ url ++ lit ", query:" ++ query) w) in
  match search_try fuel url query fromDate maxResults w0 with
  | None => None
  | Some (tweets, outcome, w1) =>
      let caught :=
        match outcome with
        | inl err =>
            let msg := lit " search - url: " ++ url ++ lit ", query:" ++ query
                         ++ lit " - " ++ exn_to_string err in
            (await _ := console_error msg in throw err) w1
        | inr total => (inr total, w1)
        end in
      let finally := writeFile OUTFILE (JSON_stringify (JArr tweets) 4) (snd caught) in
      match finally with
      | (inl e, w3) => Some (inl e, w3)
      | (inr _, w3) => Some (fst caught, w3)
      end
  end.

(** *** JSON.parse *)

Definition is_json_space (c : N) : bool :=
  (c =? 9) || (c =? 10) || (c =? 13) || (c =? 32).

Fixpoint skip_ws (s : jsstring) : jsstring :=
  match s with
  | [] => []
  | c :: r => if is_json_space c then skip_ws r else s
  end.

Definition hex_value (c : N) : option N :=
  if (48 <=? c) && (c <=? 57) then Some (c - 48)
  else if (97 <=? c) && (c <=? 102) then Some (c - 87)
  else if (65 <=? c) && (c <=? 70) then Some (c - 55)
  else None.

Definition hex4 (a b c d : N) : option N :=
  match hex_value a, hex_value b, hex_value c, hex_value d with
  | Some x, Some y, Some z, Some t => Some (((x * 16 + y) * 16 + z) * 16 + t)
  | _, _, _, _ => None
  end.

(** The character a one-letter escape stands for. *)
Definition unescape (e : N) : option N :=
  if e =? 34 then Some 34
  else if e =? 92 then Some 92
  else if e =? 47 then Some 47
  else if e =? 98 then Some 8
  else if e =? 102 then Some 12
  else if e =? 110 then Some 10
  else if e =? 114 then Some 13
  else if e =? 116 then Some 9
  else None.

Definition prepend (c : N) (p : option (jsstring * jsstring)) : option (jsstring * jsstring) :=
  match p with
  | Some (str, rest) => Some (c :: str, rest)
  | None => None
  end.

(** The characters of a string literal after its opening quote, up to and
    including the closing quote: the string and what follows it. *)
Fixpoint parse_chars (s : jsstring) : option (jsstring * jsstring) :=
  match s with
  | [] => None
  | c :: r =>
      if c =? 34 then Some ([], r)
      else if c =? 92 then
        match r with
        | [] => None
        | e :: r' =>
            if e =? 117 then
              match r' with
              | h1 :: h2 :: h3 :: h4 :: r'' =>
                  match hex4 h1 h2 h3 h4 with
                  | Some u => prepend u (parse_chars r'')
                  | None => None
                  end
              | _ => None
              end
            else
              match unescape e with
              | Some u => prepend u (parse_chars r')
              | None => None
              end
        end
      else if c <? 32 then None
      else prepend c (parse_chars r)
  end.

Definition is_digit (c : N) : bool := (48 <=? c) && (c <=? 57).

(** The digits at the head of [s], read onto [acc]. *)
Fixpoint parse_digits (acc : Z) (s : jsstring) : Z * jsstring :=
  match s with
  | c :: r => if is_digit c then parse_digits (acc * 10 + Z.of_N (c - 48)) r else (acc, s)
  | [] => (acc, s)
  end.

(** An unsigned integer literal; a fraction or an exponent would leave the
    integer-valued numbers and is not read. *)
Definition parse_unsigned (s : jsstring) : option (Z * jsstring) :=
  match s with
  | c :: r =>
      if is_digit c then
        let '(n, rest) := if c =? 48 then (0%Z, r) else parse_digits 0 s in
        match rest with
        | d :: _ => if (d =? 46) || (d =? 101) || (d =? 69) then None else Some (n, rest)
        | [] => Some (n, rest)
        end
      else None
  | [] => None
  end.

Fixpoint strip_prefix (p s : jsstring) : option jsstring :=
  match p, s with
  | [], _ => Some s
  | a :: p', b :: s' => if a =? b then strip_prefix p' s' else None
  | _ :: _, [] => None
  end.

(** The elements of an array after its opening bracket, each read by
    [value], up to and including the closing bracket.  [n] bounds the number
    of elements. *)
Fixpoint parse_elements (value : jsstring -> option (jsvalue * jsstring))
    (n : nat) (acc : list jsvalue) (s : jsstring) {struct n}
  : option (list jsvalue * jsstring) :=
  match n with
  | O => None
  | S n' =>
      match value s with
      | None => None
      | Some (v, rest) =>
          match skip_ws rest with
          | 44 :: more => parse_elements value n' (acc ++ [v]) (skip_ws more)
          | 93 :: more => Some (acc ++ [v], more)
          | _ => None
          end
      end
  end.

(** The members of an object after its opening brace; a key that comes
    again replaces the value it had. *)
Fixpoint parse_members (value : jsstring -> option (jsvalue * jsstring))
    (n : nat) (acc : list (jsstring * jsvalue)) (s : jsstring) {struct n}
  : option (list (jsstring * jsvalue) * jsstring) :=
  match n with
  | O => None
  | S n' =>
      match s with
      | 34 :: r =>
          match parse_chars r with
          | None => None
          | Some (k, rest) =>
              match skip_ws rest with
              | 58 :: more =>
                  match value (skip_ws more) with
                  | None => None
                  | Some (v, rest') =>
                      match skip_ws rest' with
                      | 44 :: more' =>
                          parse_members value n' (set_field k v acc) (skip_ws more')
                      | 125 :: more' => Some (set_field k v acc, more')
                      | _ => None
                      end
                  end
              | _ => None
              end
          end
      | _ => None
      end
  end.

(** One JSON value at the head of [s] (no leading white space) and the text
    after it.  [depth] bounds the nesting of arrays and objects; the loops
    over elements and members are bounded by the length of the text. *)
Fixpoint parse_value (depth : nat) (s : jsstring) {struct depth}
  : option (jsvalue * jsstring) :=
  match depth with
  | O => None
  | S d =>
      match s with
      | [] => None
      | c :: r =>
          if c =? 34 then
            match parse_chars r with
            | Some (str, rest) => Some (JStr str, rest)
            | None => None
            end
          else if c =? 91 then
            match skip_ws r with
            | 93 :: rest => Some (JArr [], rest)
            | r' =>
                match parse_elements (parse_value d) (length r') [] r' with
                | Some (items, rest) => Some (JArr items, rest)
                | None => None
                end
            end
          else if c =? 123 then
            match skip_ws r with
            | 125 :: rest => Some (JObj [], rest)
            | r' =>
                match parse_members (parse_value d) (length r') [] r' with
                | Some (fields, rest) => Some (JObj fields, rest)
                | None => None
                end
            end
          else if c =? 45 then
            match parse_unsigned r with
            | Some (n, rest) => Some (JNum (- n), rest)
            | None => None
            end
          else if is_digit c then
            match parse_unsigned s with
            | Some (n, rest) => Some (JNum n, rest)
            | None => None
            end
          else
            match strip_prefix (lit "true") s, strip_prefix (lit "false") s,
                  strip_prefix (lit "null") s with
            | Some rest, _, _ => Some (JBool true, rest)
            | _, Some rest, _ => Some (JBool false, rest)
            | _, _, Some rest => Some (JNull, rest)
            | _, _, _ => None
            end
      end
  end.

(** [JSON.parse(text)] *)
Definition JSON_parse (text : jsstring) : exn + jsvalue :=
  match parse_value (S (length text)) (skip_ws text) with
  | Some (v, rest) =>
      match skip_ws rest with
      | [] => inr v
      | _ => inl JsSyntaxError
      end
  | None => inl JsSyntaxError
  end.

Definition readTweetFile (file : jsstring) : M jsvalue :=
  await tweets := readFile file in
  lift (JSON_parse tweets).

(** *** urlEncode *)

Definition is_alnum (c : N) : bool :=
  ((48 <=? c) && (c <=? 57)) || ((65 <=? c) && (c <=? 90)) || ((97 <=? c) && (c <=? 122)).

(** The characters [encodeURIComponent] leaves alone: letters, digits and
    [- _ . ! ~ * ' ( )]. *)
Definition uri_unreserved (c : N) : bool :=
  is_alnum c || (c =? 45) || (c =? 95) || (c =? 46) || (c =? 33) || (c =? 126)
  || (c =? 42) || (c =? 39) || (c =? 40) || (c =? 41).

Definition upper_hex_digit (d : N) : N := if d <? 10 then 48 + d else 55 + d.

(** [%XX] for one octet, upper-case digits. *)
Definition percent (octet : N) : jsstring :=
  [37; upper_hex_digit (octet / 16); upper_hex_digit (octet mod 16)].

(** The octets of the UTF-8 encoding of a code point. *)
Definition utf8 (cp : N) : list N :=
  if cp <? 128 then [cp]
  else if cp <? 2048 then [192 + cp / 64; 128 + cp mod 64]
  else if cp <? 65536 then [224 + cp / 4096; 128 + (cp / 64) mod 64; 128 + cp mod 64]
  else [240 + cp / 262144; 128 + (cp / 4096) mod 64; 128 + (cp / 64) mod 64; 128 + cp mod 64].

(** The code point of a surrogate pair. *)
Definition code_point (high low : N) : N :=
  (high - 55296) * 1024 + (low - 56320) + 65536.

Definition URIError : exn := External (lit "URIError") (lit "URI malformed").

(** [encodeURIComponent(s)]: an unreserved character is copied, any other
    code point becomes the [%XX] of its UTF-8 octets, a surrogate without
    its partner throws. *)
Fixpoint encodeURIComponent (s : jsstring) : exn + jsstring :=
  match s with
  | [] => inr []
  | c :: r =>
      if uri_unreserved c then
        let* rest := encodeURIComponent r in inr (c :: rest)
      else if is_high_surrogate c then
        match r with
        | d :: r' =>
            if is_low_surrogate d then
              let* rest := encodeURIComponent r' in
              inr (flat_map percent (utf8 (code_point c d)) ++ rest)
            else inl URIError
        | [] => inl URIError
        end
      else if is_low_surrogate c then inl URIError
      else
        let* rest := encodeURIComponent r in
        inr (flat_map percent (utf8 c) ++ rest)
  end.

(** [s.replace(/c/g, replacement)] for a single character [c]. *)
Definition replace_all (c : N) (replacement : jsstring) (s : jsstring) : jsstring :=
  flat_map (fun x => if x =? c then replacement else [x]) s.

Definition urlEncode (str : jsstring) : exn + jsstring :=
  let* encoded := encodeURIComponent str in
  inr (replace_all 42 (lit "%2A")
         (replace_all 41 (lit "%29")
            (replace_all 40 (lit "%28")
               (replace_all 39 (lit "%27")
                  (replace_all 33 (lit "%21") encoded))))).

(** [urlEncode(CONSUMER_KEY) + ':' + urlEncode(CONSUMER_SECRET)], the text
    [getTwitterToken] hands to [btoa]. *)
Definition credentials_text (key secret : jsstring) : exn + jsstring :=
  let* k := urlEncode key in
  let* s := urlEncode secret in
  inr (k ++ lit ":" ++ s).

(** ** Vocabulary of the properties *)

(** No white space at the start. *)
Definition starts_clean (s : jsstring) : bool :=
  match s with
  | [] => true
  | c :: _ => negb (is_white_space c)
  end.

(** No white space at either end. *)
Definition no_outer_space (s : jsstring) : bool :=
  starts_clean s && starts_clean (rev s).

Definition starts_with_mark (s : jsstring) : bool :=
  match s with
  | [] => false
  | c :: _ => (c =? AT) || (c =? HASH)
  end.

(** An [@] or a [#] at either end. *)
Definition outer_mark (s : jsstring) : bool :=
  starts_with_mark s || starts_with_mark (rev s).

(** A carriage return directly followed by a line feed. *)
Fixpoint has_crlf (s : jsstring) : bool :=
  match s with
  | [] => false
  | c :: r =>
      match r with
      | d :: _ => ((c =? CR) && (d =? LF)) || has_crlf r
      | [] => false
      end
  end.

(** Every matched character replaced on its own. *)
Definition replace_each (s : jsstring) : jsstring :=
  map (fun c => if is_mark c then SPACE else c) s.

(** The unselected text field of an item with these properties. *)
Definition unselected (fields : list (jsstring * jsvalue)) : jsstring :=
  if truthy (default JUndefined (lookup_field (lit "truncated") fields))
  then lit "text" else lit "extended_tweet".

(** The tweet pushed for a trimmed-and-replaced [text] and a [created_at]. *)
Definition tweet_object (text : jsstring) (created_at : jsvalue) : jsvalue :=
  JObj [(lit "text", JStr text); (lit "created_at", created_at)].

(** The request [getTweetBatch] hands to [fetch]. *)
Definition batch_request (token : jsvalue) (query : jsstring)
    (fromDate maxResults next : jsvalue) : request :=
  {| method := lit "POST";
     headers := [(lit "Authorization", lit "Bearer " ++ to_string token)];
     body := JSON_stringify (JObj (request_body (JStr query) fromDate maxResults next)) 0 |}.

(** The message of the error [getTweetBatch] throws on a status that is
    not 2xx. *)
Definition status_message (st : N) : jsstring :=
  lit "authorization request response status: " ++ decimal (Z.of_N st).

(** The line [getTweetBatch] writes to the error console. *)
Definition batch_error_line (query : jsstring) (e : exn) : jsstring :=
  lit " getTweetBatch - query:" ++ query ++ lit " - " ++ exn_to_string e.

Definition is_write (ev : event) : bool :=
  match ev with
  | EWriteFile _ _ => true
  | _ => false
  end.

(** The tweets the loop pushes for one outcome of the search endpoint:
    those of the items before the first one the normalizer rejects; none
    when the request failed. *)
Definition page_tweets (o : fetch_outcome) : list jsvalue :=
  match o with
  | Rejected _ => []
  | Responded r =>
      if ok r then
        match json r with
        | inr batch => fst (push_batch batch [])
        | inl _ => []
        end
      else []
  end.

(** The outcomes number [from], [from + 1], ..., [to - 1] of the network. *)
Definition outcomes (w : World) (from to : nat) : list fetch_outcome :=
  map (network w) (seq from (to - from)).

(** The line [search] writes to the error console. *)
Definition search_error_line (url query : jsstring) (e : exn) : jsstring :=
  lit " search - url: " ++ url ++ lit ", query:" ++ query ++ lit " - " ++ exn_to_string e.

(** The world has moved on by the events [evs], none of them a write. *)
Definition advances (w w' : World) (evs : list event) : Prop :=
  network w' = network w /\ basic_credentials w' = basic_credentials w /\
  files w' = files w /\ trace w' = trace w ++ evs /\
  Forall (fun ev => is_write ev = false) evs.

(** The request [getTwitterToken] hands to [fetch]. *)
Definition token_request (consumerToken : jsstring) : request :=
  {| method := lit "POST";
     headers := [(lit "Authorization", lit "Basic " ++ consumerToken);
                 (lit "Content-Type", lit "application/x-www-form-urlencoded;charset=UTF-8")];
     body := Some (lit "grant_type=client_credentials") |}.

(** The line [getTwitterToken] writes to the error console. *)
Definition token_error_line (url : jsstring) (e : exn) : jsstring :=
  lit " getTwitterToken - url:" ++ url ++ lit " - " ++ exn_to_string e.

(** The bearer token an outcome of the OAuth2 endpoint carries. *)
Definition token_of (o : fetch_outcome) : jsvalue :=
  match o with
  | Responded r =>
      match json r with
      | inr j => access_token_of j
      | inl _ => JUndefined
      end
  | Rejected _ => JUndefined
  end.

(** The text [search] writes to the result file for the array [tweets]. *)
Definition tweets_text (tweets : list jsvalue) : jsstring :=
  serialize (repeat SPACE 4) [] (JArr tweets).

(** The world after the [finally] block of [search]. *)
Definition written (tweets : list jsvalue) (w : World) : World :=
  {| network := network w; basic_credentials := basic_credentials w;
     files := <[OUTFILE := to_well_formed (tweets_text tweets)]> (files w);
     trace := trace w ++ [EWriteFile OUTFILE (tweets_text tweets)] |}.

(** The exception [getTweetBatch] throws on an outcome of the network, if
    it throws. *)
Definition batch_failure (o : fetch_outcome) : option exn :=
  match o with
  | Rejected e => Some e
  | Responded r =>
      if ok r then
        match json r with
        | inl e => Some e
        | inr _ => None
        end
      else Some (JsError (status_message (status r)))
  end.

(** No surrogate without its partner. *)
Fixpoint well_formed (s : jsstring) : bool :=
  match s with
  | [] => true
  | c :: r =>
      if is_high_surrogate c then
        match r with
        | d :: r' => is_low_surrogate d && well_formed r'
        | [] => false
        end
      else negb (is_low_surrogate c) && well_formed r
  end.

(** The loop goes round again after this outcome: a page of results whose
    items are all normalized and whose [next] is truthy. *)
Definition continues (o : fetch_outcome) : bool :=
  match o with
  | Responded r =>
      ok r &&
      match json r with
      | inr (PageJson items next) =>
          truthy next && match snd (push_results items []) with inr _ => true | inl _ => false end
      | _ => false
      end
  | Rejected _ => false
  end.

(** The cursor an outcome of the search endpoint hands on: [batch.next]. *)
Definition cursor_of (o : fetch_outcome) : jsvalue :=
  match o with
  | Responded r =>
      match json r with
      | inr batch => next_of batch
      | inl _ => JUndefined
      end
  | Rejected _ => JUndefined
  end.

(** The unreserved characters of RFC 3986: letters, digits and [- _ . ~]. *)
Definition strict_unreserved (c : N) : bool :=
  is_alnum c || (c =? 45) || (c =? 95) || (c =? 46) || (c =? 126).

Definition is_upper_hex (c : N) : bool :=
  ((48 <=? c) && (c <=? 57)) || ((65 <=? c) && (c <=? 70)).

(** Unreserved characters and [%XX] triples, nothing else. *)
Fixpoint percent_encoded (s : jsstring) : bool :=
  match s with
  | [] => true
  | c :: r =>
      if c =? 37 then
        match r with
        | h1 :: h2 :: r' => is_upper_hex h1 && is_upper_hex h2 && percent_encoded r'
        | _ => false
        end
      else strict_unreserved c && percent_encoded r
  end.

(** Every element is a UTF-16 code unit. *)
Definition code_units (s : jsstring) : bool := forallb (fun c => c <? 65536) s.

(** The five replacements of [urlEncode], one after the other. *)
Definition replace_marks5 (s : jsstring) : jsstring :=
  replace_all 42 (lit "%2A")
    (replace_all 41 (lit "%29")
       (replace_all 40 (lit "%28")
          (replace_all 39 (lit "%27")
             (replace_all 33 (lit "%21") s)))).

(** The octets a percent-encoded text stands for. *)
Fixpoint percent_decode (s : jsstring) : list N :=
  match s with
  | [] => []
  | c :: r =>
      if c =? 37 then
        match r with
        | h1 :: h2 :: r' =>
            match hex_value h1, hex_value h2 with
            | Some a, Some b => (a * 16 + b) :: percent_decode r'
            | _, _ => []
            end
        | _ => []
        end
      else c :: percent_decode r
  end.

(** The code units some UTF-8 octets stand for. *)
Fixpoint utf8_decode (octets : list N) : jsstring :=
  match octets with
  | [] => []
  | b0 :: r =>
      if b0 <? 128 then b0 :: utf8_decode r
      else if b0 <? 224 then
        match r with
        | b1 :: r1 => ((b0 - 192) * 64 + (b1 - 128)) :: utf8_decode r1
        | _ => []
        end
      else if b0 <? 240 then
        match r with
        | b1 :: b2 :: r2 =>
            ((b0 - 224) * 4096 + (b1 - 128) * 64 + (b2 - 128)) :: utf8_decode r2
        | _ => []
        end
      else
        match r with
        | b1 :: b2 :: b3 :: r3 =>
            let cp := (b0 - 240) * 262144 + (b1 - 128) * 4096 + (b2 - 128) * 64 + (b3 - 128) in
            (55296 + (cp - 65536) / 1024) :: (56320 + (cp - 65536) mod 1024) :: utf8_decode r3
        | _ => []
        end
  end.

(** The exception [getTwitterToken] throws on an outcome of the network, if
    it throws. *)
Definition token_failure (o : fetch_outcome) : option exn :=
  match o with
  | Rejected e => Some e
  | Responded r =>
      if ok r then
        match json r with
        | inl e => Some e
        | inr _ => None
        end
      else Some (JsError (lit "response status: " ++ decimal (Z.of_N (status r))))
  end.

(** The exception the loop over the items of a page throws, if it throws. *)
Definition items_failure (o : fetch_outcome) : option exn :=
  match o with
  | Rejected _ => None
  | Responded r =>
      if ok r then
        match json r with
        | inr batch =>
            match snd (push_batch batch []) with
            | inl e => Some e
            | inr _ => None
            end
        | inl _ => None
        end
      else None
  end.

(** The exception that ends the loop of [search] in the turn of an outcome,
    if one does. *)
Definition turn_failure (o : fetch_outcome) : option exn :=
  match batch_failure o with
  | Some e => Some e
  | None => items_failure o
  end.

(** What one turn of the loop of [search] does to the outside, for the
    cursor it starts with and the outcome of its request. *)
Definition page_events (token : jsvalue) (url query : jsstring)
    (fromDate maxResults next : jsvalue) (o : fetch_outcome) : list event :=
  [EDebug (lit " getTweetBatch - url:" ++ url ++ lit ", query:" ++ query);
   EFetch url (batch_request token query fromDate maxResults next)]
  ++ match batch_failure o with
     | Some e => [EError (batch_error_line query e)]
     | None =>
         match items_failure o with
         | Some _ => []
         | None => [EDebug (lit " rateLimiter - sec:3"); ETimeout 3000]
         end
     end.

(** The turns of the loop for a sequence of outcomes, each turn with the
    cursor of the outcome before it. *)
Fixpoint loop_events (token : jsvalue) (url query : jsstring)
    (fromDate maxResults next : jsvalue) (os : list fetch_outcome) : list event :=
  match os with
  | [] => []
  | o :: rest =>
      page_events token url query fromDate maxResults next o
        ++ loop_events token url query fromDate maxResults (cursor_of o) rest
  end.

(** The timeouts among some events, grouped by the calls of [fetch] they
    come between: those before the first call, those between the first and
    the second, ..., those after the last. *)
Fixpoint waits (evs : list event) : list (list Z) :=
  match evs with
  | [] => [[]]
  | ev :: rest =>
      match ev, waits rest with
      | EFetch _ _, groups => [] :: groups
      | ETimeout ms, group :: groups => (ms :: group) :: groups
      | _, groups => groups
      end
  end.

(** What a run of [search] does to the outside: the outcome [o] of the
    token request, the outcomes [pages] of the page requests, the result [r]
    of the run. *)
Definition search_events (credentials url query : jsstring) (fromDate maxResults : jsvalue)
    (o : fetch_outcome) (pages : list fetch_outcome) (r : exn + Z) : list event :=
  [EDebug (lit " search - url:" ++ url ++ lit ", query:" ++ query);
   EDebug (lit " getTwitterToken - url:" ++ AUTH_URL);
   EFetch AUTH_URL (token_request credentials)]
  ++ match token_failure o with
     | Some e => [EError (token_error_line AUTH_URL e)]
     | None => loop_events (token_of o) url query fromDate maxResults JNull pages
     end
  ++ match r with
     | inl e => [EError (search_error_line url query e)]
     | inr _ => []
     end
  ++ [EWriteFile OUTFILE (tweets_text (flat_map page_tweets pages))].

(** The result of a run of [search] that ends with the outcome [o] of the
    token request and [last_page] as the outcome of its last page request,
    having pushed [tweets]. *)
Definition search_result (o last_page : fetch_outcome) (tweets : list jsvalue) : exn + Z :=
  match token_failure o with
  | Some e => inl e
  | None =>
      match turn_failure last_page with
      | Some e => inl e
      | None => inr (Z.of_nat (length tweets))
      end
  end.




(** The items of the page an outcome of the search endpoint carries. *)
Definition page_items (o : fetch_outcome) : list jsvalue :=
  match o with
  | Rejected _ => []
  | Responded r =>
      if ok r then
        match json r with
        | inr (PageJson items _) => items
        | _ => []
        end
      else []
  end.

(** The lines written on the error console among some events. *)
Definition error_lines (evs : list event) : list jsstring :=
  flat_map (fun ev => match ev with
                      | EError line => [line]
                      | _ => []
                      end) evs.

(** ** Sample data *)

(** The item of the spec's scenario: not truncated, with a line feed, an
    [@] and a [#] inside the text. *)
Definition hello_item : jsvalue :=
  JObj [(lit "truncated", JBool false);
        (lit "text", JStr (lit "Hello" ++ [LF] ++ lit "@world #tag"));
        (lit "created_at", JStr (lit "Thu Oct 03 12:00:00 +0000 2019"))].

(** A reply: its text begins with [@]. *)
Definition reply_item : jsvalue :=
  JObj [(lit "truncated", JBool false);
        (lit "text", JStr (lit "@hi"));
        (lit "created_at", JStr (lit "Fri Oct 04 08:30:00 +0000 2019"))].

(** A truncated item: both text fields are there. *)
Definition long_item_fields : list (jsstring * jsvalue) :=
  [(lit "truncated", JBool true);
   (lit "text", JStr (lit "A long tweet that was cut"));
   (lit "extended_tweet", JObj [(lit "full_text", JStr (lit " A long tweet that was cut off #news "))]);
   (lit "created_at", JStr (lit "Sat Oct 05 17:45:00 +0000 2019"))].

(** A world in which nothing has happened yet. *)
Definition initial_world (net : nat -> fetch_outcome) : World :=
  {| network := net; basic_credentials := lit "a2V5OnNlY3JldA=="; files := ∅; trace := [] |}.

Definition connection_refused : exn :=
  External (lit "FetchError") (lit "request failed, reason: connect ECONNREFUSED").

(** A response with this status whose body is not JSON. *)
Definition plain_response (st : N) : fetch_outcome :=
  Responded {| status := st;
               json := inl (External (lit "FetchError") (lit "invalid json response body")) |}.

Definition json_response (j : json_body) : fetch_outcome :=
  Responded {| status := 200; json := inr j |}.

(** The search endpoint answers 404 to every request. *)
Definition not_found_world : World := initial_world (fun _ => plain_response 404).

Definition token_outcome : fetch_outcome := json_response (TokenJson (JStr (lit "AAAAAAAA"))).

(** Page 1 of the spec's scenario: a truncated item, an item that is not,
    and the cursor ["abc"]. *)
Definition first_page : fetch_outcome :=
  json_response (PageJson [JObj long_item_fields; hello_item] (JStr (lit "abc"))).

(** Page 2: one item and no cursor. *)
Definition second_page : fetch_outcome :=
  json_response (PageJson [reply_item] JUndefined).

(** The token, then two pages. *)
Definition two_pages_world : World :=
  initial_world (fun k =>
    match k with
    | 0%nat => token_outcome
    | 1%nat => first_page
    | 2%nat => second_page
    | _ => Rejected connection_refused
    end).

(** The token, then page 1, then the connection is lost. *)
Definition line_drops_world : World :=
  initial_world (fun k =>
    match k with
    | 0%nat => token_outcome
    | 1%nat => first_page
    | _ => Rejected connection_refused
    end).

(** An item without [text]. *)
Definition textless_item : jsvalue :=
  JObj [(lit "truncated", JBool false);
        (lit "created_at", JStr (lit "Sun Oct 06 09:15:00 +0000 2019"))].

(** The token, then a page with a cursor whose only item has no [text]. *)
Definition textless_world : World :=
  initial_world (fun k =>
    match k with
    | 0%nat => token_outcome
    | 1%nat => json_response (PageJson [textless_item] (JStr (lit "abc")))
    | _ => second_page
    end).

Definition sample_url : jsstring := SEARCH_URL ++ lit "/30day/dev.json".
Definition sample_query : jsstring := lit "from:nasa -RT".
Definition sample_fromDate : jsvalue := JStr (lit "201910010000").

Definition long_tweet : jsvalue :=
  tweet_object (lit "A long tweet that was cut off  news")
    (JStr (lit "Sat Oct 05 17:45:00 +0000 2019")).
Definition hello_tweet : jsvalue :=
  tweet_object (lit "Hello  world  tag") (JStr (lit "Thu Oct 03 12:00:00 +0000 2019")).
Definition reply_tweet : jsvalue :=
  tweet_object (lit " hi") (JStr (lit "Fri Oct 04 08:30:00 +0000 2019")).

(** The token endpoint answers 200 with a body that has no [access_token];
    then one page without a cursor. *)
Definition tokenless_world : World :=
  initial_world (fun k =>
    match k with
    | 0%nat => json_response (TokenJson JUndefined)
    | _ => second_page
    end).

(** The token, then pages with a cursor without end. *)
Definition endless_world : World :=
  initial_world (fun k =>
    match k with
    | 0%nat => token_outcome
    | _ => first_page
    end).

(** * Properties *)

(** ** Strings *)

Lemma list_pair_ind (P : jsstring -> Prop) :
  P [] -> (forall c, P [c]) ->
  (forall c d r, P r -> P (d :: r) -> P (c :: d :: r)) ->
  forall s, P s.
Proof.
  intros H0 H1 H2 s.
  assert (H : P s /\ forall c, P (c :: s)).
  { induction s as [|d r [IH1 IH2]]; split; auto. }
  apply H.
Qed.

Lemma trim_start_suffix (s : jsstring) :
  exists p, s = p ++ trim_start s /\ Forall (fun c => is_white_space c = true) p.
Proof.
  induction s as [|c r [p [Hp Hf]]]; simpl.
  - exists []. split; [reflexivity | constructor].
  - destruct (is_white_space c) eqn:E.
    + exists (c :: p). split; [simpl; congruence | constructor; assumption].
    + exists []. split; [reflexivity | constructor].
Qed.

Lemma trim_start_clean (s : jsstring) : starts_clean (trim_start s) = true.
Proof.
  induction s as [|c r IH]; simpl; [reflexivity|].
  destruct (is_white_space c) eqn:E; [assumption | simpl; rewrite E; reflexivity].
Qed.

Lemma trim_start_fix (s : jsstring) : starts_clean s = true -> trim_start s = s.
Proof.
  destruct s as [|c r]; simpl; [reflexivity|].
  destruct (is_white_space c); [discriminate | reflexivity].
Qed.

Lemma trim_end_prefix (s : jsstring) :
  exists q, s = trim_end s ++ q /\ Forall (fun c => is_white_space c = true) q.
Proof.
  destruct (trim_start_suffix (rev s)) as [p [Hp Hf]].
  exists (rev p). split.
  - unfold trim_end. rewrite <- rev_app_distr, <- Hp. symmetry. apply rev_involutive.
  - apply Forall_rev. assumption.
Qed.

Lemma trim_clean (s : jsstring) : no_outer_space (trim s) = true.
Proof.
  unfold no_outer_space, trim. apply andb_true_intro. split.
  - destruct (trim_end_prefix (trim_start s)) as [q [Hq _]].
    pose proof (trim_start_clean s) as Hc. rewrite Hq in Hc.
    destruct (trim_end (trim_start s)); [reflexivity | exact Hc].
  - unfold trim_end. rewrite rev_involutive. apply trim_start_clean.
Qed.

Lemma trim_fix (s : jsstring) : no_outer_space s = true -> trim s = s.
Proof.
  unfold no_outer_space, trim, trim_end. intros H.
  apply andb_prop in H as [H1 H2].
  rewrite (trim_start_fix s H1), (trim_start_fix (rev s) H2).
  apply rev_involutive.
Qed.

Lemma trim_fix_iff (s : jsstring) : trim s = s <-> no_outer_space s = true.
Proof.
  split; [|apply trim_fix]. intros H. rewrite <- H. apply trim_clean.
Qed.

Lemma trim_idempotent (s : jsstring) : trim (trim s) = trim s.
Proof. apply trim_fix, trim_clean. Qed.

Lemma trim_keeps (P : N -> Prop) (s : jsstring) : Forall P s -> Forall P (trim s).
Proof.
  intros H. unfold trim.
  destruct (trim_start_suffix s) as [p [Hp _]].
  destruct (trim_end_prefix (trim_start s)) as [q [Hq _]].
  rewrite Hp in H. apply Forall_app in H as [_ H].
  rewrite Hq in H. apply Forall_app in H as [H _]. exact H.
Qed.

Lemma replace_marks_clean (s : jsstring) :
  Forall (fun c => is_mark c = false) (replace_marks s).
Proof.
  induction s as [| c | c d r IH1 IH2] using list_pair_ind.
  - constructor.
  - simpl. destruct (c =? CR) eqn:E1; [repeat constructor|].
    destruct ((c =? LF) || (c =? AT) || (c =? HASH)) eqn:E2; repeat constructor.
    unfold is_mark. rewrite E1.
    apply orb_false_elim in E2 as [E2 E4]. apply orb_false_elim in E2 as [E2 E3].
    rewrite E2, E3, E4. reflexivity.
  - change (replace_marks (c :: d :: r)) with
      (if c =? CR then (if d =? LF then SPACE :: replace_marks r
                        else SPACE :: replace_marks (d :: r))
       else if (c =? LF) || (c =? AT) || (c =? HASH) then SPACE :: replace_marks (d :: r)
       else c :: replace_marks (d :: r)).
    destruct (c =? CR) eqn:E1.
    + destruct (d =? LF); constructor; auto.
    + destruct ((c =? LF) || (c =? AT) || (c =? HASH)) eqn:E2; constructor; auto.
      unfold is_mark. rewrite E1.
      apply orb_false_elim in E2 as [E2 E4]. apply orb_false_elim in E2 as [E2 E3].
      rewrite E2, E3, E4. reflexivity.
Qed.

Lemma is_mark_false (c : N) :
  is_mark c = false ->
  (c =? CR) = false /\ ((c =? LF) || (c =? AT) || (c =? HASH)) = false.
Proof.
  unfold is_mark. intros H.
  apply orb_false_elim in H as [H H4]. apply orb_false_elim in H as [H H3].
  apply orb_false_elim in H as [H1 H2]. rewrite H1, H2, H3, H4. auto.
Qed.

Lemma replace_marks_other (c : N) (r : jsstring) :
  is_mark c = false -> replace_marks (c :: r) = c :: replace_marks r.
Proof.
  intros H. apply is_mark_false in H as [H1 H2]. simpl. rewrite H1, H2. reflexivity.
Qed.

Lemma replace_marks_fix (s : jsstring) :
  Forall (fun c => is_mark c = false) s -> replace_marks s = s.
Proof.
  induction 1 as [|c r Hc _ IH]; [reflexivity|].
  rewrite replace_marks_other by assumption. congruence.
Qed.

Lemma replace_marks_idempotent (s : jsstring) :
  replace_marks (replace_marks s) = replace_marks s.
Proof. apply replace_marks_fix, replace_marks_clean. Qed.

Lemma replace_marks_snoc (s : jsstring) (c : N) :
  is_mark c = false -> replace_marks (s ++ [c]) = replace_marks s ++ [c].
Proof.
  intros Hc. pose proof (is_mark_false c Hc) as [Hc1 Hc2].
  assert (Hlf : (c =? LF) = false).
  { apply orb_false_elim in Hc2 as [Hc2 _]. apply orb_false_elim in Hc2 as [Hc2 _]. exact Hc2. }
  induction s as [| a | a d r IH1 IH2] using list_pair_ind.
  - simpl. rewrite Hc1, Hc2. reflexivity.
  - simpl. rewrite Hc1, Hc2, Hlf.
    destruct (a =? CR); [reflexivity|].
    destruct ((a =? LF) || (a =? AT) || (a =? HASH)); reflexivity.
  - change ((a :: d :: r) ++ [c]) with (a :: d :: (r ++ [c])).
    change (replace_marks (a :: d :: r ++ [c])) with
      (if a =? CR then (if d =? LF then SPACE :: replace_marks (r ++ [c])
                        else SPACE :: replace_marks ((d :: r) ++ [c]))
       else if (a =? LF) || (a =? AT) || (a =? HASH)
            then SPACE :: replace_marks ((d :: r) ++ [c])
            else a :: replace_marks ((d :: r) ++ [c])).
    change (replace_marks (a :: d :: r)) with
      (if a =? CR then (if d =? LF then SPACE :: replace_marks r
                        else SPACE :: replace_marks (d :: r))
       else if (a =? LF) || (a =? AT) || (a =? HASH) then SPACE :: replace_marks (d :: r)
       else a :: replace_marks (d :: r)).
    rewrite IH1, IH2.
    destruct (a =? CR); [destruct (d =? LF); reflexivity|].
    destruct ((a =? LF) || (a =? AT) || (a =? HASH)); reflexivity.
Qed.

Lemma replace_marks_each (s : jsstring) :
  has_crlf s = false -> replace_marks s = replace_each s.
Proof.
  induction s as [| a | a d r IH1 IH2] using list_pair_ind; intros H.
  - reflexivity.
  - simpl. unfold is_mark.
    destruct (a =? CR) eqn:E1.
    + rewrite orb_true_r. reflexivity.
    + rewrite orb_false_r.
      destruct (a =? LF); simpl; [reflexivity|].
      destruct (a =? AT); simpl; [reflexivity|].
      destruct (a =? HASH); reflexivity.
  - change (has_crlf (a :: d :: r)) with (((a =? CR) && (d =? LF)) || has_crlf (d :: r)) in H.
    apply orb_false_elim in H as [Hp Hr].
    change (replace_marks (a :: d :: r)) with
      (if a =? CR then (if d =? LF then SPACE :: replace_marks r
                        else SPACE :: replace_marks (d :: r))
       else if (a =? LF) || (a =? AT) || (a =? HASH) then SPACE :: replace_marks (d :: r)
       else a :: replace_marks (d :: r)).
    rewrite (IH2 Hr).
    change (replace_each (a :: d :: r)) with
      ((if is_mark a then SPACE else a) :: replace_each (d :: r)).
    unfold is_mark at 1.
    destruct (a =? CR) eqn:E1.
    + simpl in Hp. rewrite Hp, orb_true_r. reflexivity.
    + rewrite orb_false_r.
      destruct (a =? LF); simpl; [reflexivity|].
      destruct (a =? AT); simpl; [reflexivity|].
      destruct (a =? HASH); reflexivity.
Qed.

Lemma white_space_not_mark (c : N) :
  is_white_space c = false -> (c =? AT) || (c =? HASH) = false -> is_mark c = false.
Proof.
  intros Hw Hm. unfold is_mark.
  destruct (c =? LF) eqn:E1; [apply N.eqb_eq in E1; subst; discriminate|].
  destruct (c =? CR) eqn:E2; [apply N.eqb_eq in E2; subst; discriminate|].
  simpl. apply orb_false_elim in Hm as [-> ->]. reflexivity.
Qed.

Lemma replace_marks_starts_clean (s : jsstring) :
  starts_clean s = true -> starts_with_mark s = false ->
  starts_clean (replace_marks s) = true.
Proof.
  destruct s as [|c r]; [reflexivity|]. simpl starts_clean at 1. simpl starts_with_mark.
  intros Hw Hm. apply negb_true_iff in Hw.
  rewrite replace_marks_other by (apply white_space_not_mark; assumption).
  simpl. rewrite Hw. reflexivity.
Qed.

Lemma replace_marks_ends_clean (s : jsstring) :
  starts_clean (rev s) = true -> starts_with_mark (rev s) = false ->
  starts_clean (rev (replace_marks s)) = true.
Proof.
  destruct (rev s) as [|c r] eqn:E.
  - intros _ _. apply (f_equal (@rev N)) in E. rewrite rev_involutive in E.
    subst s. reflexivity.
  - apply (f_equal (@rev N)) in E. rewrite rev_involutive in E. simpl in E. subst s.
    simpl. intros Hw Hm. apply negb_true_iff in Hw.
    rewrite replace_marks_snoc by (apply white_space_not_mark; assumption).
    rewrite rev_app_distr. simpl. rewrite Hw. reflexivity.
Qed.

(** Trimming and then replacing leaves no white space at the ends unless
    the trimmed text begins or ends with [@] or [#]. *)
Lemma normalize_text_clean (s : jsstring) :
  outer_mark (trim s) = false -> no_outer_space (normalize_text s) = true.
Proof.
  unfold outer_mark, normalize_text. intros H.
  apply orb_false_elim in H as [H1 H2].
  pose proof (trim_clean s) as Hc. unfold no_outer_space in *.
  apply andb_prop in Hc as [Hc1 Hc2]. apply andb_true_intro. split.
  - apply replace_marks_starts_clean; assumption.
  - apply replace_marks_ends_clean; assumption.
Qed.

(** A second pass only trims. *)
Lemma normalize_text_twice (s : jsstring) :
  normalize_text (normalize_text s) = trim (normalize_text s).
Proof.
  unfold normalize_text at 1. apply replace_marks_fix, trim_keeps, replace_marks_clean.
Qed.

Lemma normalize_text_thrice (s : jsstring) :
  normalize_text (normalize_text (normalize_text s)) = normalize_text (normalize_text s).
Proof.
  rewrite (normalize_text_twice (normalize_text s)).
  rewrite !normalize_text_twice. apply trim_idempotent.
Qed.

(** ** Objects *)

Lemma jsstring_eqb_eq (a b : jsstring) : jsstring_eqb a b = true <-> a = b.
Proof.
  revert b. induction a as [|x a IH]; intros [|y b]; simpl; split; try easy.
  - intros H. apply andb_prop in H as [H1 H2].
    apply N.eqb_eq in H1. apply IH in H2. congruence.
  - intros H. injection H as -> ->. rewrite N.eqb_refl. simpl. apply IH. reflexivity.
Qed.

Lemma lookup_set_other (k k' : jsstring) (v : jsvalue) (fields : list (jsstring * jsvalue)) :
  jsstring_eqb k' k = false ->
  lookup_field k' (set_field k v fields) = lookup_field k' fields.
Proof.
  intros Hne. induction fields as [|[k0 v0] rest IH]; simpl.
  - rewrite Hne. reflexivity.
  - destruct (jsstring_eqb k k0) eqn:E; simpl.
    + apply jsstring_eqb_eq in E. subst k0. rewrite Hne. reflexivity.
    + rewrite IH. reflexivity.
Qed.

Lemma lookup_set_same (k : jsstring) (v : jsvalue) (fields : list (jsstring * jsvalue)) :
  lookup_field k (set_field k v fields) = Some v.
Proof.
  assert (Hk : jsstring_eqb k k = true) by (apply jsstring_eqb_eq; reflexivity).
  induction fields as [|[k0 v0] rest IH]; simpl.
  - rewrite Hk. reflexivity.
  - destruct (jsstring_eqb k k0) eqn:E; simpl; [rewrite Hk | rewrite E]; auto.
Qed.

Lemma lookup_remove_other (k k' : jsstring) (fields : list (jsstring * jsvalue)) :
  jsstring_eqb k' k = false ->
  lookup_field k' (remove_field k fields) = lookup_field k' fields.
Proof.
  intros Hne. induction fields as [|[k0 v0] rest IH]; simpl; [reflexivity|].
  destruct (jsstring_eqb k k0) eqn:E; simpl.
  - apply jsstring_eqb_eq in E. subst k0. rewrite Hne. reflexivity.
  - rewrite IH. reflexivity.
Qed.

(** ** The normalizer *)

Lemma normalize_inv (item tweet : jsvalue) :
  normalize item = inr tweet ->
  exists truncated source created,
    get item (lit "truncated") = inr truncated /\
    selected_text item truncated = inr (JStr source) /\
    get item (lit "created_at") = inr created /\
    tweet = tweet_object (normalize_text source) created.
Proof.
  unfold normalize. intros H.
  destruct (get item (lit "truncated")) as [e|truncated] eqn:Ht; [discriminate|].
  simpl in H.
  destruct (selected_text item truncated) as [e|source] eqn:Hs; [discriminate|].
  simpl in H.
  destruct source; try discriminate. simpl in H.
  destruct (get item (lit "created_at")) as [e|created] eqn:Hc; [discriminate|].
  simpl in H. injection H as <-.
  exists truncated, s, created. repeat split; auto.
Qed.

Lemma normalize_tweet_object (text : jsstring) (created : jsvalue) :
  normalize (tweet_object text created) = inr (tweet_object (normalize_text text) created).
Proof. reflexivity. Qed.

Lemma normalize_object (fields : list (jsstring * jsvalue)) :
  normalize (JObj fields) =
    let* source := selected_text (JObj fields)
                     (default JUndefined (lookup_field (lit "truncated") fields)) in
    let* trimmed := call_trim source in
    inr (tweet_object (replace_marks trimmed)
           (default JUndefined (lookup_field (lit "created_at") fields))).
Proof.
  unfold normalize. simpl.
  destruct (selected_text _ _); [reflexivity|]. simpl.
  destruct (call_trim _); reflexivity.
Qed.

(** C5 (as the code has it).  For every raw item the normalizer accepts, the
    tweet's text is the selected source text, trimmed and then with every
    line feed, carriage return (a carriage return and the line feed after it
    counting once), [@] and [#] replaced by one space: none of these
    characters is left, the replacement is character by character when no
    carriage return is followed by a line feed, and the text has no white
    space at its ends provided the trimmed source neither begins nor ends
    with [@] or [#].  [created_at] is carried over as it is. *)
Theorem normalize_text_and_timestamp (item tweet : jsvalue) :
  normalize item = inr tweet ->
  exists truncated source created,
    get item (lit "truncated") = inr truncated /\
    selected_text item truncated = inr (JStr source) /\
    get item (lit "created_at") = inr created /\
    tweet = tweet_object (replace_marks (trim source)) created /\
    Forall (fun c => is_mark c = false) (replace_marks (trim source)) /\
    (has_crlf (trim source) = false ->
     replace_marks (trim source) = replace_each (trim source)) /\
    (outer_mark (trim source) = false ->
     no_outer_space (replace_marks (trim source)) = true).
Proof.
  intros H. destruct (normalize_inv item tweet H) as (tr & src & cr & H1 & H2 & H3 & H4).
  exists tr, src, cr. repeat split; auto.
  - apply replace_marks_clean.
  - apply replace_marks_each.
  - apply normalize_text_clean.
Qed.

Lemma normalize_text_and_timestamp_witness :
  exists truncated source created,
    get hello_item (lit "truncated") = inr truncated /\
    selected_text hello_item truncated = inr (JStr source) /\
    get hello_item (lit "created_at") = inr created /\
    tweet_object (lit "Hello  world  tag") (JStr (lit "Thu Oct 03 12:00:00 +0000 2019"))
      = tweet_object (replace_marks (trim source)) created /\
    Forall (fun c => is_mark c = false) (replace_marks (trim source)) /\
    (has_crlf (trim source) = false ->
     replace_marks (trim source) = replace_each (trim source)) /\
    (outer_mark (trim source) = false ->
     no_outer_space (replace_marks (trim source)) = true).
Proof.
  apply (normalize_text_and_timestamp hello_item). reflexivity.
Defined.

(** C5 as stated fails: the text of a reply is trimmed before the [@] is
    replaced, so the tweet's text begins with a space. *)
Lemma normalize_leaves_leading_space :
  normalize reply_item
    = inr (tweet_object (lit " hi") (JStr (lit "Fri Oct 04 08:30:00 +0000 2019"))) /\
  no_outer_space (lit " hi") = false /\
  trim (lit " hi") <> lit " hi".
Proof.
  split; [reflexivity|]. split; [reflexivity|]. discriminate.
Qed.

(** C6 (as the code has it).  Normalizing a normalized tweet again only
    trims its text.  It changes nothing when that text has no white space at
    its ends, which is the case when the trimmed raw text neither begins nor
    ends with [@] or [#]; and after the second pass nothing changes any
    more. *)
Theorem normalize_again (item tweet : jsvalue) :
  normalize item = inr tweet ->
  exists truncated source created,
    get item (lit "truncated") = inr truncated /\
    selected_text item truncated = inr (JStr source) /\
    tweet = tweet_object (normalize_text source) created /\
    normalize tweet = inr (tweet_object (trim (normalize_text source)) created) /\
    (no_outer_space (normalize_text source) = true -> normalize tweet = inr tweet) /\
    (outer_mark (trim source) = false -> normalize tweet = inr tweet) /\
    normalize (tweet_object (trim (normalize_text source)) created)
      = inr (tweet_object (trim (normalize_text source)) created).
Proof.
  intros H. destruct (normalize_inv item tweet H) as (tr & src & cr & H1 & H2 & H3 & H4).
  exists tr, src, cr. subst tweet.
  assert (Hn : normalize (tweet_object (normalize_text src) cr)
               = inr (tweet_object (trim (normalize_text src)) cr)).
  { rewrite normalize_tweet_object, normalize_text_twice. reflexivity. }
  repeat split; auto.
  - intros Hc. rewrite Hn, (trim_fix _ Hc). reflexivity.
  - intros Hm. rewrite Hn, (trim_fix _ (normalize_text_clean _ Hm)). reflexivity.
  - rewrite normalize_tweet_object. rewrite <- normalize_text_twice.
    rewrite normalize_text_thrice. reflexivity.
Qed.

Lemma normalize_again_witness :
  exists truncated source created,
    get hello_item (lit "truncated") = inr truncated /\
    selected_text hello_item truncated = inr (JStr source) /\
    tweet_object (lit "Hello  world  tag") (JStr (lit "Thu Oct 03 12:00:00 +0000 2019"))
      = tweet_object (normalize_text source) created /\
    normalize (tweet_object (lit "Hello  world  tag")
                 (JStr (lit "Thu Oct 03 12:00:00 +0000 2019")))
      = inr (tweet_object (trim (normalize_text source)) created) /\
    (no_outer_space (normalize_text source) = true ->
     normalize (tweet_object (lit "Hello  world  tag")
                  (JStr (lit "Thu Oct 03 12:00:00 +0000 2019")))
       = inr (tweet_object (lit "Hello  world  tag")
                (JStr (lit "Thu Oct 03 12:00:00 +0000 2019")))) /\
    (outer_mark (trim source) = false ->
     normalize (tweet_object (lit "Hello  world  tag")
                  (JStr (lit "Thu Oct 03 12:00:00 +0000 2019")))
       = inr (tweet_object (lit "Hello  world  tag")
                (JStr (lit "Thu Oct 03 12:00:00 +0000 2019")))) /\
    normalize (tweet_object (trim (normalize_text source)) created)
      = inr (tweet_object (trim (normalize_text source)) created).
Proof.
  apply (normalize_again hello_item). reflexivity.
Defined.

(** C6 as stated fails: the normalized text of a reply is [" hi"], and a
    second pass turns it into ["hi"]. *)
Lemma normalize_twice_differs :
  normalize reply_item
    = inr (tweet_object (lit " hi") (JStr (lit "Fri Oct 04 08:30:00 +0000 2019"))) /\
  normalize (tweet_object (lit " hi") (JStr (lit "Fri Oct 04 08:30:00 +0000 2019")))
    = inr (tweet_object (lit "hi") (JStr (lit "Fri Oct 04 08:30:00 +0000 2019"))) /\
  normalize_text (normalize_text (lit "@hi")) <> normalize_text (lit "@hi").
Proof.
  split; [reflexivity|]. split; [reflexivity|]. discriminate.
Qed.

(** C7.  The text of an item is read from one field only, chosen by the
    truncation flag: [extended_tweet.full_text] when [truncated] is true,
    [text] otherwise.  Setting the other field to any value, or deleting it,
    does not change the outcome of the normalizer. *)
Theorem unselected_field_is_not_read (fields : list (jsstring * jsvalue)) :
  let truncated := default JUndefined (lookup_field (lit "truncated") fields) in
  let created := default JUndefined (lookup_field (lit "created_at") fields) in
  (forall v, normalize (JObj (set_field (unselected fields) v fields))
             = normalize (JObj fields)) /\
  normalize (JObj (remove_field (unselected fields) fields)) = normalize (JObj fields) /\
  (forall s,
     (if truthy truncated
      then exists ext, lookup_field (lit "extended_tweet") fields = Some ext /\
                       get ext (lit "full_text") = inr (JStr s)
      else lookup_field (lit "text") fields = Some (JStr s)) ->
     normalize (JObj fields) = inr (tweet_object (normalize_text s) created)).
Proof.
  intros truncated created. split; [|split].
  - intros v. rewrite !normalize_object. unfold unselected, selected_text.
    fold truncated. destruct (truthy truncated) eqn:E.
    + rewrite !lookup_set_other by reflexivity. fold truncated. rewrite E.
      simpl. rewrite !lookup_set_other by reflexivity. reflexivity.
    + rewrite !lookup_set_other by reflexivity. fold truncated. rewrite E.
      simpl. rewrite !lookup_set_other by reflexivity. reflexivity.
  - rewrite !normalize_object. unfold unselected, selected_text.
    fold truncated. destruct (truthy truncated) eqn:E.
    + rewrite !lookup_remove_other by reflexivity. fold truncated. rewrite E.
      simpl. rewrite !lookup_remove_other by reflexivity. reflexivity.
    + rewrite !lookup_remove_other by reflexivity. fold truncated. rewrite E.
      simpl. rewrite !lookup_remove_other by reflexivity. reflexivity.
  - intros s Hs. rewrite normalize_object. unfold selected_text. fold truncated created.
    destruct (truthy truncated).
    + destruct Hs as (ext & Hext & Hft). simpl. rewrite Hext. simpl. rewrite Hft.
      reflexivity.
    + simpl. rewrite Hs. reflexivity.
Qed.

Lemma unselected_field_is_not_read_witness :
  normalize (JObj (set_field (lit "text") (JStr (lit "something else")) long_item_fields))
    = normalize (JObj long_item_fields) /\
  normalize (JObj (remove_field (lit "text") long_item_fields))
    = normalize (JObj long_item_fields) /\
  normalize (JObj long_item_fields)
    = inr (tweet_object (lit "A long tweet that was cut off  news")
             (JStr (lit "Sat Oct 05 17:45:00 +0000 2019"))).
Proof.
  pose proof (unselected_field_is_not_read long_item_fields) as (H1 & H2 & H3).
  split; [exact (H1 (JStr (lit "something else")))|]. split; [exact H2|].
  apply (H3 (lit " A long tweet that was cut off #news ")).
  exists (JObj [(lit "full_text", JStr (lit " A long tweet that was cut off #news "))]).
  split; reflexivity.
Defined.

(** ** The world *)

Lemma fetch_calls_app (a b : list event) :
  fetch_calls (a ++ b) = fetch_calls a ++ fetch_calls b.
Proof.
  induction a as [|ev a IH]; simpl; [reflexivity|].
  destruct ev; simpl; rewrite IH; reflexivity.
Qed.

Lemma fetches_emit (ev : event) (w : World) :
  fetches (emit ev w) =
    match ev with
    | EFetch _ _ => S (fetches w)
    | _ => fetches w
    end.
Proof.
  unfold fetches, emit. simpl. rewrite fetch_calls_app, length_app.
  destruct ev; simpl; lia.
Qed.

(** What one call of [getTweetBatch] does: a debug line, one call of
    [fetch], and on any failure one line on the error console before the
    exception is thrown again. *)
Lemma getTweetBatch_run (token : jsvalue) (url query : jsstring)
    (fromDate maxResults next : jsvalue) (w : World) :
  let w1 := emit (EFetch url (batch_request token query fromDate maxResults next))
              (emit (EDebug (lit " getTweetBatch - url:" ++ url ++ lit ", query:" ++ query)) w) in
  let failed (e : exn) : (exn + json_body) * World :=
    (inl e, emit (EError (batch_error_line query e)) w1) in
  getTweetBatch token url query fromDate maxResults next w =
    match network w (fetches w) with
    | Rejected e => failed e
    | Responded r =>
        if ok r then
          match json r with
          | inl e => failed e
          | inr j => (inr j, w1)
          end
        else failed (JsError (status_message (status r)))
    end.
Proof.
  unfold getTweetBatch, bind, try_catch, console_debug, fetch, throw, lift, console_error.
  rewrite fetches_emit. cbn [network emit].
  fold (batch_request token query fromDate maxResults next).
  destruct (network w (fetches w)) as [e|r]; [reflexivity|].
  destruct (ok r); [|reflexivity].
  destruct (json r); reflexivity.
Qed.

(** C10.  [getTweetBatch] makes one call of [fetch]; the body it sends is
    the JSON text of an object with [query], [fromDate] and [maxResults],
    and with [next] exactly when the cursor it was given is truthy.  The
    cursors [null], [undefined] and the empty string are all left out. *)
Theorem next_field_iff_truthy (token : jsvalue) (url query : jsstring)
    (fromDate maxResults next : jsvalue) (w : World) :
  let base := [(lit "query", JStr query); (lit "fromDate", fromDate);
               (lit "maxResults", maxResults)] in
  let sent := request_body (JStr query) fromDate maxResults next in
  let w' := snd (getTweetBatch token url query fromDate maxResults next w) in
  fetch_calls (drop (length (trace w)) (trace w'))
    = [(url, {| method := lit "POST";
                headers := [(lit "Authorization", lit "Bearer " ++ to_string token)];
                body := JSON_stringify (JObj sent) 0 |})] /\
  sent = base ++ (if truthy next then [(lit "next", next)] else []) /\
  lookup_field (lit "next") sent = (if truthy next then Some next else None) /\
  request_body (JStr query) fromDate maxResults JNull = base /\
  request_body (JStr query) fromDate maxResults JUndefined = base /\
  request_body (JStr query) fromDate maxResults (JStr []) = base.
Proof.
  intros base sent w'. split; [|split; [|split]].
  - subst w'. rewrite getTweetBatch_run.
    destruct (network w (fetches w)) as [e|r];
      [|destruct (ok r); [destruct (json r)|]];
      cbn [snd emit trace]; rewrite <- ?app_assoc, drop_app_length; reflexivity.
  - subst sent base. unfold request_body. destruct (truthy next); reflexivity.
  - subst sent. unfold request_body. destruct (truthy next); reflexivity.
  - repeat split; reflexivity.
Qed.

(** ** Status errors *)

Lemma lit_inj (a b : string) : lit a = lit b -> a = b.
Proof.
  unfold lit. intros H.
  rewrite <- (string_of_list_ascii_of_string a), <- (string_of_list_ascii_of_string b).
  f_equal. revert H. generalize (list_ascii_of_string a) (list_ascii_of_string b).
  intros la. induction la as [|x la IH]; intros [|y lb]; simpl; try easy.
  intros H. injection H as H1 H2. f_equal; [|apply IH; assumption].
  rewrite <- (ascii_N_embedding x), <- (ascii_N_embedding y). congruence.
Qed.

Lemma decimal_inj (n m : Z) : decimal n = decimal m -> n = m.
Proof.
  unfold decimal. intros H. apply lit_inj in H.
  apply DecimalZ.to_int_inj.
  assert (Hn : forall z, Z.to_int z <> Decimal.Pos Decimal.Nil /\
                         Z.to_int z <> Decimal.Neg Decimal.Nil).
  { intros [|p|p]; simpl; split; try discriminate; intros [= E];
      exact (DecimalPos.Unsigned.to_uint_nonnil p E). }
  pose proof (NilZero.isi (Z.to_int n) (proj1 (Hn n)) (proj2 (Hn n))) as E1.
  pose proof (NilZero.isi (Z.to_int m) (proj1 (Hn m)) (proj2 (Hn m))) as E2.
  rewrite H in E1. congruence.
Qed.

Lemma status_message_inj (a b : N) : status_message a = status_message b -> a = b.
Proof.
  unfold status_message. intros H. apply app_inv_head in H.
  apply decimal_inj in H. lia.
Qed.

(** C9 (as the code has it).  When the search endpoint answers with a status
    that is not 2xx, [getTweetBatch] throws an [Error] whose message ends
    with the status code, so the status can be read back from it.  The query
    is printed on the error console; the error itself is the same whatever
    the query was. *)
Theorem status_error_carries_status (token : jsvalue) (url query : jsstring)
    (fromDate maxResults next : jsvalue) (w : World) (r : response) :
  network w (fetches w) = Responded r ->
  ok r = false ->
  let out := getTweetBatch token url query fromDate maxResults next w in
  let err := JsError (status_message (status r)) in
  fst out = inl err /\
  (forall st, status_message st = status_message (status r) -> st = status r) /\
  last (trace (snd out)) = Some (EError (batch_error_line query err)) /\
  (forall query', fst (getTweetBatch token url query' fromDate maxResults next w) = inl err).
Proof.
  intros Hnet Hok out err. subst out.
  split; [|split; [|split]].
  - rewrite getTweetBatch_run, Hnet, Hok. reflexivity.
  - intros st. apply status_message_inj.
  - rewrite getTweetBatch_run, Hnet, Hok. cbn [snd emit trace]. apply last_snoc.
  - intros query'. rewrite getTweetBatch_run, Hnet, Hok. reflexivity.
Qed.

Lemma status_error_carries_status_witness :
  fst (getTweetBatch (JStr (lit "token")) SEARCH_URL (lit "from:nasa") (JStr (lit "201910010000"))
         (JNum 100) JNull not_found_world)
    = inl (JsError (lit "authorization request response status: 404")) /\
  (forall st, status_message st = status_message 404 -> st = 404) /\
  last (trace (snd (getTweetBatch (JStr (lit "token")) SEARCH_URL (lit "from:nasa")
                      (JStr (lit "201910010000")) (JNum 100) JNull not_found_world)))
    = Some (EError (lit " getTweetBatch - query:from:nasa - Error: authorization request response status: 404")) /\
  (forall query',
     fst (getTweetBatch (JStr (lit "token")) SEARCH_URL query' (JStr (lit "201910010000"))
            (JNum 100) JNull not_found_world)
       = inl (JsError (lit "authorization request response status: 404"))).
Proof.
  apply (status_error_carries_status (JStr (lit "token")) SEARCH_URL (lit "from:nasa")
           (JStr (lit "201910010000")) (JNum 100) JNull not_found_world
           {| status := 404;
              json := inl (External (lit "FetchError") (lit "invalid json response body")) |});
    reflexivity.
Defined.

(** C9 as stated fails: on a 404 the error thrown for the query
    [from:nasa] and the error thrown for the query [from:esa] are the same
    [Error], whose message names the status and no query. *)
Lemma status_error_lacks_query :
  fst (getTweetBatch (JStr (lit "token")) SEARCH_URL (lit "from:nasa") (JStr (lit "201910010000"))
         (JNum 100) JNull not_found_world)
    = inl (JsError (lit "authorization request response status: 404")) /\
  fst (getTweetBatch (JStr (lit "token")) SEARCH_URL (lit "from:esa") (JStr (lit "201910010000"))
         (JNum 100) JNull not_found_world)
    = inl (JsError (lit "authorization request response status: 404")) /\
  lit "from:nasa" <> lit "from:esa".
Proof.
  split; [reflexivity|]. split; [reflexivity|]. discriminate.
Qed.

(** ** The loop *)

Lemma advances_refl (w : World) : advances w w [].
Proof. unfold advances. rewrite app_nil_r. repeat split; auto. Qed.

Lemma advances_trans (w1 w2 w3 : World) (a b : list event) :
  advances w1 w2 a -> advances w2 w3 b -> advances w1 w3 (a ++ b).
Proof.
  intros (N1 & B1 & F1 & T1 & Q1) (N2 & B2 & F2 & T2 & Q2).
  unfold advances. repeat split; try congruence.
  - rewrite T2, T1, app_assoc. reflexivity.
  - apply Forall_app. split; assumption.
Qed.

Lemma advances_emit (w : World) (ev : event) :
  is_write ev = false -> advances w (emit ev w) [ev].
Proof. intros H. unfold advances. repeat split; auto. Qed.

Lemma advances_fetches (w w' : World) (evs : list event) :
  advances w w' evs -> fetches w' = (fetches w + length (fetch_calls evs))%nat.
Proof.
  intros (_ & _ & _ & T & _). unfold fetches.
  rewrite T, fetch_calls_app, length_app. reflexivity.
Qed.

Lemma advances_calls (w w' : World) (evs : list event) :
  advances w w' evs -> fetch_calls (trace w') = fetch_calls (trace w) ++ fetch_calls evs.
Proof. intros (_ & _ & _ & T & _). rewrite T. apply fetch_calls_app. Qed.

(** Every outcome of [getTweetBatch] adds exactly one call of [fetch]. *)
Lemma getTweetBatch_advances (token : jsvalue) (url query : jsstring)
    (fromDate maxResults next : jsvalue) (w : World) :
  exists evs,
    advances w (snd (getTweetBatch token url query fromDate maxResults next w)) evs /\
    fetch_calls evs = [(url, batch_request token query fromDate maxResults next)].
Proof.
  rewrite getTweetBatch_run.
  set (d := EDebug _). set (f := EFetch _ _).
  assert (H2 : advances w (emit f (emit d w)) ([d] ++ [f])).
  { eapply advances_trans; apply advances_emit; reflexivity. }
  assert (H3 : forall e, advances w (emit (EError (batch_error_line query e)) (emit f (emit d w)))
                           (([d] ++ [f]) ++ [EError (batch_error_line query e)])).
  { intros e. eapply advances_trans; [exact H2 | apply advances_emit; reflexivity]. }
  destruct (network w (fetches w)) as [e|r];
    [|destruct (ok r); [destruct (json r) as [e|j]|]]; cbn [snd];
    eexists; (split; [first [apply H3 | apply H2] | reflexivity]).
Qed.

Lemma rateLimiter_advances (sec : Z) (w : World) :
  exists evs, advances w (snd (rateLimiter sec w)) evs /\ fetch_calls evs = [].
Proof.
  unfold rateLimiter, bind, console_debug. cbn [snd].
  eexists. split.
  - eapply advances_trans; apply advances_emit; reflexivity.
  - reflexivity.
Qed.

Lemma push_results_app (items acc : list jsvalue) :
  push_results items acc
    = (acc ++ fst (push_results items []), snd (push_results items [])).
Proof.
  revert acc. induction items as [|item rest IH]; intros acc; simpl.
  - rewrite app_nil_r. reflexivity.
  - destruct (normalize item) as [e|tweet]; simpl.
    + rewrite app_nil_r. reflexivity.
    + rewrite (IH (acc ++ [tweet])), (IH [tweet]). simpl.
      rewrite <- app_assoc. reflexivity.
Qed.

Lemma push_batch_app (batch : json_body) (acc : list jsvalue) :
  push_batch batch acc = (acc ++ fst (push_batch batch []), snd (push_batch batch [])).
Proof.
  destruct batch; simpl.
  - rewrite app_nil_r. reflexivity.
  - apply push_results_app.
Qed.
Lemma outcomes_cons (w : World) (from to : nat) :
  (from < to)%nat -> outcomes w from to = network w from :: outcomes w (S from) to.
Proof.
  intros H. unfold outcomes.
  replace (to - from)%nat with (S (to - S from)) by lia. reflexivity.
Qed.

Lemma outcomes_nil (w : World) (from : nat) : outcomes w from from = [].
Proof. unfold outcomes. rewrite Nat.sub_diag. reflexivity. Qed.

Lemma outcomes_network (w w' : World) (from to : nat) :
  network w' = network w -> outcomes w' from to = outcomes w from to.
Proof. unfold outcomes. intros ->. reflexivity. Qed.

(** [getTweetBatch] returns a body exactly when the network answers with a
    2xx status and a JSON body; otherwise no tweet is pushed. *)
Lemma getTweetBatch_cases (token : jsvalue) (url query : jsstring)
    (fromDate maxResults next : jsvalue) (w : World) :
  (exists r batch,
     fst (getTweetBatch token url query fromDate maxResults next w) = inr batch /\
     network w (fetches w) = Responded r /\ ok r = true /\ json r = inr batch) \/
  (exists e,
     fst (getTweetBatch token url query fromDate maxResults next w) = inl e /\
     batch_failure (network w (fetches w)) = Some e /\
     page_tweets (network w (fetches w)) = [] /\
     forall r batch, network w (fetches w) = Responded r -> ok r = true ->
                     json r = inr batch -> False).
Proof.
  rewrite getTweetBatch_run. unfold page_tweets, batch_failure.
  destruct (network w (fetches w)) as [e|r].
  - right. exists e. repeat split; auto. discriminate.
  - destruct (ok r) eqn:Hok; [destruct (json r) as [e|j] eqn:Hj|].
    + right. exists e. repeat split; auto. intros r' b [= <-] _ Hb. congruence.
    + left. exists r, j. auto.
    + right. eexists. repeat split; auto. intros r' b [= <-] Hb _. congruence.
Qed.

Lemma do_while_spec (token : jsvalue) (url query : jsstring) (fromDate maxResults : jsvalue)
    (fuel : nat) :
  forall (next : jsvalue) (tweets : list jsvalue) (w : World)
         (tweets' : list jsvalue) (r : exn + unit) (w' : World),
  do_while fuel token url query fromDate maxResults next tweets w = Some (tweets', r, w') ->
  exists evs,
    advances w w' evs /\
    (fetches w < fetches w')%nat /\
    tweets' = tweets ++ flat_map page_tweets (outcomes w (fetches w) (fetches w')) /\
    fetch_calls (trace w') !! fetches w
      = Some (url, batch_request token query fromDate maxResults next) /\
    (forall k resp items nx,
       (fetches w <= k < fetches w')%nat ->
       network w k = Responded resp -> ok resp = true ->
       json resp = inr (PageJson items nx) ->
       (truthy nx = false -> fetches w' = S k) /\
       (truthy nx = true -> snd (push_results items []) = inr tt ->
        fetch_calls (trace w') !! S k
          = Some (url, batch_request token query fromDate maxResults nx))) /\
    (r = inr tt ->
     forall k, (fetches w <= k < fetches w')%nat ->
       exists resp items nx,
         network w k = Responded resp /\ ok resp = true /\
         json resp = inr (PageJson items nx) /\ snd (push_results items []) = inr tt) /\
    (forall k e, (fetches w <= k < fetches w')%nat ->
       batch_failure (network w k) = Some e -> fetches w' = S k /\ r = inl e).
Proof.
  induction fuel as [|fuel IH]; intros next tweets w tweets' r w' H; [discriminate|].
  cbn [do_while] in H.
  destruct (getTweetBatch_advances token url query fromDate maxResults next w)
    as (evs1 & A1 & C1).
  pose proof (advances_fetches _ _ _ A1) as F1. rewrite C1 in F1. cbn [length] in F1.
  pose proof (advances_calls _ _ _ A1) as L1. rewrite C1 in L1.
  destruct (getTweetBatch_cases token url query fromDate maxResults next w)
    as [(r0 & batch & G & N0 & K0 & J0) | (e & G & B0 & P0 & X0)];
    destruct (getTweetBatch token url query fromDate maxResults next w) as [res w1];
    cbn [fst snd] in *; subst res.
  2:{ injection H as <- <- <-. exists evs1. split; [exact A1|]. split; [lia|].
      split; [|split; [|split; [|split]]].
      - rewrite outcomes_cons, F1 by lia. 
        replace (fetches w + 1)%nat with (S (fetches w)) by lia.
        rewrite outcomes_nil. cbn [flat_map]. rewrite P0, app_nil_r. reflexivity.
      - rewrite L1. rewrite lookup_app_r by (unfold fetches; lia).
        unfold fetches. rewrite Nat.sub_diag. reflexivity.
      - intros k resp items nx Hk Hn Ho Hj. exfalso.
        assert (k = fetches w) by lia. subst k. eapply X0; eauto.
      - discriminate.
      - intros k e' Hk Hb. assert (k = fetches w) by lia. subst k.
        split; [lia | congruence]. }
  assert (BF : batch_failure (network w (fetches w)) = None).
  { unfold batch_failure. rewrite N0, K0, J0. reflexivity. }
  assert (PT : page_tweets (network w (fetches w)) = fst (push_batch batch [])).
  { unfold page_tweets. rewrite N0, K0, J0. reflexivity. }
  assert (Hsame : forall k resp items nx,
             k = fetches w -> network w k = Responded resp ->
             json resp = inr (PageJson items nx) -> batch = PageJson items nx).
  { intros k resp items nx -> Hn Hj. rewrite N0 in Hn. injection Hn as <-. congruence. }
  assert (Hfirst : forall evs, advances w1 w' evs ->
             fetch_calls (trace w') !! fetches w
             = Some (url, batch_request token query fromDate maxResults next)).
  { intros evs A. rewrite (advances_calls _ _ _ A), L1.
    rewrite lookup_app_l by (rewrite length_app; unfold fetches; simpl; lia).
    rewrite lookup_app_r by (unfold fetches; lia).
    unfold fetches. rewrite Nat.sub_diag. reflexivity. }
  rewrite push_batch_app in H.
  destruct (snd (push_batch batch [])) as [e|[]] eqn:P.
  - injection H as <- <- <-. exists evs1. split; [exact A1|]. split; [lia|].
    split; [|split; [|split; [|split]]].
    + rewrite outcomes_cons, F1 by lia.
      replace (fetches w + 1)%nat with (S (fetches w)) by lia.
      rewrite outcomes_nil. cbn [flat_map]. rewrite PT, !app_nil_r. reflexivity.
    + apply (Hfirst []), advances_refl.
    + intros k resp items nx Hk Hn Ho Hj.
      assert (Ek : k = fetches w) by lia.
      pose proof (Hsame k resp items nx Ek Hn Hj) as ->. simpl in P.
      split; [intros _; lia | intros _ Hp; congruence].
    + discriminate.
    + intros k e' Hk Hb. assert (k = fetches w) by lia. subst k. congruence.
  - destruct (rateLimiter_advances 3 w1) as (evs2 & A2 & C2).
    pose proof (advances_fetches _ _ _ A2) as F2. rewrite C2 in F2. cbn [length] in F2.
    pose proof (advances_trans _ _ _ _ _ A1 A2) as A12.
    destruct (truthy (next_of batch)) eqn:T.
    + apply IH in H as (evs3 & A3 & Lt & Tw & First & Chain & Ok & Fail).
      pose proof (proj1 A12) as N12.
      assert (F12 : fetches (snd (rateLimiter 3 w1)) = S (fetches w)) by lia.
      rewrite F12 in *.
      exists ((evs1 ++ evs2) ++ evs3). split; [eapply advances_trans; eauto|].
      split; [lia|]. split; [|split; [|split; [|split]]].
      * rewrite Tw, (outcomes_cons w (fetches w)) by lia. cbn [flat_map].
        rewrite PT, (outcomes_network w _ _ _ N12), <- app_assoc. reflexivity.
      * apply (Hfirst (evs2 ++ evs3)). eapply advances_trans; eauto.
      * intros k resp items nx Hk Hn Ho Hj.
        destruct (Nat.eq_dec k (fetches w)) as [Ek|Nk].
        -- pose proof (Hsame k resp items nx Ek Hn Hj) as ->. simpl in T.
           split; [congruence|]. intros _ _. subst k. exact First.
        -- apply (Chain k resp items nx); auto; [lia | rewrite N12; exact Hn].
      * intros -> k Hk.
        destruct (Nat.eq_dec k (fetches w)) as [Ek|Nk].
        -- subst k. destruct batch as [t|items nx]; [discriminate|].
           exists r0, items, nx. auto.
        -- rewrite <- N12. apply Ok; auto. lia.
      * intros k e' Hk Hb.
        destruct (Nat.eq_dec k (fetches w)) as [Ek|Nk]; [subst k; congruence|].
        apply (Fail k e'); [lia | rewrite N12; exact Hb].
    + assert (Ew : w' = snd (rateLimiter 3 w1)) by congruence.
      assert (Er : r = inr tt) by congruence.
      assert (Et : tweets' = tweets ++ fst (push_batch batch [])) by congruence.
      clear H. subst w' r tweets'.
      exists (evs1 ++ evs2). split; [exact A12|].
      split; [lia|]. split; [|split; [|split; [|split]]].
      * rewrite outcomes_cons, F2, F1 by lia.
        replace (fetches w + 1 + 0)%nat with (S (fetches w)) by lia.
        rewrite outcomes_nil. cbn [flat_map]. rewrite PT, !app_nil_r. reflexivity.
      * apply (Hfirst evs2). exact A2.
      * intros k resp items nx Hk Hn Ho Hj.
        assert (Ek : k = fetches w) by lia.
        pose proof (Hsame k resp items nx Ek Hn Hj) as ->. simpl in T.
        split; [intros _; lia | congruence].
      * intros _ k Hk. assert (k = fetches w) by lia. subst k.
        destruct batch as [t|items nx]; [discriminate|].
        exists r0, items, nx. auto.
      * intros k e' Hk Hb. assert (k = fetches w) by lia. subst k. congruence.
Qed.

(** ** The search *)

Lemma getTwitterToken_run (url : jsstring) (w : World) :
  let w1 := emit (EFetch url (token_request (basic_credentials w)))
              (emit (EDebug (lit " getTwitterToken - url:" ++ url)) w) in
  let failed (e : exn) : (exn + jsvalue) * World :=
    (inl e, emit (EError (token_error_line url e)) w1) in
  getTwitterToken url w =
    match network w (fetches w) with
    | Rejected e => failed e
    | Responded r =>
        if ok r then
          match json r with
          | inl e => failed e
          | inr j => (inr (access_token_of j), w1)
          end
        else failed (JsError (lit "response status: " ++ decimal (Z.of_N (status r))))
    end.
Proof.
  unfold getTwitterToken, bind, try_catch, console_debug, fetch, throw, lift, console_error, ret.
  rewrite fetches_emit. cbn [network emit basic_credentials].
  fold (token_request (basic_credentials w)).
  destruct (network w (fetches w)) as [e|r]; [reflexivity|].
  destruct (ok r); [|reflexivity].
  destruct (json r); reflexivity.
Qed.

Lemma getTwitterToken_advances (url : jsstring) (w : World) :
  exists evs,
    advances w (snd (getTwitterToken url w)) evs /\
    fetch_calls evs = [(url, token_request (basic_credentials w))] /\
    (forall e, fst (getTwitterToken url w) = inl e ->
               last evs = Some (EError (token_error_line url e))) /\
    (forall token, fst (getTwitterToken url w) = inr token ->
                   token = token_of (network w (fetches w))) /\
    (forall e, fst (getTwitterToken url w) = inl e ->
               batch_failure (network w (fetches w)) <> None).
Proof.
  rewrite getTwitterToken_run. unfold token_of, batch_failure.
  set (d := EDebug _). set (f := EFetch _ _).
  assert (H2 : advances w (emit f (emit d w)) ([d] ++ [f])).
  { eapply advances_trans; apply advances_emit; reflexivity. }
  assert (H3 : forall e, advances w (emit (EError (token_error_line url e)) (emit f (emit d w)))
                           (([d] ++ [f]) ++ [EError (token_error_line url e)])).
  { intros e. eapply advances_trans; [exact H2 | apply advances_emit; reflexivity]. }
  destruct (network w (fetches w)) as [e|r];
    [|destruct (ok r); [destruct (json r) as [e|j]|]]; cbn [fst snd];
    eexists; (split; [first [apply H3 | apply H2] |]);
    (split; [reflexivity|]); (split; [intros e' [= <-]; reflexivity || discriminate | ]);
    (split; [intros t E; try discriminate; congruence | intros e' E; discriminate]).
Qed.

Lemma search_unfold (fuel : nat) (url query : jsstring) (fromDate maxResults : jsvalue)
    (w : World) :
  search fuel url query fromDate maxResults w =
    match search_try fuel url query fromDate maxResults
            (emit (EDebug (lit " search - url:" ++ url ++ lit ", query:" ++ query)) w) with
    | None => None
    | Some (tweets, outcome, w1) =>
        Some (outcome,
              written tweets
                match outcome with
                | inl err => emit (EError (search_error_line url query err)) w1
                | inr _ => w1
                end)
    end.
Proof.
  unfold search. cbn [console_debug snd].
  destruct (search_try _ _ _ _ _ _) as [[[tweets outcome] w1]|]; [|reflexivity].
  destruct outcome; reflexivity.
Qed.

Lemma search_try_unfold (fuel : nat) (url query : jsstring) (fromDate maxResults : jsvalue)
    (w : World) :
  search_try fuel url query fromDate maxResults w =
    match fst (getTwitterToken AUTH_URL w) with
    | inl e => Some ([], inl e, snd (getTwitterToken AUTH_URL w))
    | inr token =>
        match do_while fuel token url query fromDate maxResults JNull []
                (snd (getTwitterToken AUTH_URL w)) with
        | None => None
        | Some (tweets, inl e, w2) => Some (tweets, inl e, w2)
        | Some (tweets, inr _, w2) => Some (tweets, inr (Z.of_nat (length tweets)), w2)
        end
    end.
Proof.
  unfold search_try. destruct (getTwitterToken AUTH_URL w) as [[e|token] w1]; reflexivity.
Qed.

(** What a finished run of [search] has done. *)
Lemma search_spec (fuel : nat) (url query : jsstring) (fromDate maxResults : jsvalue)
    (w : World) (r : exn + Z) (w' : World) :
  search fuel url query fromDate maxResults w = Some (r, w') ->
  let tweets := flat_map page_tweets (outcomes w (S (fetches w)) (fetches w')) in
  let token := token_of (network w (fetches w)) in
  exists evs,
    network w' = network w /\
    trace w' = trace w ++ evs ++ [EWriteFile OUTFILE (tweets_text tweets)] /\
    Forall (fun ev => is_write ev = false) evs /\
    files w' = <[OUTFILE := to_well_formed (tweets_text tweets)]> (files w) /\
    (fetches w < fetches w')%nat /\
    (forall n, r = inr n ->
       n = Z.of_nat (length tweets) /\
       forall k, (S (fetches w) <= k < fetches w')%nat ->
         exists resp items nx,
           network w k = Responded resp /\ ok resp = true /\
           json resp = inr (PageJson items nx) /\ snd (push_results items []) = inr tt) /\
    (forall e, r = inl e -> last evs = Some (EError (search_error_line url query e))) /\
    (forall k resp items nx,
       (S (fetches w) <= k < fetches w')%nat ->
       network w k = Responded resp -> ok resp = true ->
       json resp = inr (PageJson items nx) ->
       (truthy nx = false -> fetches w' = S k) /\
       (truthy nx = true -> snd (push_results items []) = inr tt ->
        fetch_calls (trace w') !! S k
          = Some (url, batch_request token query fromDate maxResults nx))) /\
    (forall k e, (S (fetches w) <= k < fetches w')%nat ->
       batch_failure (network w k) = Some e -> fetches w' = S k /\ r = inl e) /\
    (batch_failure (network w (fetches w)) = None -> (S (fetches w) < fetches w')%nat).
Proof.
  rewrite search_unfold, search_try_unfold. intros H.
  set (d := EDebug _) in H.
  assert (A0 : advances w (emit d w) [d]) by (apply advances_emit; reflexivity).
  assert (F0 : fetches (emit d w) = fetches w) by (rewrite fetches_emit; reflexivity).
  assert (N0 : network (emit d w) = network w) by reflexivity.
  destruct (getTwitterToken_advances AUTH_URL (emit d w)) as (evs1 & A1 & C1 & E1 & T1 & B1).
  pose proof (advances_fetches _ _ _ A1) as F1. rewrite C1 in F1. cbn [length] in F1.
  pose proof (advances_trans _ _ _ _ _ A0 A1) as A01.
  set (w1 := snd (getTwitterToken AUTH_URL (emit d w))) in *.
  assert (Hwritten : forall tweets wc evs,
            advances w wc evs ->
            tweets = flat_map page_tweets (outcomes w (S (fetches w)) (fetches wc)) ->
            let w' := written tweets wc in
            network w' = network w /\
            trace w' = trace w ++ evs ++
              [EWriteFile OUTFILE
                 (tweets_text (flat_map page_tweets (outcomes w (S (fetches w)) (fetches w'))))] /\
            Forall (fun ev => is_write ev = false) evs /\
            files w' = <[OUTFILE := to_well_formed
               (tweets_text (flat_map page_tweets (outcomes w (S (fetches w)) (fetches w'))))]>
               (files w) /\
            fetches w' = fetches wc /\
            fetch_calls (trace w') = fetch_calls (trace wc)).
  { intros tweets wc evs (N & B & F & T & Q) Etw w2.
    assert (Fw : fetches w2 = fetches wc).
    { unfold fetches, w2, written. cbn [trace]. rewrite fetch_calls_app. simpl.
      rewrite app_nil_r. reflexivity. }
    rewrite Fw, <- Etw. unfold w2, written. cbn [network trace files].
    repeat split; auto.
    - rewrite T, app_assoc. reflexivity.
    - rewrite F. reflexivity.
    - rewrite fetch_calls_app. simpl. apply app_nil_r. }
  rewrite F0 in *.
  destruct (fst (getTwitterToken AUTH_URL (emit d w))) as [e|token] eqn:G.
  - injection H as <- <-.
    set (wc := emit (EError (search_error_line url query e)) w1).
    assert (Ac : advances w wc (([d] ++ evs1) ++ [EError (search_error_line url query e)])).
    { eapply advances_trans; [exact A01 | apply advances_emit; reflexivity]. }
    assert (Fc : fetches wc = S (fetches w)).
    { unfold wc. rewrite fetches_emit. lia. }
    destruct (Hwritten [] wc _ Ac) as (P1 & P2 & P3 & P4 & P5 & P6).
    { rewrite Fc, outcomes_nil. reflexivity. }
    intros tweets token. eexists. split; [exact P1|]. split; [exact P2|].
    split; [exact P3|]. split; [exact P4|]. split; [lia|].
    split; [discriminate|]. split; [|split; [|split]].
    + intros e' [= <-]. apply last_snoc.
    + intros k resp items nx Hk. lia.
    + intros k e' Hk. lia.
    + intros Hb. exfalso. apply (B1 e eq_refl). rewrite N0. exact Hb.
  - pose proof (T1 token eq_refl) as Etok. rewrite ?N0, ?F0 in Etok.
    destruct (do_while fuel token url query fromDate maxResults JNull [] w1)
      as [[[tweets' rr] w2]|] eqn:D; [|discriminate].
    apply do_while_spec in D as (evs2 & A2 & Lt & Tw & First & Chain & Ok & Fail).
    pose proof (advances_trans _ _ _ _ _ A01 A2) as A02.
    assert (N1 : network w1 = network w) by apply A01.
    assert (F1' : fetches w1 = S (fetches w)) by lia.
    rewrite F1' in *. rewrite (outcomes_network w _ _ _ N1) in Tw. simpl in Tw.
    destruct rr as [e|[]].
    + injection H as <- <-.
      set (wc := emit (EError (search_error_line url query e)) w2).
      assert (Ac : advances w wc
                     ((([d] ++ evs1) ++ evs2) ++ [EError (search_error_line url query e)])).
      { eapply advances_trans; [exact A02 | apply advances_emit; reflexivity]. }
      assert (Fc : fetches wc = fetches w2).
      { unfold wc. rewrite fetches_emit. reflexivity. }
      assert (Cc : fetch_calls (trace wc) = fetch_calls (trace w2)).
      { unfold wc, emit. cbn [trace]. rewrite fetch_calls_app. apply app_nil_r. }
      destruct (Hwritten tweets' wc _ Ac) as (P1 & P2 & P3 & P4 & P5 & P6).
      { rewrite Fc. exact Tw. }
      intros tweets tok. eexists. split; [exact P1|]. split; [exact P2|].
      split; [exact P3|]. split; [exact P4|]. split; [lia|].
      split; [discriminate|]. split; [|split; [|split]].
      * intros e' [= <-]. apply last_snoc.
      * intros k resp items nx Hk Hn Ho Hj. rewrite P5, Fc, P6, Cc in *.
        unfold tok. rewrite <- Etok. apply (Chain k resp items nx); auto.
        rewrite N1. exact Hn.
      * intros k e' Hk Hb. rewrite P5, Fc in *.
        destruct (Fail k e') as [Hf He]; [lia | rewrite N1; exact Hb |].
        split; [exact Hf | congruence].
      * intros _. lia.
    + injection H as <- <-.
      destruct (Hwritten tweets' w2 _ A02) as (P1 & P2 & P3 & P4 & P5 & P6); [exact Tw|].
      intros tweets tok. eexists. split; [exact P1|]. split; [exact P2|].
      split; [exact P3|]. split; [exact P4|]. split; [lia|].
      split; [|split; [discriminate|split; [|split]]].
      * intros n [= <-]. rewrite P5 in *. split.
        -- unfold tweets. rewrite P5, <- Tw. reflexivity.
        -- intros k Hk. rewrite <- N1. apply Ok; auto.
      * intros k resp items nx Hk Hn Ho Hj. rewrite P5, P6 in *.
        unfold tok. rewrite <- Etok. apply (Chain k resp items nx); auto.
        rewrite N1. exact Hn.
      * intros k e' Hk Hb. rewrite P5 in *.
        destruct (Fail k e') as [_ Hr]; [lia | rewrite N1; exact Hb | discriminate].
      * intros _. lia.
Qed.
(** ** The text of the result file *)

Lemma jsvalue_nested_ind (P : jsvalue -> Prop) :
  P JUndefined -> P JNull -> (forall b, P (JBool b)) -> (forall n, P (JNum n)) ->
  (forall s, P (JStr s)) ->
  (forall items, Forall P items -> P (JArr items)) ->
  (forall fields, Forall (fun kv => P (snd kv)) fields -> P (JObj fields)) ->
  forall v, P v.
Proof.
  intros HU HN HB HZ HS HA HO.
  fix IH 1. intros [| |b|n|s|items|fields];
    [exact HU | exact HN | apply HB | apply HZ | apply HS | |].
  - apply HA. induction items as [|x items IHl]; constructor; [apply IH | exact IHl].
  - apply HO. induction fields as [|[k x] fields IHl]; constructor; [apply IH | exact IHl].
Qed.

Lemma well_formed_cons (c : N) (r : jsstring) :
  is_high_surrogate c = false -> is_low_surrogate c = false ->
  well_formed (c :: r) = well_formed r.
Proof. intros H1 H2. simpl. rewrite H1, H2. reflexivity. Qed.

Lemma to_well_formed_fix (s : jsstring) : well_formed s = true -> to_well_formed s = s.
Proof.
  induction s as [| c | c d r IH1 IH2] using list_pair_ind; intros H.
  - reflexivity.
  - simpl in *. destruct (is_high_surrogate c); [discriminate|].
    destruct (is_low_surrogate c); [discriminate | reflexivity].
  - change (well_formed (c :: d :: r)) with
      (if is_high_surrogate c then is_low_surrogate d && well_formed r
       else negb (is_low_surrogate c) && well_formed (d :: r)) in H.
    change (to_well_formed (c :: d :: r)) with
      (if is_high_surrogate c then
         (if is_low_surrogate d then c :: d :: to_well_formed r
          else 65533 :: to_well_formed (d :: r))
       else if is_low_surrogate c then 65533 :: to_well_formed (d :: r)
       else c :: to_well_formed (d :: r)).
    destruct (is_high_surrogate c).
    + apply andb_prop in H as [H1 H2]. rewrite H1, (IH1 H2). reflexivity.
    + apply andb_prop in H as [H1 H2]. apply negb_true_iff in H1.
      rewrite H1, (IH2 H2). reflexivity.
Qed.

Lemma well_formed_app (a b : jsstring) :
  well_formed a = true -> well_formed b = true -> well_formed (a ++ b) = true.
Proof.
  intros Ha Hb. induction a as [| c | c d r IH1 IH2] using list_pair_ind.
  - exact Hb.
  - simpl in *. destruct (is_high_surrogate c); [discriminate|].
    apply andb_prop in Ha as [H1 _]. rewrite H1. exact Hb.
  - change (well_formed (c :: d :: r)) with
      (if is_high_surrogate c then is_low_surrogate d && well_formed r
       else negb (is_low_surrogate c) && well_formed (d :: r)) in Ha.
    change (well_formed ((c :: d :: r) ++ b)) with
      (if is_high_surrogate c then is_low_surrogate d && well_formed (r ++ b)
       else negb (is_low_surrogate c) && well_formed ((d :: r) ++ b)).
    destruct (is_high_surrogate c); apply andb_prop in Ha as [H1 H2]; rewrite H1; simpl; auto.
Qed.

Lemma well_formed_plain (s : jsstring) :
  Forall (fun c => c < 55296) s -> well_formed s = true.
Proof.
  induction 1 as [|c r Hc _ IH]; [reflexivity|].
  rewrite well_formed_cons; [exact IH | |].
  - unfold is_high_surrogate. apply andb_false_intro1. apply N.leb_gt. exact Hc.
  - unfold is_low_surrogate. apply andb_false_intro1. apply N.leb_gt. lia.
Qed.

Lemma well_formed_lit (s : string) : well_formed (lit s) = true.
Proof.
  apply well_formed_plain. unfold lit. apply Forall_map.
  apply Forall_forall. intros a _. simpl.
  pose proof (N_ascii_bounded a). lia.
Qed.

Lemma hex_digit_small (d : N) : d < 16 -> hex_digit d < 55296.
Proof. unfold hex_digit. intros H. destruct (d <? 10); lia. Qed.

Lemma well_formed_unicode_escape (c : N) : well_formed (unicode_escape c) = true.
Proof.
  apply well_formed_plain. unfold unicode_escape.
  repeat constructor; try apply hex_digit_small; try apply N.mod_lt; lia.
Qed.

Lemma well_formed_quote_unit (c : N) : well_formed (quote_unit c) = true.
Proof.
  unfold quote_unit.
  repeat (match goal with |- context [if ?b then _ else _] => destruct b eqn:? end;
          [first [reflexivity | apply well_formed_unicode_escape] |]).
  apply orb_false_elim in Heqb6 as [H H3]. apply orb_false_elim in H as [H1 H2].
  simpl. rewrite H2, H3. reflexivity.
Qed.

Lemma well_formed_quote_body (s : jsstring) : well_formed (quote_body s) = true.
Proof.
  induction s as [| c | c d r IH1 IH2] using list_pair_ind.
  - reflexivity.
  - simpl. destruct (is_high_surrogate c).
    + apply well_formed_unicode_escape.
    + rewrite app_nil_r. apply well_formed_quote_unit.
  - change (quote_body (c :: d :: r)) with
      (if is_high_surrogate c then
         (if is_low_surrogate d then c :: d :: quote_body r
          else unicode_escape c ++ quote_body (d :: r))
       else quote_unit c ++ quote_body (d :: r)).
    destruct (is_high_surrogate c) eqn:Hc.
    + destruct (is_low_surrogate d) eqn:Hd.
      * simpl. rewrite Hc, Hd. exact IH1.
      * apply well_formed_app; [apply well_formed_unicode_escape | exact IH2].
    + apply well_formed_app; [apply well_formed_quote_unit | exact IH2].
Qed.

Lemma well_formed_quote (s : jsstring) : well_formed (quote s) = true.
Proof.
  unfold quote. repeat apply well_formed_app; auto using well_formed_quote_body.
Qed.

Lemma well_formed_join (sep : jsstring) (parts : list jsstring) :
  well_formed sep = true -> Forall (fun p => well_formed p = true) parts ->
  well_formed (join sep parts) = true.
Proof.
  intros Hs. induction 1 as [|p rest Hp Hr IH]; [reflexivity|].
  destruct rest as [|q rest]; [exact Hp|].
  change (join sep (p :: q :: rest)) with (p ++ sep ++ join sep (q :: rest)).
  repeat apply well_formed_app; auto.
Qed.

Lemma well_formed_wrap (opening closing : N) (gap indent : jsstring)
    (partial : list jsstring) :
  opening < 55296 -> closing < 55296 ->
  well_formed gap = true -> well_formed indent = true ->
  Forall (fun p => well_formed p = true) partial ->
  well_formed (wrap opening closing gap indent partial) = true.
Proof.
  intros Ho Hc Hg Hi Hp.
  assert (O : well_formed [opening] = true) by (apply well_formed_plain; repeat constructor; auto).
  assert (C : well_formed [closing] = true) by (apply well_formed_plain; repeat constructor; auto).
  unfold wrap. destruct partial as [|p rest].
  - apply well_formed_plain. repeat constructor; auto.
  - destruct gap as [|g gap].
    + repeat apply well_formed_app; auto. apply well_formed_join; auto.
    + repeat apply well_formed_app; auto.
      apply well_formed_join; auto. repeat apply well_formed_app; auto.
Qed.

Lemma well_formed_serialize (v : jsvalue) :
  forall gap indent, well_formed gap = true -> well_formed indent = true ->
                     well_formed (serialize gap indent v) = true.
Proof.
  induction v as [| |b|n|s|items IH|fields IH] using jsvalue_nested_ind;
    intros gap indent Hg Hi.
  - apply well_formed_lit.
  - apply well_formed_lit.
  - destruct b; apply well_formed_lit.
  - apply well_formed_lit.
  - apply well_formed_quote.
  - simpl. apply well_formed_wrap; try lia; auto.
    induction IH as [|x rest Hx _ IHl]; constructor; [|exact IHl].
    apply Hx; [exact Hg | apply well_formed_app; assumption].
  - simpl. apply well_formed_wrap; try lia; auto.
    induction IH as [|[k x] rest Hx _ IHl]; [constructor|].
    assert (Hm : well_formed (quote k ++ [58] ++ match gap with [] => [] | _ => [SPACE] end
                                ++ serialize gap (indent ++ gap) x) = true).
    { apply well_formed_app; [apply well_formed_quote|].
      apply well_formed_app; [reflexivity|].
      apply well_formed_app; [destruct gap; reflexivity|].
      apply Hx; [exact Hg | apply well_formed_app; assumption]. }
    destruct x; try (constructor; [exact Hm | exact IHl]). exact IHl.
Qed.

(** The JSON text of the tweets is well formed: the file holds it as it is. *)
Lemma tweets_text_stored (tweets : list jsvalue) :
  to_well_formed (tweets_text tweets) = tweets_text tweets.
Proof.
  apply to_well_formed_fix, well_formed_serialize; reflexivity.
Qed.
(** ** The calls of [fetch] of a run *)

(** The loop calls [fetch] once per page: first with the cursor it starts
    from, then with the cursor of each page it has received. *)
Lemma do_while_calls (token : jsvalue) (url query : jsstring) (fromDate maxResults : jsvalue)
    (fuel : nat) :
  forall (next : jsvalue) (tweets : list jsvalue) (w : World)
         (tweets' : list jsvalue) (r : exn + unit) (w' : World),
  do_while fuel token url query fromDate maxResults next tweets w = Some (tweets', r, w') ->
  fetch_calls (trace w')
  = fetch_calls (trace w)
      ++ map (fun c => (url, batch_request token query fromDate maxResults c))
           (next :: map cursor_of (outcomes w (fetches w) (pred (fetches w')))).
Proof.
  induction fuel as [|fuel IH]; intros next tweets w tweets' r w' H; [discriminate|].
  cbn [do_while] in H.
  destruct (getTweetBatch_advances token url query fromDate maxResults next w)
    as (evs1 & A1 & C1).
  pose proof (advances_fetches _ _ _ A1) as F1. rewrite C1 in F1. cbn [length] in F1.
  pose proof (advances_calls _ _ _ A1) as L1. rewrite C1 in L1.
  assert (Hstop : forall w2 evs, advances (snd (getTweetBatch token url query fromDate
                                                  maxResults next w)) w2 evs ->
            fetch_calls evs = [] ->
            fetch_calls (trace w2)
            = fetch_calls (trace w)
                ++ map (fun c => (url, batch_request token query fromDate maxResults c))
                     (next :: map cursor_of (outcomes w (fetches w) (pred (fetches w2))))).
  { intros w2 evs A2 C2.
    pose proof (advances_fetches _ _ _ A2) as F2. rewrite C2 in F2. cbn [length] in F2.
    rewrite (advances_calls _ _ _ A2), C2, app_nil_r, L1.
    replace (pred (fetches w2)) with (fetches w) by lia.
    rewrite outcomes_nil. reflexivity. }
  destruct (getTweetBatch_cases token url query fromDate maxResults next w)
    as [(r0 & batch & G & N0 & K0 & J0) | (e & G & _)];
    destruct (getTweetBatch token url query fromDate maxResults next w) as [res w1];
    cbn [fst snd] in *; subst res.
  2:{ assert (Ew : w' = w1) by congruence. subst w'.
      apply (Hstop w1 []); [apply advances_refl | reflexivity]. }
  destruct (push_batch batch tweets) as [tw' [e|u]].
  - assert (Ew : w' = w1) by congruence. subst w'.
    apply (Hstop w1 []); [apply advances_refl | reflexivity].
  - destruct (rateLimiter_advances 3 w1) as (evs2 & A2 & C2).
    destruct (truthy (next_of batch)).
    + pose proof (advances_fetches _ _ _ A2) as F2. rewrite C2 in F2. cbn [length] in F2.
      pose proof (do_while_spec _ _ _ _ _ _ _ _ _ _ _ _ H) as (_ & _ & Lt & _).
      apply IH in H. rewrite H, (advances_calls _ _ _ A2), C2, app_nil_r, L1.
      rewrite <- app_assoc. f_equal. cbn [app map]. f_equal.
      rewrite (outcomes_cons w (fetches w)) by lia. cbn [map].
      assert (Ec : cursor_of (network w (fetches w)) = next_of batch).
      { unfold cursor_of. rewrite N0, J0. reflexivity. }
      rewrite Ec. do 3 f_equal.
      replace (fetches (snd (rateLimiter 3 w1))) with (S (fetches w)) by lia.
      apply outcomes_network. rewrite (proj1 A2). apply A1.
    + assert (Ew : w' = snd (rateLimiter 3 w1)) by congruence. subst w'.
      apply (Hstop _ evs2); assumption.
Qed.

(** The calls of [fetch] of a whole run that got its token: the token
    request, then one request per page, each with the cursor of the page
    before it, the first with [null]. *)
Lemma search_calls (fuel : nat) (url query : jsstring) (fromDate maxResults : jsvalue)
    (w : World) (r : exn + Z) (w' : World) :
  search fuel url query fromDate maxResults w = Some (r, w') ->
  (S (fetches w) < fetches w')%nat ->
  fetch_calls (trace w')
  = fetch_calls (trace w)
      ++ (AUTH_URL, token_request (basic_credentials w))
      :: map (fun c => (url, batch_request (token_of (network w (fetches w))) query
                               fromDate maxResults c))
           (JNull :: map cursor_of (outcomes w (S (fetches w)) (pred (fetches w')))).
Proof.
  rewrite search_unfold, search_try_unfold. intros H Hlt.
  set (w0 := emit (EDebug _) w) in H.
  assert (F0 : fetches w0 = fetches w) by (unfold w0; rewrite fetches_emit; reflexivity).
  assert (C0 : fetch_calls (trace w0) = fetch_calls (trace w)).
  { unfold w0, emit. cbn [trace]. rewrite fetch_calls_app. apply app_nil_r. }
  destruct (getTwitterToken_advances AUTH_URL w0) as (evs1 & A1 & C1 & _ & T1 & _).
  pose proof (advances_fetches _ _ _ A1) as F1. rewrite C1, F0 in F1. cbn [length] in F1.
  pose proof (advances_calls _ _ _ A1) as L1. rewrite C1, C0 in L1.
  assert (Hw : forall tweets wc, fetch_calls (trace (written tweets wc)) = fetch_calls (trace wc)).
  { intros tweets wc. unfold written. cbn [trace]. rewrite fetch_calls_app. apply app_nil_r. }
  assert (He : forall e wc, fetch_calls (trace (emit (EError e) wc)) = fetch_calls (trace wc)).
  { intros e wc. unfold emit. cbn [trace]. rewrite fetch_calls_app. apply app_nil_r. }
  destruct (fst (getTwitterToken AUTH_URL w0)) as [e|token] eqn:G.
  - exfalso. injection H as <- <-. unfold fetches in Hlt at 2.
    rewrite Hw, He in Hlt. fold (fetches (snd (getTwitterToken AUTH_URL w0))) in Hlt. lia.
  - pose proof (T1 token eq_refl) as Etok. rewrite F0 in Etok. cbn [network w0 emit] in Etok.
    destruct (do_while fuel token url query fromDate maxResults JNull []
                (snd (getTwitterToken AUTH_URL w0))) as [[[tweets' rr] w2]|] eqn:D;
      [|discriminate].
    apply do_while_calls in D.
    assert (Ew : fetch_calls (trace w') = fetch_calls (trace w2)).
    { destruct rr as [e|u]; injection H as <- <-; rewrite Hw, ?He; reflexivity. }
    assert (Fw : fetches w' = fetches w2) by (unfold fetches; rewrite Ew; reflexivity).
    rewrite Ew, D, L1, <- app_assoc, Fw, F1, <- Etok. cbn [app]. do 4 f_equal.
    replace (fetches w + 1)%nat with (S (fetches w)) by lia. f_equal.
    apply outcomes_network. rewrite (proj1 A1). reflexivity.
Qed.

(** ** The claims about the run *)

(** C1.  In every run of [search] that ends, with a count or with an
    exception from the token request, a page request or the normalizer, the
    tweets pushed so far are written to the result file exactly once, and
    the write is the last thing the run does (after the error line, when
    there is one): the caller gets the exception with the file already
    written.  In particular, when the token and page 1 arrive, page 1 has a
    cursor and its items are all normalized, and the request for page 2
    fails, the run ends with that failure and the file holds the tweets of
    page 1. *)
Theorem results_written_once_at_the_end (fuel : nat) (url query : jsstring)
    (fromDate maxResults : jsvalue) (w : World) (r : exn + Z) (w' : World) :
  search fuel url query fromDate maxResults w = Some (r, w') ->
  let tweets := flat_map page_tweets (outcomes w (S (fetches w)) (fetches w')) in
  (exists evs,
     trace w' = trace w ++ evs ++ [EWriteFile OUTFILE (tweets_text tweets)] /\
     Forall (fun ev => is_write ev = false) evs /\
     forall e, r = inl e -> last evs = Some (EError (search_error_line url query e))) /\
  JSON_stringify (JArr tweets) 4 = Some (tweets_text tweets) /\
  files w' = <[OUTFILE := tweets_text tweets]> (files w) /\
  (forall page1 items nx e,
     batch_failure (network w (fetches w)) = None ->
     network w (S (fetches w)) = Responded page1 -> ok page1 = true ->
     json page1 = inr (PageJson items nx) -> truthy nx = true ->
     snd (push_results items []) = inr tt ->
     batch_failure (network w (S (S (fetches w)))) = Some e ->
     r = inl e /\ tweets = fst (push_results items [])).
Proof.
  intros H tweets.
  destruct (search_spec _ _ _ _ _ _ _ _ H)
    as (evs & _ & T & Q & F & Lt & _ & E & Chain & Fail & Tok).
  fold tweets in T, F. rewrite tweets_text_stored in F.
  split; [exists evs; auto|]. split; [reflexivity|]. split; [exact F|].
  intros page1 items nx e Htok Hn Ho Hj Ht Hp Hf.
  specialize (Tok Htok).
  destruct (Chain (S (fetches w)) page1 items nx ltac:(lia) Hn Ho Hj) as [_ Hnext].
  specialize (Hnext Ht Hp). apply lookup_lt_Some in Hnext. fold (fetches w') in Hnext.
  destruct (Fail (S (S (fetches w))) e ltac:(lia) Hf) as [Hlast Hr].
  split; [exact Hr|]. unfold tweets. rewrite Hlast.
  rewrite outcomes_cons by lia. rewrite outcomes_cons by lia. rewrite outcomes_nil.
  cbn [flat_map]. unfold page_tweets at 1. rewrite Hn, Ho, Hj. cbn [push_batch].
  assert (Hnone : page_tweets (network w (S (S (fetches w)))) = []).
  { unfold page_tweets, batch_failure in *.
    destruct (network w (S (S (fetches w)))) as [|r2]; [reflexivity|].
    destruct (ok r2); [|reflexivity]. destruct (json r2); [reflexivity | discriminate]. }
  rewrite Hnone, !app_nil_r. reflexivity.
Qed.

Lemma results_written_once_at_the_end_witness :
  exists w',
    search 3 sample_url sample_query sample_fromDate (JNum 100) line_drops_world
      = Some (inl connection_refused, w') /\
    flat_map page_tweets (outcomes line_drops_world 1 (fetches w')) = [long_tweet; hello_tweet] /\
    files w' !! OUTFILE = Some (tweets_text [long_tweet; hello_tweet]) /\
    last (trace w') = Some (EWriteFile OUTFILE (tweets_text [long_tweet; hello_tweet])).
Proof.
  eexists. split; [vm_compute; reflexivity|].
  match goal with
  | |- flat_map _ (outcomes _ _ (fetches ?w1)) = _ /\ _ =>
      pose proof (results_written_once_at_the_end 3 sample_url sample_query sample_fromDate
                    (JNum 100) line_drops_world (inl connection_refused) w1 eq_refl)
        as (_ & _ & F & S)
  end.
  destruct (S {| status := 200;
                 json := inr (PageJson [JObj long_item_fields; hello_item] (JStr (lit "abc"))) |}
              [JObj long_item_fields; hello_item] (JStr (lit "abc")) connection_refused)
    as [Hr Ht]; try reflexivity.
  split; [exact Ht|]. split.
  - rewrite F, Ht. apply lookup_insert_eq.
  - vm_compute. reflexivity.
Defined.

Lemma push_results_length (items : list jsvalue) :
  snd (push_results items []) = inr tt ->
  length (fst (push_results items [])) = length items.
Proof.
  induction items as [|item rest IH]; [reflexivity|]. simpl.
  destruct (normalize item) as [e|tweet]; [discriminate|].
  rewrite push_results_app. cbn [fst snd]. intros H.
  rewrite length_app, IH by exact H. reflexivity.
Qed.

(** C2.  A page without a cursor ([next] missing or falsy) ends the loop:
    the loop returns right after processing it, whatever bound is left, and
    in a whole run of [search] the request that returned such a page is the
    last call of [fetch]. *)
Theorem last_page_ends_the_loop :
  (forall fuel token url query fromDate maxResults next tweets w page items nx,
     network w (fetches w) = Responded page -> ok page = true ->
     json page = inr (PageJson items nx) -> truthy nx = false ->
     exists w',
       do_while (S fuel) token url query fromDate maxResults next tweets w
         = Some (tweets ++ fst (push_results items []), snd (push_results items []), w') /\
       fetches w' = S (fetches w)) /\
  (forall fuel url query fromDate maxResults w r w' k page items nx,
     search fuel url query fromDate maxResults w = Some (r, w') ->
     (fetches w < k < fetches w')%nat ->
     network w k = Responded page -> ok page = true ->
     json page = inr (PageJson items nx) -> truthy nx = false ->
     length (fetch_calls (trace w')) = S k).
Proof.
  split.
  - intros fuel token url query fromDate maxResults next tweets w page items nx Hn Ho Hj Ht.
    cbn [do_while]. rewrite getTweetBatch_run, Hn, Ho, Hj. cbn [push_batch next_of].
    rewrite push_results_app, Ht.
    destruct (snd (push_results items [])) as [e|[]]; eexists; (split; [reflexivity|]).
    + rewrite !fetches_emit. reflexivity.
    + unfold rateLimiter, bind, console_debug. cbn [snd]. rewrite !fetches_emit. reflexivity.
  - intros fuel url query fromDate maxResults w r w' k page items nx H Hk Hn Ho Hj Ht.
    destruct (search_spec _ _ _ _ _ _ _ _ H)
      as (evs & _ & _ & _ & _ & _ & _ & _ & Chain & _).
    destruct (Chain k page items nx ltac:(lia) Hn Ho Hj) as [Hlast _].
    exact (Hlast Ht).
Qed.

Lemma last_page_ends_the_loop_witness :
  exists w',
    search 3 sample_url sample_query sample_fromDate (JNum 100) two_pages_world
      = Some (inr 3%Z, w') /\
    length (fetch_calls (trace w')) = 3%nat.
Proof.
  eexists. split; [vm_compute; reflexivity|].
  match goal with
  | |- length (fetch_calls (trace ?w1)) = _ =>
      apply (proj2 last_page_ends_the_loop 3%nat sample_url sample_query sample_fromDate
               (JNum 100) two_pages_world (inr 3%Z) w1 2%nat
               {| status := 200; json := inr (PageJson [reply_item] JUndefined) |}
               [reply_item] JUndefined)
  end; try reflexivity.
  vm_compute. split; lia.
Defined.

(** C3 (as the code has it).  After a page with a cursor all of whose items
    were normalized, the loop goes round again and calls [fetch] exactly
    once for it: the calls of the run are the token request and then one
    request per page, and the call that follows the one that returned the
    page is made for the same url with a body that carries the page's
    [next] value, unchanged, as its [next] field. *)
Theorem cursor_passed_to_next_fetch (fuel : nat) (url query : jsstring)
    (fromDate maxResults : jsvalue) (w : World) (r : exn + Z) (w' : World)
    (k : nat) (page : response) (items : list jsvalue) (nx : jsvalue) :
  search fuel url query fromDate maxResults w = Some (r, w') ->
  (fetches w < k < fetches w')%nat ->
  network w k = Responded page -> ok page = true ->
  json page = inr (PageJson items nx) -> truthy nx = true ->
  snd (push_results items []) = inr tt ->
  let sent := batch_request (token_of (network w (fetches w))) query fromDate maxResults nx in
  (S k < length (fetch_calls (trace w')))%nat /\
  fetch_calls (trace w') !! S k = Some (url, sent) /\
  body sent = JSON_stringify (JObj (request_body (JStr query) fromDate maxResults nx)) 0 /\
  lookup_field (lit "next") (request_body (JStr query) fromDate maxResults nx) = Some nx /\
  fetch_calls (trace w')
  = fetch_calls (trace w)
      ++ (AUTH_URL, token_request (basic_credentials w))
      :: map (fun c => (url, batch_request (token_of (network w (fetches w))) query
                               fromDate maxResults c))
           (JNull :: map cursor_of (outcomes w (S (fetches w)) (pred (fetches w')))).
Proof.
  intros H Hk Hn Ho Hj Ht Hp sent.
  destruct (search_spec _ _ _ _ _ _ _ _ H)
    as (evs & _ & _ & _ & _ & _ & _ & _ & Chain & _).
  destruct (Chain k page items nx ltac:(lia) Hn Ho Hj) as [_ Hnext].
  specialize (Hnext Ht Hp).
  split; [apply lookup_lt_Some in Hnext; exact Hnext|]. split; [exact Hnext|].
  split; [reflexivity|]. split.
  - unfold request_body. rewrite Ht. reflexivity.
  - apply (search_calls _ _ _ _ _ _ _ _ H). lia.
Qed.

Lemma cursor_passed_to_next_fetch_witness :
  exists w',
    search 3 sample_url sample_query sample_fromDate (JNum 100) two_pages_world
      = Some (inr 3%Z, w') /\
    fetch_calls (trace w') !! 2%nat
      = Some (sample_url,
              batch_request (JStr (lit "AAAAAAAA")) sample_query sample_fromDate (JNum 100)
                (JStr (lit "abc"))).
Proof.
  eexists. split; [vm_compute; reflexivity|].
  match goal with
  | |- fetch_calls (trace ?w1) !! _ = _ =>
      apply (cursor_passed_to_next_fetch 3%nat sample_url sample_query sample_fromDate
               (JNum 100) two_pages_world (inr 3%Z) w1 1%nat
               {| status := 200;
                  json := inr (PageJson [JObj long_item_fields; hello_item] (JStr (lit "abc"))) |}
               [JObj long_item_fields; hello_item] (JStr (lit "abc")))
  end; try reflexivity.
  vm_compute. split; lia.
Defined.

(** C3 as stated fails: page 1 has the cursor ["abc"], but its item has no
    [text]; the normalizer throws, the run ends, and [fetch] is not called
    again: two calls in all, the token request and the request for page 1. *)
Lemma loop_stops_on_bad_item :
  exists w',
    search 3 sample_url sample_query sample_fromDate (JNum 100) textless_world
      = Some (inl (JsTypeError (lit "trim")), w') /\
    network textless_world 1%nat
      = json_response (PageJson [textless_item] (JStr (lit "abc"))) /\
    truthy (JStr (lit "abc")) = true /\
    length (fetch_calls (trace w')) = 2%nat /\
    fetch_calls (trace w') !! 2%nat = None.
Proof.
  eexists. split; [vm_compute; reflexivity|]. repeat split; reflexivity.
Qed.

(** C4.  When [search] returns a count, the count is the number of tweets
    pushed over all the pages fetched, which is the length of the array
    written to the result file; every page fetched was a page of results
    and each of its items gave one tweet. *)
Theorem count_is_number_of_tweets (fuel : nat) (url query : jsstring)
    (fromDate maxResults : jsvalue) (w : World) (n : Z) (w' : World) :
  search fuel url query fromDate maxResults w = Some (inr n, w') ->
  let tweets := flat_map page_tweets (outcomes w (S (fetches w)) (fetches w')) in
  n = Z.of_nat (length tweets) /\
  JSON_stringify (JArr tweets) 4 = Some (tweets_text tweets) /\
  files w' !! OUTFILE = Some (tweets_text tweets) /\
  last (trace w') = Some (EWriteFile OUTFILE (tweets_text tweets)) /\
  (forall k, (S (fetches w) <= k < fetches w')%nat ->
     exists page items nx,
       network w k = Responded page /\ ok page = true /\
       json page = inr (PageJson items nx) /\
       length (page_tweets (network w k)) = length items).
Proof.
  intros H tweets.
  destruct (search_spec _ _ _ _ _ _ _ _ H)
    as (evs & _ & T & _ & F & _ & Ok & _).
  fold tweets in T, F. rewrite tweets_text_stored in F.
  destruct (Ok n eq_refl) as [Hn Hpages].
  split; [exact Hn|]. split; [reflexivity|]. split; [rewrite F; apply lookup_insert_eq|].
  split; [rewrite T, app_assoc; apply last_snoc|].
  intros k Hk. destruct (Hpages k Hk) as (page & items & nx & Hnet & Ho & Hj & Hp).
  exists page, items, nx. repeat split; auto.
  unfold page_tweets. rewrite Hnet, Ho, Hj. apply push_results_length, Hp.
Qed.

Lemma count_is_number_of_tweets_witness :
  exists w',
    search 3 sample_url sample_query sample_fromDate (JNum 100) two_pages_world
      = Some (inr 3%Z, w') /\
    3%Z = Z.of_nat (length (flat_map page_tweets (outcomes two_pages_world 1 (fetches w')))) /\
    files w' !! OUTFILE = Some (tweets_text [long_tweet; hello_tweet; reply_tweet]).
Proof.
  eexists. split; [vm_compute; reflexivity|].
  match goal with
  | |- _ = Z.of_nat (length (flat_map _ (outcomes _ _ (fetches ?w1)))) /\ _ =>
      pose proof (count_is_number_of_tweets 3 sample_url sample_query sample_fromDate
                    (JNum 100) two_pages_world 3%Z w1 eq_refl) as (Hn & _ & F & _)
  end.
  split; [exact Hn|]. rewrite F. reflexivity.
Defined.
(** ** Reading the result file back *)

Lemma hex_value_digit (d : N) : d < 16 -> hex_value (hex_digit d) = Some d.
Proof.
  intros H.
  assert (E : d = 0 \/ d = 1 \/ d = 2 \/ d = 3 \/ d = 4 \/ d = 5 \/ d = 6 \/ d = 7 \/
              d = 8 \/ d = 9 \/ d = 10 \/ d = 11 \/ d = 12 \/ d = 13 \/ d = 14 \/ d = 15)
    by lia.
  repeat (destruct E as [-> | E]; [reflexivity|]). subst d. reflexivity.
Qed.

Lemma hex4_escape (c : N) :
  c < 65536 ->
  hex4 (hex_digit (c / 4096 mod 16)) (hex_digit (c / 256 mod 16))
       (hex_digit (c / 16 mod 16)) (hex_digit (c mod 16)) = Some c.
Proof.
  intros H. unfold hex4.
  rewrite !hex_value_digit by (apply N.mod_lt; lia).
  f_equal.
  pose proof (N.div_mod' c 16) as E1.
  pose proof (N.div_mod' (c / 16) 16) as E2.
  pose proof (N.div_mod' (c / 256) 16) as E3.
  replace (c / 16 / 16) with (c / 256) in E2 by (rewrite N.Div0.div_div; reflexivity).
  replace (c / 256 / 16) with (c / 4096) in E3 by (rewrite N.Div0.div_div; reflexivity).
  assert (E4 : c / 4096 mod 16 = c / 4096).
  { apply N.mod_small. apply N.Div0.div_lt_upper_bound. lia. }
  rewrite E4. lia.
Qed.

Lemma parse_unicode_escape (c : N) (tail : jsstring) :
  c < 65536 ->
  parse_chars (unicode_escape c ++ tail) = prepend c (parse_chars tail).
Proof.
  intros H. unfold unicode_escape.
  cbn [app parse_chars N.eqb Pos.eqb]. rewrite (hex4_escape c H). reflexivity.
Qed.

Lemma parse_quote_unit (c : N) (tail : jsstring) :
  is_high_surrogate c = false ->
  parse_chars (quote_unit c ++ tail) = prepend c (parse_chars tail).
Proof.
  intros Hh. unfold quote_unit.
  destruct (c =? 8) eqn:E8; [apply N.eqb_eq in E8; subst; reflexivity|].
  destruct (c =? 9) eqn:E9; [apply N.eqb_eq in E9; subst; reflexivity|].
  destruct (c =? 10) eqn:E10; [apply N.eqb_eq in E10; subst; reflexivity|].
  destruct (c =? 12) eqn:E12; [apply N.eqb_eq in E12; subst; reflexivity|].
  destruct (c =? 13) eqn:E13; [apply N.eqb_eq in E13; subst; reflexivity|].
  destruct (c =? 34) eqn:E34; [apply N.eqb_eq in E34; subst; reflexivity|].
  destruct (c =? 92) eqn:E92; [apply N.eqb_eq in E92; subst; reflexivity|].
  rewrite Hh, orb_false_r.
  destruct ((c <? 32) || is_low_surrogate c) eqn:E.
  - apply parse_unicode_escape. apply orb_prop in E as [E|E].
    + apply N.ltb_lt in E. lia.
    + unfold is_low_surrogate in E. apply andb_prop in E as [_ E].
      apply N.leb_le in E. lia.
  - apply orb_false_elim in E as [E _].
    cbn [app parse_chars]. rewrite E34, E92, E. reflexivity.
Qed.

Lemma parse_surrogate (c : N) (tail : jsstring) :
  is_high_surrogate c = true \/ is_low_surrogate c = true ->
  parse_chars (c :: tail) = prepend c (parse_chars tail).
Proof.
  unfold is_high_surrogate, is_low_surrogate. intros H.
  assert (Hc : 55296 <= c).
  { destruct H as [H|H]; apply andb_prop in H as [H _]; apply N.leb_le in H; lia. }
  cbn [parse_chars].
  replace (c =? 34) with false by (symmetry; apply N.eqb_neq; lia).
  replace (c =? 92) with false by (symmetry; apply N.eqb_neq; lia).
  replace (c <? 32) with false by (symmetry; apply N.ltb_ge; lia).
  reflexivity.
Qed.

(** A quoted string is read back as it was. *)
Lemma parse_chars_quote_body (s : jsstring) :
  forall tail, parse_chars (quote_body s ++ 34 :: tail) = Some (s, tail).
Proof.
  induction s as [| c | c d r IH1 IH2] using list_pair_ind; intros tail.
  - reflexivity.
  - cbn [quote_body]. destruct (is_high_surrogate c) eqn:Hc.
    + rewrite parse_unicode_escape; [reflexivity|].
      unfold is_high_surrogate in Hc. apply andb_prop in Hc as [_ Hc].
      apply N.leb_le in Hc. lia.
    + rewrite app_nil_r, parse_quote_unit by exact Hc. reflexivity.
  - change (quote_body (c :: d :: r)) with
      (if is_high_surrogate c then
         (if is_low_surrogate d then c :: d :: quote_body r
          else unicode_escape c ++ quote_body (d :: r))
       else quote_unit c ++ quote_body (d :: r)).
    destruct (is_high_surrogate c) eqn:Hc.
    + destruct (is_low_surrogate d) eqn:Hd.
      * cbn [app]. rewrite (parse_surrogate c) by (left; exact Hc).
        rewrite (parse_surrogate d) by (right; exact Hd).
        rewrite IH1. reflexivity.
      * rewrite <- app_assoc, parse_unicode_escape, IH2; [reflexivity|].
        unfold is_high_surrogate in Hc. apply andb_prop in Hc as [_ Hc].
        apply N.leb_le in Hc. lia.
    + rewrite <- app_assoc, parse_quote_unit, IH2 by exact Hc. reflexivity.
Qed.

Lemma parse_value_string (d : nat) (s tail : jsstring) :
  parse_value (S d) (quote s ++ tail) = Some (JStr s, tail).
Proof.
  unfold quote. cbn [app parse_value N.eqb Pos.eqb].
  rewrite <- app_assoc. cbn [app]. rewrite parse_chars_quote_body. reflexivity.
Qed.
Lemma skip_ws_spaces (n : nat) (s : jsstring) :
  skip_ws (repeat SPACE n ++ s) = skip_ws s.
Proof. induction n as [|n IH]; [reflexivity | exact IH]. Qed.

Lemma skip_ws_quote (s tail : jsstring) : skip_ws (quote s ++ tail) = quote s ++ tail.
Proof. reflexivity. Qed.

Lemma quote_length (s tail : jsstring) :
  exists n, length (quote s ++ tail) = S (S n).
Proof.
  unfold quote. exists (length (quote_body s) + length tail)%nat.
  cbn [app length]. rewrite !length_app. cbn [length]. lia.
Qed.

Lemma parse_members_quote (value : jsstring -> option (jsvalue * jsstring))
    (n : nat) (acc : list (jsstring * jsvalue)) (k rest : jsstring) :
  parse_members value (S n) acc (quote k ++ rest) =
    match skip_ws rest with
    | 58 :: more =>
        match value (skip_ws more) with
        | None => None
        | Some (v, rest') =>
            match skip_ws rest' with
            | 44 :: more' => parse_members value n (set_field k v acc) (skip_ws more')
            | 125 :: more' => Some (set_field k v acc, more')
            | _ => None
            end
        end
    | _ => None
    end.
Proof.
  unfold quote. rewrite <- !app_assoc. cbn [app parse_members].
  rewrite parse_chars_quote_body. reflexivity.
Qed.

(** The JSON text of one tweet at the indentation of the result file. *)
Lemma serialize_tweet (text created : jsstring) :
  serialize (repeat SPACE 4) (repeat SPACE 4) (tweet_object text (JStr created))
  = [123; LF] ++ repeat SPACE 8 ++ quote (lit "text") ++ [58; SPACE] ++ quote text
      ++ [44; LF] ++ repeat SPACE 8 ++ quote (lit "created_at") ++ [58; SPACE]
      ++ quote created ++ [LF] ++ repeat SPACE 4 ++ [125].
Proof.
  unfold tweet_object. cbn [serialize wrap join repeat app].
  rewrite <- !app_assoc. reflexivity.
Qed.

Lemma parse_value_object (d : nat) (r k rest : jsstring) :
  skip_ws r = quote k ++ rest ->
  parse_value (S d) (123 :: r) =
    match parse_members (parse_value d) (length (quote k ++ rest)) [] (quote k ++ rest) with
    | Some (fields, tail) => Some (JObj fields, tail)
    | None => None
    end.
Proof.
  intros H. change (parse_value (S d) (123 :: r)) with
    (match skip_ws r with
     | 125 :: rest => Some (JObj [], rest)
     | r' =>
         match parse_members (parse_value d) (length r') [] r' with
         | Some (fields, rest) => Some (JObj fields, rest)
         | None => None
         end
     end).
  rewrite H. reflexivity.
Qed.

Lemma parse_value_tweet (d : nat) (text created tail : jsstring) :
  parse_value (S (S d))
    (serialize (repeat SPACE 4) (repeat SPACE 4) (tweet_object text (JStr created)) ++ tail)
  = Some (tweet_object text (JStr created), tail).
Proof.
  rewrite serialize_tweet. rewrite <- !app_assoc.
  change ([123; LF] ++ ?x) with (123 :: LF :: x).
  erewrite parse_value_object.
  2:{ change (skip_ws (LF :: ?x)) with (skip_ws x).
      rewrite skip_ws_spaces. apply skip_ws_quote. }
  destruct (quote_length (lit "text")
              ([58; SPACE] ++ quote text ++ [44; LF] ++ repeat SPACE 8
                 ++ quote (lit "created_at") ++ [58; SPACE] ++ quote created
                 ++ [LF] ++ repeat SPACE 4 ++ [125] ++ tail)) as [n ->].
  rewrite parse_members_quote.
  change (skip_ws ([58; SPACE] ++ ?x)) with (58 :: SPACE :: x).
  cbv iota. change (skip_ws (SPACE :: ?x)) with (skip_ws x).
  rewrite skip_ws_quote, parse_value_string.
  change (skip_ws ([44; LF] ++ ?x)) with (44 :: LF :: x). cbv iota.
  change (skip_ws (LF :: ?x)) with (skip_ws x).
  rewrite skip_ws_spaces, skip_ws_quote, parse_members_quote.
  change (skip_ws ([58; SPACE] ++ ?x)) with (58 :: SPACE :: x).
  cbv iota. change (skip_ws (SPACE :: ?x)) with (skip_ws x).
  rewrite skip_ws_quote, parse_value_string.
  change (skip_ws ([LF] ++ ?x)) with (skip_ws x).
  rewrite skip_ws_spaces.
  reflexivity.
Qed.
Lemma serialize_array (gap indent : jsstring) (items : list jsvalue) :
  serialize gap indent (JArr items)
  = wrap 91 93 gap indent (map (serialize gap (indent ++ gap)) items).
Proof.
  reflexivity.
Qed.

Lemma join_length (sep : jsstring) (parts : list jsstring) :
  Forall (fun p => (1 <= length p)%nat) parts ->
  (length parts <= length (join sep parts))%nat.
Proof.
  induction 1 as [|p rest Hp _ IH]; [reflexivity|].
  destruct rest as [|q rest]; [simpl; lia|].
  change (join sep (p :: q :: rest)) with (p ++ sep ++ join sep (q :: rest)).
  rewrite !length_app. cbn [length] in *. lia.
Qed.

Lemma parse_value_array (d : nat) (r rest : jsstring) :
  skip_ws r = 123 :: rest ->
  parse_value (S d) (91 :: r) =
    match parse_elements (parse_value d) (length (123 :: rest)) [] (123 :: rest) with
    | Some (items, tail) => Some (JArr items, tail)
    | None => None
    end.
Proof.
  intros H. change (parse_value (S d) (91 :: r)) with
    (match skip_ws r with
     | 93 :: rest => Some (JArr [], rest)
     | r' =>
         match parse_elements (parse_value d) (length r') [] r' with
         | Some (items, rest) => Some (JArr items, rest)
         | None => None
         end
     end).
  rewrite H. reflexivity.
Qed.

(** The tweet objects the result file is read back for: text and timestamp
    are strings. *)
Lemma serialize_tweet_head (text created : jsstring) :
  exists rest,
    serialize (repeat SPACE 4) (repeat SPACE 4) (tweet_object text (JStr created))
    = 123 :: rest.
Proof. rewrite serialize_tweet. eexists. reflexivity. Qed.

Lemma parse_elements_tweets (d : nat) (tweets : list (jsstring * jsstring)) :
  forall (t : jsstring * jsstring) (acc : list jsvalue) (n : nat) (tail : jsstring),
  (length tweets < n)%nat ->
  parse_elements (parse_value (S (S d))) n acc
    (join ([44; LF] ++ repeat SPACE 4)
       (map (fun t => serialize (repeat SPACE 4) (repeat SPACE 4)
                        (tweet_object (fst t) (JStr (snd t)))) (t :: tweets))
     ++ LF :: 93 :: tail)
  = Some (acc ++ map (fun t => tweet_object (fst t) (JStr (snd t))) (t :: tweets), tail).
Proof.
  induction tweets as [|t2 rest IH]; intros t acc n tail Hn.
  - destruct n as [|n]; [lia|]. cbn [map join parse_elements].
    rewrite parse_value_tweet. reflexivity.
  - destruct n as [|n]; [cbn [length] in Hn; lia|].
    change (map ?f (t :: t2 :: rest)) with (f t :: map f (t2 :: rest)).
    set (ser := fun t0 : jsstring * jsstring => serialize _ _ _) in *.
    set (obj := fun t0 : jsstring * jsstring => tweet_object _ _) in *.
    change (join ?sep (ser t :: map ser (t2 :: rest)))
      with (ser t ++ sep ++ join sep (map ser (t2 :: rest))).
    rewrite <- !app_assoc. cbn [parse_elements]. unfold ser at 1.
    rewrite parse_value_tweet.
    change (skip_ws ([44; LF] ++ ?x)) with (44 :: LF :: x). cbv iota.
    change (skip_ws (LF :: ?x)) with (skip_ws x).
    rewrite skip_ws_spaces.
    assert (Hs : forall x, skip_ws (join ([44; LF] ++ repeat SPACE 4) (map ser (t2 :: rest)) ++ x)
                           = join ([44; LF] ++ repeat SPACE 4) (map ser (t2 :: rest)) ++ x).
    { intros x. cbn [map]. destruct (serialize_tweet_head (fst t2) (snd t2)) as [y Hy].
      destruct (map ser rest) as [|q qs]; cbn [join]; unfold ser; rewrite Hy; reflexivity. }
    rewrite Hs, IH by (cbn [length] in Hn; lia).
    rewrite <- app_assoc. reflexivity.
Qed.

Lemma JSON_parse_tweets_text (tweets : list (jsstring * jsstring)) :
  JSON_parse (tweets_text (map (fun t => tweet_object (fst t) (JStr (snd t))) tweets))
  = inr (JArr (map (fun t => tweet_object (fst t) (JStr (snd t))) tweets)).
Proof.
  unfold tweets_text. rewrite serialize_array, map_map.
  change ([] ++ repeat SPACE 4) with (repeat SPACE 4).
  destruct tweets as [|t rest]; [reflexivity|].
  set (ser := fun t0 : jsstring * jsstring => serialize _ _ _).
  unfold wrap. cbn [map repeat app].
  set (body := join _ _).
  assert (Hb : exists y, body = 123 :: y).
  { unfold body. destruct (serialize_tweet_head (fst t) (snd t)) as [y Hy].
    destruct (map ser rest) as [|q qs]; cbn [join]; unfold ser; rewrite Hy;
      eexists; reflexivity. }
  assert (Hl : (length (t :: rest) <= length body)%nat).
  { unfold body. change (ser t :: map ser rest) with (map ser (t :: rest)).
    rewrite <- (length_map ser (t :: rest)) at 1. apply join_length.
    apply Forall_map, Forall_true. intros x. cbn [compose].
    destruct (serialize_tweet_head (fst x) (snd x)) as [y Hy]. unfold ser. rewrite Hy.
    simpl. lia. }
  destruct Hb as [y Hy].
  unfold JSON_parse. change (skip_ws (91 :: ?x)) with (91 :: x). cbn [length].
  rewrite (parse_value_array _ _ (y ++ [LF; 93])).
  2:{ change (skip_ws (LF :: SPACE :: SPACE :: SPACE :: SPACE :: ?x)) with (skip_ws x).
      rewrite Hy. reflexivity. }
  change (123 :: y ++ [LF; 93]) with ((123 :: y) ++ [LF; 93]). rewrite <- Hy.
  assert (P : parse_elements
                (parse_value (S (S (S (S (S (S (length (body ++ [LF; 93]))))))))) 
                (length (body ++ [LF; 93])) [] (body ++ [LF; 93])
              = Some ([] ++ map (fun t0 : jsstring * jsstring =>
                                   tweet_object (fst t0) (JStr (snd t0))) (t :: rest), [])).
  { apply (parse_elements_tweets (S (S (S (S (length (body ++ [LF; 93]))))))
             rest t [] (length (body ++ [LF; 93])) []).
    rewrite length_app. cbn [length] in *. lia. }
  rewrite P. reflexivity.
Qed.


(** ** Termination *)

(** The loop ends as soon as an outcome does not make it go round again,
    given a bound that reaches that outcome. *)
Lemma do_while_ends (token : jsvalue) (url query : jsstring) (fromDate maxResults : jsvalue)
    (k : nat) :
  forall (next : jsvalue) (tweets : list jsvalue) (w : World),
  continues (network w (fetches w + k)) = false ->
  exists x, do_while (S k) token url query fromDate maxResults next tweets w = Some x.
Proof.
  induction k as [|k IH]; intros next tweets w Hc.
  - rewrite Nat.add_0_r in Hc. cbn [do_while]. rewrite getTweetBatch_run.
    unfold continues in Hc.
    destruct (network w (fetches w)) as [e|r]; [eexists; reflexivity|].
    destruct (ok r); [|eexists; reflexivity].
    destruct (json r) as [e|[t|items nx]]; try (eexists; reflexivity).
    cbn [push_batch next_of]. rewrite push_results_app.
    destruct (snd (push_results items [])) as [e|u]; [eexists; reflexivity|].
    cbn [andb] in Hc. rewrite andb_true_r in Hc. rewrite Hc. eexists; reflexivity.
  - remember (S k) as fuel. cbn [do_while]. rewrite getTweetBatch_run.
    destruct (network w (fetches w)) as [e|r] eqn:Hn; [eexists; reflexivity|].
    destruct (ok r); [|eexists; reflexivity].
    destruct (json r) as [e|[t|items nx]]; try (eexists; reflexivity).
    cbn [push_batch next_of]. rewrite push_results_app.
    destruct (snd (push_results items [])) as [e|u]; [eexists; reflexivity|].
    destruct (truthy nx); [|eexists; reflexivity].
    subst fuel. apply IH.
    unfold rateLimiter, bind, console_debug. cbn [snd network emit].
    rewrite !fetches_emit. replace (S (fetches w) + k)%nat with (fetches w + S k)%nat by lia.
    exact Hc.
Qed.

Lemma do_while_more_fuel (token : jsvalue) (url query : jsstring)
    (fromDate maxResults : jsvalue) (fuel : nat) :
  forall next tweets w x,
  do_while fuel token url query fromDate maxResults next tweets w = Some x ->
  do_while (S fuel) token url query fromDate maxResults next tweets w = Some x.
Proof.
  induction fuel as [|fuel IH]; intros next tweets w x H; [discriminate|].
  remember (S fuel) as f. cbn [do_while]. subst f. cbn [do_while] in H.
  destruct (getTweetBatch token url query fromDate maxResults next w) as [[e|batch] w1];
    [exact H|].
  destruct (push_batch batch tweets) as [tweets' [e|u]]; [exact H|].
  destruct (truthy (next_of batch)); [apply IH; exact H | exact H].
Qed.

(** [search] ends when some outcome after the token does not make the loop
    go round again; more fuel does not change what it returns. *)
Lemma search_ends (url query : jsstring) (fromDate maxResults : jsvalue) (w : World) (k : nat) :
  continues (network w (S (fetches w) + k)) = false ->
  exists x, search (S k) url query fromDate maxResults w = Some x.
Proof.
  intros Hc. rewrite search_unfold, search_try_unfold.
  set (w0 := emit (EDebug _) w).
  assert (F0 : fetches w0 = fetches w) by (unfold w0; rewrite fetches_emit; reflexivity).
  destruct (getTwitterToken_advances AUTH_URL w0) as (evs & A & C & _).
  pose proof (advances_fetches _ _ _ A) as F. rewrite C, F0 in F. cbn [length] in F.
  destruct (fst (getTwitterToken AUTH_URL w0)) as [e|token]; [eexists; reflexivity|].
  destruct (do_while_ends token url query fromDate maxResults k JNull []
              (snd (getTwitterToken AUTH_URL w0))) as [[[tweets r] w2] Hx].
  - rewrite (proj1 A), F. cbn [network emit].
    replace (fetches w + 1 + k)%nat with (S (fetches w) + k)%nat by lia. exact Hc.
  - rewrite Hx. destruct r; eexists; reflexivity.
Qed.

Lemma search_more_fuel (fuel : nat) (url query : jsstring) (fromDate maxResults : jsvalue)
    (w : World) (x : (exn + Z) * World) :
  search fuel url query fromDate maxResults w = Some x ->
  search (S fuel) url query fromDate maxResults w = Some x.
Proof.
  rewrite !search_unfold, !search_try_unfold.
  destruct (fst (getTwitterToken AUTH_URL _)) as [e|token]; [auto|].
  destruct (do_while fuel _ _ _ _ _ _ _ _) as [y|] eqn:D; [|discriminate].
  rewrite (do_while_more_fuel _ _ _ _ _ _ _ _ _ _ D). auto.
Qed.

(** A tweet whose item had no [created_at] is written without the property
    and read back without it. *)
Lemma read_back_without_timestamp :
  exists w',
    writeFile OUTFILE (JSON_stringify (JArr [tweet_object (lit "hi") JUndefined]) 4)
      (initial_world (fun _ => Rejected connection_refused)) = (inr tt, w') /\
    readTweetFile OUTFILE w' = (inr (JArr [JObj [(lit "text", JStr (lit "hi"))]]), w').
Proof. eexists. split; reflexivity. Qed.
(** * More of the program *)

(** ** urlEncode *)

Lemma replace_all_app (c : N) (rep a b : jsstring) :
  replace_all c rep (a ++ b) = replace_all c rep a ++ replace_all c rep b.
Proof. unfold replace_all. apply flat_map_app. Qed.

Lemma replace_marks5_app (a b : jsstring) :
  replace_marks5 (a ++ b) = replace_marks5 a ++ replace_marks5 b.
Proof. unfold replace_marks5. rewrite !replace_all_app. reflexivity. Qed.

Lemma replace_all_other (c : N) (rep s : jsstring) :
  Forall (fun x => x <> c) s -> replace_all c rep s = s.
Proof.
  induction 1 as [|x r Hx _ IH]; [reflexivity|].
  unfold replace_all in *. cbn [flat_map]. rewrite IH.
  apply N.eqb_neq in Hx. rewrite Hx. reflexivity.
Qed.

Lemma replace_marks5_other (s : jsstring) :
  Forall (fun x => x <> 33 /\ x <> 39 /\ x <> 40 /\ x <> 41 /\ x <> 42) s ->
  replace_marks5 s = s.
Proof.
  intros H. unfold replace_marks5.
  rewrite (replace_all_other 33), (replace_all_other 39), (replace_all_other 40),
    (replace_all_other 41), (replace_all_other 42); auto;
    (eapply Forall_impl; [exact H | cbn beta; intros x Hx; tauto]).
Qed.

(** What the five replacements make of one character. *)
Lemma replace_marks5_one (c : N) :
  replace_marks5 [c] =
    if (c =? 33) || (c =? 39) || (c =? 40) || (c =? 41) || (c =? 42) then percent c else [c].
Proof.
  destruct (c =? 33) eqn:E1; [apply N.eqb_eq in E1; subst; reflexivity|].
  destruct (c =? 39) eqn:E2; [apply N.eqb_eq in E2; subst; reflexivity|].
  destruct (c =? 40) eqn:E3; [apply N.eqb_eq in E3; subst; reflexivity|].
  destruct (c =? 41) eqn:E4; [apply N.eqb_eq in E4; subst; reflexivity|].
  destruct (c =? 42) eqn:E5; [apply N.eqb_eq in E5; subst; reflexivity|].
  cbn [orb]. apply replace_marks5_other. constructor; [|constructor].
  apply N.eqb_neq in E1, E2, E3, E4, E5. tauto.
Qed.

Lemma upper_hex_digit_hex (d : N) : d < 16 -> is_upper_hex (upper_hex_digit d) = true.
Proof.
  intros H.
  assert (E : d = 0 \/ d = 1 \/ d = 2 \/ d = 3 \/ d = 4 \/ d = 5 \/ d = 6 \/ d = 7 \/
              d = 8 \/ d = 9 \/ d = 10 \/ d = 11 \/ d = 12 \/ d = 13 \/ d = 14 \/ d = 15)
    by lia.
  repeat (destruct E as [-> | E]; [reflexivity|]). subst d. reflexivity.
Qed.

Lemma is_upper_hex_range (c : N) :
  is_upper_hex c = true -> 48 <= c <= 70.
Proof.
  unfold is_upper_hex. intros H. apply orb_prop in H as [H|H];
    apply andb_prop in H as [H1 H2]; apply N.leb_le in H1, H2; lia.
Qed.

Lemma percent_no_marks (octet : N) :
  octet < 256 ->
  Forall (fun x => x <> 33 /\ x <> 39 /\ x <> 40 /\ x <> 41 /\ x <> 42) (percent octet).
Proof.
  intros H. unfold percent.
  assert (H1 : octet / 16 < 16) by (apply N.Div0.div_lt_upper_bound; lia).
  assert (H2 : octet mod 16 < 16) by (apply N.mod_lt; lia).
  pose proof (is_upper_hex_range _ (upper_hex_digit_hex _ H1)).
  pose proof (is_upper_hex_range _ (upper_hex_digit_hex _ H2)).
  repeat constructor; lia.
Qed.

Lemma percent_encoded_percent (octet : N) (rest : jsstring) :
  octet < 256 -> percent_encoded (percent octet ++ rest) = percent_encoded rest.
Proof.
  intros H. unfold percent. cbn [app percent_encoded N.eqb Pos.eqb].
  rewrite !upper_hex_digit_hex; [reflexivity | apply N.mod_lt; lia |
                                 apply N.Div0.div_lt_upper_bound; lia].
Qed.

Lemma utf8_octets (cp : N) : cp < 1114112 -> Forall (fun b => b < 256) (utf8 cp).
Proof.
  intros H. unfold utf8.
  destruct (cp <? 128) eqn:E1; [apply N.ltb_lt in E1; repeat constructor; lia|].
  destruct (cp <? 2048) eqn:E2.
  { apply N.ltb_lt in E2.
    assert (cp / 64 < 32) by (apply N.Div0.div_lt_upper_bound; lia).
    pose proof (N.mod_lt cp 64 ltac:(lia)). repeat constructor; lia. }
  destruct (cp <? 65536) eqn:E3.
  { apply N.ltb_lt in E3.
    assert (cp / 4096 < 16) by (apply N.Div0.div_lt_upper_bound; lia).
    pose proof (N.mod_lt (cp / 64) 64 ltac:(lia)).
    pose proof (N.mod_lt cp 64 ltac:(lia)). repeat constructor; lia. }
  assert (cp / 262144 < 8) by (apply N.Div0.div_lt_upper_bound; lia).
  pose proof (N.mod_lt (cp / 4096) 64 ltac:(lia)).
  pose proof (N.mod_lt (cp / 64) 64 ltac:(lia)).
  pose proof (N.mod_lt cp 64 ltac:(lia)). repeat constructor; lia.
Qed.

(** The [%XX] triples of some octets are untouched by the replacements and
    are percent-encoded text. *)
Lemma percent_octets (octets : list N) (rest : jsstring) :
  Forall (fun b => b < 256) octets ->
  replace_marks5 (flat_map percent octets) = flat_map percent octets /\
  percent_encoded (flat_map percent octets ++ rest) = percent_encoded rest.
Proof.
  induction 1 as [|b bs Hb _ [IH1 IH2]]; [split; reflexivity|].
  cbn [flat_map]. split.
  - rewrite replace_marks5_app, IH1, replace_marks5_other by (apply percent_no_marks, Hb).
    reflexivity.
  - rewrite <- app_assoc, percent_encoded_percent by exact Hb. exact IH2.
Qed.

Lemma surrogate_pair_range (c d : N) :
  is_high_surrogate c = true -> is_low_surrogate d = true -> code_point c d < 1114112.
Proof.
  unfold is_high_surrogate, is_low_surrogate, code_point. intros Hc Hd.
  apply andb_prop in Hc as [H1 H2]. apply andb_prop in Hd as [H3 H4].
  apply N.leb_le in H1, H2, H3, H4. lia.
Qed.

Lemma uri_unreserved_cases (c : N) :
  uri_unreserved c = true ->
  ((c =? 33) || (c =? 39) || (c =? 40) || (c =? 41) || (c =? 42) = true /\ c < 256) \/
  ((c =? 33) || (c =? 39) || (c =? 40) || (c =? 41) || (c =? 42) = false /\
   strict_unreserved c = true /\ c <> 37).
Proof.
  unfold uri_unreserved, strict_unreserved. intros H.
  destruct (c =? 33) eqn:E1; [apply N.eqb_eq in E1; subst; left; split; [reflexivity|lia]|].
  destruct (c =? 39) eqn:E2; [apply N.eqb_eq in E2; subst; left; split; [reflexivity|lia]|].
  destruct (c =? 40) eqn:E3; [apply N.eqb_eq in E3; subst; left; split; [reflexivity|lia]|].
  destruct (c =? 41) eqn:E4; [apply N.eqb_eq in E4; subst; left; split; [reflexivity|lia]|].
  destruct (c =? 42) eqn:E5; [apply N.eqb_eq in E5; subst; left; split; [reflexivity|lia]|].
  right. split; [reflexivity|]. rewrite !orb_false_r in H.
  split.
  - destruct (is_alnum c); [reflexivity|]. cbn [orb] in *.
    destruct (c =? 45); [reflexivity|]. destruct (c =? 95); [reflexivity|].
    destruct (c =? 46); [reflexivity|]. cbn [orb] in *. exact H.
  - intros ->. discriminate.
Qed.

Lemma percent_encoded_one (c : N) (rest : jsstring) :
  uri_unreserved c = true ->
  percent_encoded (replace_marks5 [c] ++ rest) = percent_encoded rest.
Proof.
  intros H. rewrite replace_marks5_one.
  destruct (uri_unreserved_cases c H) as [[E Hc] | (E & Hs & Hn)]; rewrite E.
  - apply percent_encoded_percent, Hc.
  - cbn [app percent_encoded]. apply N.eqb_neq in Hn. rewrite Hn, Hs. reflexivity.
Qed.

Lemma code_units_cons (c : N) (r : jsstring) :
  code_units (c :: r) = true <-> c < 65536 /\ code_units r = true.
Proof.
  unfold code_units. cbn [forallb]. rewrite andb_true_iff, N.ltb_lt. reflexivity.
Qed.

Lemma encodeURIComponent_encoded (s : jsstring) :
  forall e, code_units s = true -> encodeURIComponent s = inr e ->
            percent_encoded (replace_marks5 e) = true.
Proof.
  induction s as [| c | c d r IH1 IH2] using list_pair_ind; intros e Hu He.
  - injection He as <-. reflexivity.
  - apply code_units_cons in Hu as [Hc _]. cbn [encodeURIComponent bind_exn] in He.
    destruct (uri_unreserved c) eqn:U.
    + injection He as <-. rewrite <- (app_nil_r (replace_marks5 [c])).
      rewrite percent_encoded_one by exact U. reflexivity.
    + destruct (is_high_surrogate c); [discriminate|].
      destruct (is_low_surrogate c); [discriminate|]. injection He as <-.
      destruct (percent_octets (utf8 c) [] (utf8_octets c ltac:(lia))) as [E1 E2].
      rewrite app_nil_r in *. rewrite E1, E2. reflexivity.
  - pose proof Hu as Hu'. apply code_units_cons in Hu as [Hc Hu].
    pose proof Hu as Hu2. apply code_units_cons in Hu2 as [Hd Hr].
    change (encodeURIComponent (c :: d :: r)) with
      (if uri_unreserved c then
         let* rest := encodeURIComponent (d :: r) in inr (c :: rest)
       else if is_high_surrogate c then
         (if is_low_surrogate d then
            let* rest := encodeURIComponent r in
            inr (flat_map percent (utf8 (code_point c d)) ++ rest)
          else inl URIError)
       else if is_low_surrogate c then inl URIError
       else let* rest := encodeURIComponent (d :: r) in
            inr (flat_map percent (utf8 c) ++ rest)) in He.
    destruct (uri_unreserved c) eqn:U.
    + destruct (encodeURIComponent (d :: r)) as [x|rest]; [discriminate|].
      injection He as <-. change (c :: rest) with ([c] ++ rest).
      rewrite replace_marks5_app, percent_encoded_one by exact U. apply IH2; auto.
    + destruct (is_high_surrogate c) eqn:Hh.
      * destruct (is_low_surrogate d) eqn:Hl; [|discriminate].
        destruct (encodeURIComponent r) as [x|rest]; [discriminate|].
        injection He as <-.
        destruct (percent_octets (utf8 (code_point c d)) (replace_marks5 rest)
                    (utf8_octets _ (surrogate_pair_range c d Hh Hl))) as [E1 E2].
        rewrite replace_marks5_app, E1, E2. apply IH1; auto.
      * destruct (is_low_surrogate c); [discriminate|].
        destruct (encodeURIComponent (d :: r)) as [x|rest]; [discriminate|].
        injection He as <-.
        destruct (percent_octets (utf8 c) (replace_marks5 rest)
                    (utf8_octets c ltac:(lia))) as [E1 E2].
        rewrite replace_marks5_app, E1, E2. apply IH2; auto.
Qed.

Lemma percent_encoded_alphabet (n : nat) :
  forall s, (length s <= n)%nat -> percent_encoded s = true ->
            Forall (fun c => strict_unreserved c = true \/ c = 37 \/ is_upper_hex c = true) s.
Proof.
  induction n as [|n IH]; intros s Hn H.
  - destruct s; [constructor | cbn [length] in Hn; lia].
  - destruct s as [|c r]; [constructor|]. cbn [percent_encoded] in H. cbn [length] in Hn.
    destruct (c =? 37) eqn:E.
    + apply N.eqb_eq in E. subst c. destruct r as [|h1 [|h2 r']]; try discriminate.
      apply andb_prop in H as [H H3]. apply andb_prop in H as [H1 H2].
      cbn [length] in Hn.
      constructor; [right; left; reflexivity|].
      constructor; [right; right; exact H1|].
      constructor; [right; right; exact H2|]. apply IH; [lia | exact H3].
    + apply andb_prop in H as [H1 H2]. constructor; auto. apply IH; [lia | exact H2].
Qed.

Lemma strict_unreserved_ascii (c : N) : strict_unreserved c = true -> c < 128.
Proof.
  unfold strict_unreserved, is_alnum. intros H.
  repeat (apply orb_prop in H as [H|H]);
    try (apply andb_prop in H as [H1 H2]; apply N.leb_le in H1, H2; lia);
    apply N.eqb_eq in H; lia.
Qed.

Lemma strict_unreserved_uri (c : N) : strict_unreserved c = true -> uri_unreserved c = true.
Proof.
  unfold strict_unreserved, uri_unreserved. intros H.
  destruct (is_alnum c); [reflexivity|]. cbn [orb] in *.
  destruct (c =? 45); [reflexivity|]. destruct (c =? 95); [reflexivity|].
  destruct (c =? 46); [reflexivity|]. cbn [orb] in *. rewrite H.
  rewrite !orb_true_r. reflexivity.
Qed.

Lemma ascii_not_surrogate (c : N) :
  c < 128 -> is_high_surrogate c = false /\ is_low_surrogate c = false.
Proof.
  intros H. unfold is_high_surrogate, is_low_surrogate.
  split; apply andb_false_intro1; apply N.leb_gt; lia.
Qed.

(** On ASCII text [encodeURIComponent] works character by character. *)
Lemma encodeURIComponent_ascii (s : jsstring) :
  Forall (fun c => c < 128) s ->
  encodeURIComponent s
  = inr (flat_map (fun c => if uri_unreserved c then [c] else percent c) s).
Proof.
  induction 1 as [|c r Hc _ IH]; [reflexivity|].
  cbn [encodeURIComponent flat_map]. rewrite IH. cbn [bind_exn].
  destruct (uri_unreserved c); [reflexivity|].
  destruct (ascii_not_surrogate c Hc) as [-> ->].
  unfold utf8. replace (c <? 128) with true by (symmetry; apply N.ltb_lt; exact Hc).
  cbn [flat_map]. rewrite app_nil_r. reflexivity.
Qed.

Lemma urlEncode_percent_encoded_chars (s t : jsstring) :
  code_units s = true -> urlEncode s = inr t ->
  percent_encoded t = true /\
  Forall (fun c => c <> 33 /\ c <> 39 /\ c <> 40 /\ c <> 41 /\ c <> 42 /\ c <> 58 /\ c <> 32) t.
Proof.
  intros Hu H. unfold urlEncode in H.
  destruct (encodeURIComponent s) as [x|e] eqn:E; [discriminate|].
  cbn [bind_exn] in H. injection H as <-. fold (replace_marks5 e).
  pose proof (encodeURIComponent_encoded s e Hu E) as Hp.
  pose proof (percent_encoded_alphabet _ _ (le_n _) Hp) as Ha.
  split; [exact Hp|].
  eapply Forall_impl; [exact Ha|]. cbn beta. intros c [Hc | [-> | Hc]].
  - unfold strict_unreserved, is_alnum in Hc.
    repeat (apply orb_prop in Hc as [Hc|Hc]);
      try (apply andb_prop in Hc as [H1 H2]; apply N.leb_le in H1, H2; lia);
      apply N.eqb_eq in Hc; lia.
  - lia.
  - unfold is_upper_hex in Hc. apply orb_prop in Hc as [Hc|Hc];
      apply andb_prop in Hc as [H1 H2]; apply N.leb_le in H1, H2; lia.
Qed.

(** X1.  [urlEncode] leaves nothing but RFC 3986 unreserved characters and
    [%XX] triples with upper-case digits: the text of a string of code units
    is percent-encoded, so it has no [!], ['], [(], [)], [*], no colon and
    no space. *)
Theorem urlEncode_percent_encoded (s t : jsstring) :
  code_units s = true ->
  urlEncode s = inr t ->
  percent_encoded t = true /\
  Forall (fun c => strict_unreserved c = true \/ c = 37 \/ is_upper_hex c = true) t /\
  Forall (fun c => c <> 33 /\ c <> 39 /\ c <> 40 /\ c <> 41 /\ c <> 42 /\ c <> 58 /\ c <> 32) t.
Proof.
  intros Hu H. destruct (urlEncode_percent_encoded_chars s t Hu H) as [Hp Hc].
  split; [exact Hp|]. split; [|exact Hc].
  apply (percent_encoded_alphabet _ _ (le_n _) Hp).
Qed.

Lemma urlEncode_percent_encoded_witness :
  percent_encoded (lit "a%20b%21%2A%E2%82%AC") = true /\
  Forall (fun c => strict_unreserved c = true \/ c = 37 \/ is_upper_hex c = true)
         (lit "a%20b%21%2A%E2%82%AC") /\
  Forall (fun c => c <> 33 /\ c <> 39 /\ c <> 40 /\ c <> 41 /\ c <> 42 /\ c <> 58 /\ c <> 32)
         (lit "a%20b%21%2A%E2%82%AC").
Proof.
  apply (urlEncode_percent_encoded (lit "a b!*" ++ [8364])); reflexivity.
Defined.

(** X2.  On ASCII text [urlEncode] works character by character: a letter,
    a digit, [-], [_], [.] or [~] is kept and any other character becomes
    the [%XX] of its code, the five characters of the [replace] chain
    included; a text of kept characters comes back unchanged. *)
Theorem urlEncode_ascii (s : jsstring) :
  Forall (fun c => c < 128) s ->
  urlEncode s = inr (flat_map (fun c => if strict_unreserved c then [c] else percent c) s) /\
  (Forall (fun c => strict_unreserved c = true) s -> urlEncode s = inr s).
Proof.
  intros H.
  assert (E : urlEncode s
              = inr (flat_map (fun c => if strict_unreserved c then [c] else percent c) s)).
  { unfold urlEncode. rewrite (encodeURIComponent_ascii s H). cbn [bind_exn]. f_equal.
    fold (replace_marks5 (flat_map (fun c => if uri_unreserved c then [c] else percent c) s)).
    induction H as [|c r Hc _ IH]; [reflexivity|].
    cbn [flat_map]. rewrite replace_marks5_app, IH. f_equal.
    destruct (uri_unreserved c) eqn:U.
    - rewrite replace_marks5_one.
      destruct (uri_unreserved_cases c U) as [[E Hb] | (E & Hs & _)]; rewrite E.
      + destruct (strict_unreserved c) eqn:S; [|reflexivity].
        exfalso. clear - E S. unfold strict_unreserved, is_alnum in S.
        repeat (apply orb_prop in E as [E|E]); apply N.eqb_eq in E; subst c; discriminate.
      + rewrite Hs. reflexivity.
    - destruct (strict_unreserved c) eqn:S.
      + apply strict_unreserved_uri in S. congruence.
      + apply replace_marks5_other, percent_no_marks. lia. }
  split; [exact E|]. intros Hs. rewrite E. f_equal.
  clear E H. induction Hs as [|c r Hc _ IH]; [reflexivity|].
  cbn [flat_map]. rewrite Hc, IH. reflexivity.
Qed.

Lemma urlEncode_ascii_witness :
  urlEncode (lit "key (v2)!")
    = inr (flat_map (fun c => if strict_unreserved c then [c] else percent c)
             (lit "key (v2)!")) /\
  (Forall (fun c => strict_unreserved c = true) (lit "key (v2)!") ->
   urlEncode (lit "key (v2)!") = inr (lit "key (v2)!")).
Proof.
  apply (urlEncode_ascii (lit "key (v2)!")).
  repeat constructor.
Defined.

Lemma uri_unreserved_not_surrogate (c : N) :
  uri_unreserved c = true -> is_high_surrogate c = false /\ is_low_surrogate c = false.
Proof.
  intros H. apply ascii_not_surrogate.
  destruct (uri_unreserved_cases c H) as [[E _] | (_ & Hs & _)].
  - repeat (apply orb_prop in E as [E|E]); apply N.eqb_eq in E; lia.
  - apply strict_unreserved_ascii, Hs.
Qed.

Lemma encodeURIComponent_well_formed (s : jsstring) :
  (well_formed s = true -> exists e, encodeURIComponent s = inr e) /\
  (well_formed s = false -> encodeURIComponent s = inl URIError).
Proof.
  induction s as [| c | c d r [IH1a IH1b] [IH2a IH2b]] using list_pair_ind.
  - split; [eexists; reflexivity | discriminate].
  - cbn [encodeURIComponent well_formed bind_exn].
    destruct (uri_unreserved c) eqn:U.
    + destruct (uri_unreserved_not_surrogate c U) as [-> ->].
      split; [eexists; reflexivity | discriminate].
    + destruct (is_high_surrogate c); [split; [discriminate | reflexivity]|].
      destruct (is_low_surrogate c); split; try discriminate; try reflexivity.
      eexists; reflexivity.
  - change (well_formed (c :: d :: r)) with
      (if is_high_surrogate c then is_low_surrogate d && well_formed r
       else negb (is_low_surrogate c) && well_formed (d :: r)).
    change (encodeURIComponent (c :: d :: r)) with
      (if uri_unreserved c then
         let* rest := encodeURIComponent (d :: r) in inr (c :: rest)
       else if is_high_surrogate c then
         (if is_low_surrogate d then
            let* rest := encodeURIComponent r in
            inr (flat_map percent (utf8 (code_point c d)) ++ rest)
          else inl URIError)
       else if is_low_surrogate c then inl URIError
       else let* rest := encodeURIComponent (d :: r) in
            inr (flat_map percent (utf8 c) ++ rest)).
    destruct (uri_unreserved c) eqn:U.
    + destruct (uri_unreserved_not_surrogate c U) as [-> ->]. cbn [negb andb].
      split; intros H.
      * destruct (IH2a H) as [e ->]. eexists; reflexivity.
      * rewrite (IH2b H). reflexivity.
    + destruct (is_high_surrogate c).
      * destruct (is_low_surrogate d); cbn [andb]; [|split; [discriminate | reflexivity]].
        split; intros H.
        -- destruct (IH1a H) as [e ->]. eexists; reflexivity.
        -- rewrite (IH1b H). reflexivity.
      * destruct (is_low_surrogate c); cbn [negb andb]; [split; [discriminate | reflexivity]|].
        split; intros H.
        -- destruct (IH2a H) as [e ->]. eexists; reflexivity.
        -- rewrite (IH2b H). reflexivity.
Qed.

(** X3.  [urlEncode] throws exactly on a text with a surrogate that has no
    partner, and what it throws then is a URIError; every other text is
    encoded. *)
Theorem urlEncode_fails_on_lone_surrogate (s : jsstring) :
  (well_formed s = true -> exists t, urlEncode s = inr t) /\
  (well_formed s = false -> urlEncode s = inl URIError) /\
  (forall e, urlEncode s = inl e -> e = URIError /\ well_formed s = false).
Proof.
  destruct (encodeURIComponent_well_formed s) as [H1 H2]. unfold urlEncode.
  split; [|split].
  - intros H. destruct (H1 H) as [e ->]. eexists; reflexivity.
  - intros H. rewrite (H2 H). reflexivity.
  - intros e He. destruct (well_formed s).
    + destruct (H1 eq_refl) as [x Hx]. rewrite Hx in He. discriminate.
    + rewrite (H2 eq_refl) in He. injection He as <-. auto.
Qed.

Lemma urlEncode_fails_on_lone_surrogate_witness :
  (exists t, urlEncode (lit "key" ++ [55357; 56832]) = inr t) /\
  urlEncode (lit "key" ++ [55357]) = inl URIError.
Proof.
  split.
  - apply (proj1 (urlEncode_fails_on_lone_surrogate (lit "key" ++ [55357; 56832]))).
    reflexivity.
  - apply (proj1 (proj2 (urlEncode_fails_on_lone_surrogate (lit "key" ++ [55357])))).
    reflexivity.
Defined.

Lemma encodeURIComponent_app (a : jsstring) :
  forall b a' b',
  encodeURIComponent a = inr a' -> encodeURIComponent b = inr b' ->
  encodeURIComponent (a ++ b) = inr (a' ++ b').
Proof.
  induction a as [| c | c d r IH1 IH2] using list_pair_ind; intros b a' b' Ha Hb.
  - injection Ha as <-. exact Hb.
  - cbn [encodeURIComponent bind_exn] in Ha. cbn [app encodeURIComponent].
    destruct (uri_unreserved c).
    + injection Ha as <-. rewrite Hb. reflexivity.
    + destruct (is_high_surrogate c); [discriminate|].
      destruct (is_low_surrogate c); [discriminate|]. injection Ha as <-.
      rewrite Hb, app_nil_r. reflexivity.
  - change (encodeURIComponent (c :: d :: r)) with
      (if uri_unreserved c then
         let* rest := encodeURIComponent (d :: r) in inr (c :: rest)
       else if is_high_surrogate c then
         (if is_low_surrogate d then
            let* rest := encodeURIComponent r in
            inr (flat_map percent (utf8 (code_point c d)) ++ rest)
          else inl URIError)
       else if is_low_surrogate c then inl URIError
       else let* rest := encodeURIComponent (d :: r) in
            inr (flat_map percent (utf8 c) ++ rest)) in Ha.
    change (encodeURIComponent ((c :: d :: r) ++ b)) with
      (if uri_unreserved c then
         let* rest := encodeURIComponent ((d :: r) ++ b) in inr (c :: rest)
       else if is_high_surrogate c then
         (if is_low_surrogate d then
            let* rest := encodeURIComponent (r ++ b) in
            inr (flat_map percent (utf8 (code_point c d)) ++ rest)
          else inl URIError)
       else if is_low_surrogate c then inl URIError
       else let* rest := encodeURIComponent ((d :: r) ++ b) in
            inr (flat_map percent (utf8 c) ++ rest)).
    destruct (uri_unreserved c).
    + destruct (encodeURIComponent (d :: r)) as [x|rest] eqn:E; [discriminate|].
      injection Ha as <-. rewrite (IH2 b rest b' eq_refl Hb). reflexivity.
    + destruct (is_high_surrogate c).
      * destruct (is_low_surrogate d); [|discriminate].
        destruct (encodeURIComponent r) as [x|rest] eqn:E; [discriminate|].
        injection Ha as <-. rewrite (IH1 b rest b' eq_refl Hb).
        cbn [bind_exn]. rewrite app_assoc. reflexivity.
      * destruct (is_low_surrogate c); [discriminate|].
        destruct (encodeURIComponent (d :: r)) as [x|rest] eqn:E; [discriminate|].
        injection Ha as <-. rewrite (IH2 b rest b' eq_refl Hb).
        cbn [bind_exn]. rewrite app_assoc. reflexivity.
Qed.

Lemma urlEncode_inr (s t : jsstring) :
  urlEncode s = inr t <-> exists e, encodeURIComponent s = inr e /\ t = replace_marks5 e.
Proof.
  unfold urlEncode. destruct (encodeURIComponent s) as [x|e]; cbn [bind_exn].
  - split; [discriminate | intros (e & H & _); discriminate].
  - split.
    + intros [= <-]. exists e. auto.
    + intros (e' & [= <-] & ->). reflexivity.
Qed.

(** X4.  [urlEncode] goes through concatenation: the encoding of two texts
    one after the other is their encodings one after the other. *)
Theorem urlEncode_app (a b a' b' : jsstring) :
  urlEncode a = inr a' -> urlEncode b = inr b' ->
  urlEncode (a ++ b) = inr (a' ++ b').
Proof.
  intros Ha Hb. apply urlEncode_inr in Ha as (ea & Ea & ->).
  apply urlEncode_inr in Hb as (eb & Eb & ->).
  apply urlEncode_inr. exists (ea ++ eb). split.
  - apply encodeURIComponent_app; assumption.
  - symmetry. apply replace_marks5_app.
Qed.

Lemma urlEncode_app_witness :
  urlEncode (lit "a b" ++ lit "(c)") = inr (lit "a%20b" ++ lit "%28c%29").
Proof. apply urlEncode_app; reflexivity. Defined.

(** [lia] for goals with quotients and remainders of [N]: they are taken
    for numbers of their own, which the facts in the context describe. *)
Ltac hide_div :=
  repeat match goal with
  | |- context [N.div ?a ?b] => generalize dependent (N.div a b); intros
  | |- context [N.modulo ?a ?b] => generalize dependent (N.modulo a b); intros
  | H : context [N.div ?a ?b] |- _ => generalize dependent (N.div a b); intros
  | H : context [N.modulo ?a ?b] |- _ => generalize dependent (N.modulo a b); intros
  end.
Ltac div_lia := hide_div; lia.

Lemma hex_value_upper (d : N) : d < 16 -> hex_value (upper_hex_digit d) = Some d.
Proof.
  intros H.
  assert (E : d = 0 \/ d = 1 \/ d = 2 \/ d = 3 \/ d = 4 \/ d = 5 \/ d = 6 \/ d = 7 \/
              d = 8 \/ d = 9 \/ d = 10 \/ d = 11 \/ d = 12 \/ d = 13 \/ d = 14 \/ d = 15)
    by lia.
  repeat (destruct E as [-> | E]; [reflexivity|]). subst d. reflexivity.
Qed.

Lemma percent_decode_percent (octet : N) (rest : jsstring) :
  octet < 256 -> percent_decode (percent octet ++ rest) = octet :: percent_decode rest.
Proof.
  intros H. unfold percent. cbn [app percent_decode N.eqb Pos.eqb].
  rewrite !hex_value_upper by (apply N.mod_lt || apply N.Div0.div_lt_upper_bound; lia).
  f_equal. pose proof (N.div_mod' octet 16). div_lia.
Qed.

Lemma percent_decode_octets (octets : list N) (rest : jsstring) :
  Forall (fun b => b < 256) octets ->
  percent_decode (flat_map percent octets ++ rest) = octets ++ percent_decode rest.
Proof.
  induction 1 as [|b bs Hb _ IH]; [reflexivity|].
  cbn [flat_map]. rewrite <- app_assoc, percent_decode_percent, IH by exact Hb. reflexivity.
Qed.

Lemma percent_decode_one (c : N) (rest : jsstring) :
  uri_unreserved c = true ->
  percent_decode (replace_marks5 [c] ++ rest) = c :: percent_decode rest.
Proof.
  intros H. rewrite replace_marks5_one.
  destruct (uri_unreserved_cases c H) as [[E Hc] | (E & _ & Hn)]; rewrite E.
  - apply percent_decode_percent, Hc.
  - cbn [app percent_decode]. apply N.eqb_neq in Hn. rewrite Hn. reflexivity.
Qed.

(** The UTF-8 octets of a code unit of the basic plane stand for it. *)
Lemma utf8_decode_unit (cp : N) (rest : list N) :
  cp < 65536 -> utf8_decode (utf8 cp ++ rest) = cp :: utf8_decode rest.
Proof.
  intros H. unfold utf8.
  pose proof (N.div_mod' cp 64) as E1. pose proof (N.div_mod' (cp / 64) 64) as E2.
  replace (cp / 64 / 64) with (cp / 4096) in E2 by (rewrite N.Div0.div_div; reflexivity).
  pose proof (N.mod_lt cp 64 ltac:(lia)) as M1.
  pose proof (N.mod_lt (cp / 64) 64 ltac:(lia)) as M2.
  destruct (cp <? 128) eqn:C1.
  { cbn [app utf8_decode]. rewrite C1. reflexivity. }
  apply N.ltb_ge in C1.
  destruct (cp <? 2048) eqn:C2.
  { apply N.ltb_lt in C2. cbn [app utf8_decode].
    replace (192 + cp / 64 <? 128) with false by (symmetry; apply N.ltb_ge; div_lia).
    replace (192 + cp / 64 <? 224) with true by (symmetry; apply N.ltb_lt; div_lia).
    f_equal. div_lia. }
  apply N.ltb_ge in C2.
  replace (cp <? 65536) with true by (symmetry; apply N.ltb_lt; div_lia).
  cbn [app utf8_decode].
  replace (224 + cp / 4096 <? 128) with false by (symmetry; apply N.ltb_ge; div_lia).
  replace (224 + cp / 4096 <? 224) with false by (symmetry; apply N.ltb_ge; div_lia).
  replace (224 + cp / 4096 <? 240) with true by (symmetry; apply N.ltb_lt; div_lia).
  f_equal. div_lia.
Qed.

(** The UTF-8 octets of the code point of a surrogate pair stand for the
    pair. *)
Lemma utf8_decode_pair (c d : N) (rest : list N) :
  is_high_surrogate c = true -> is_low_surrogate d = true ->
  utf8_decode (utf8 (code_point c d) ++ rest) = c :: d :: utf8_decode rest.
Proof.
  intros Hc Hd. pose proof (surrogate_pair_range c d Hc Hd) as Hr.
  unfold is_high_surrogate, is_low_surrogate in *.
  apply andb_prop in Hc as [H1 H2]. apply andb_prop in Hd as [H3 H4].
  apply N.leb_le in H1, H2, H3, H4.
  assert (Hcp : code_point c d = 1024 * (c - 55296) + (d - 56320) + 65536)
    by (unfold code_point; lia).
  set (cp := code_point c d) in *. unfold utf8.
  pose proof (N.div_mod' cp 64) as E1. pose proof (N.div_mod' (cp / 64) 64) as E2.
  pose proof (N.div_mod' (cp / 4096) 64) as E3.
  replace (cp / 64 / 64) with (cp / 4096) in E2 by (rewrite N.Div0.div_div; reflexivity).
  replace (cp / 4096 / 64) with (cp / 262144) in E3 by (rewrite N.Div0.div_div; reflexivity).
  pose proof (N.mod_lt cp 64 ltac:(lia)) as M1.
  pose proof (N.mod_lt (cp / 64) 64 ltac:(lia)) as M2.
  pose proof (N.mod_lt (cp / 4096) 64 ltac:(lia)) as M3.
  replace (cp <? 128) with false by (symmetry; apply N.ltb_ge; div_lia).
  replace (cp <? 2048) with false by (symmetry; apply N.ltb_ge; div_lia).
  replace (cp <? 65536) with false by (symmetry; apply N.ltb_ge; div_lia).
  cbn [app utf8_decode].
  replace (240 + cp / 262144 <? 128) with false by (symmetry; apply N.ltb_ge; div_lia).
  replace (240 + cp / 262144 <? 224) with false by (symmetry; apply N.ltb_ge; div_lia).
  replace (240 + cp / 262144 <? 240) with false by (symmetry; apply N.ltb_ge; div_lia).
  cbv zeta.
  replace ((240 + cp / 262144 - 240) * 262144 + (128 + (cp / 4096) mod 64 - 128) * 4096
           + (128 + (cp / 64) mod 64 - 128) * 64 + (128 + cp mod 64 - 128) - 65536)
    with (1024 * (c - 55296) + (d - 56320)) by div_lia.
  f_equal; [|f_equal].
  - rewrite <- (N.div_unique _ 1024 (c - 55296) (d - 56320)); [lia | lia | reflexivity].
  - rewrite <- (N.mod_unique _ 1024 (c - 55296) (d - 56320)); [lia | lia | reflexivity].
Qed.

(** Decoding the percent-encoding and then the UTF-8 gives the text back. *)
Lemma urlEncode_decoded (s : jsstring) :
  forall e, code_units s = true -> encodeURIComponent s = inr e ->
            utf8_decode (percent_decode (replace_marks5 e)) = s.
Proof.
  assert (Hone : forall c rest, uri_unreserved c = true ->
            utf8_decode (percent_decode (replace_marks5 (c :: rest)))
            = c :: utf8_decode (percent_decode (replace_marks5 rest))).
  { intros c rest U. change (c :: rest) with ([c] ++ rest).
    rewrite replace_marks5_app, percent_decode_one by exact U.
    cbn [utf8_decode].
    replace (c <? 128) with true; [reflexivity|]. symmetry. apply N.ltb_lt.
    destruct (uri_unreserved_cases c U) as [[E _] | (_ & Hs & _)].
    - repeat (apply orb_prop in E as [E|E]); apply N.eqb_eq in E; lia.
    - apply strict_unreserved_ascii, Hs. }
  assert (Hoct : forall cp rest, cp < 1114112 ->
            percent_decode (replace_marks5 (flat_map percent (utf8 cp) ++ rest))
            = utf8 cp ++ percent_decode (replace_marks5 rest)).
  { intros cp rest Hcp. pose proof (utf8_octets cp Hcp) as Ho.
    rewrite replace_marks5_app, (proj1 (percent_octets _ [] Ho)).
    apply percent_decode_octets, Ho. }
  induction s as [| c | c d r IH1 IH2] using list_pair_ind; intros e Hu He.
  - injection He as <-. reflexivity.
  - apply code_units_cons in Hu as [Hc _]. cbn [encodeURIComponent bind_exn] in He.
    destruct (uri_unreserved c) eqn:U.
    + injection He as <-. rewrite Hone by exact U. reflexivity.
    + destruct (is_high_surrogate c); [discriminate|].
      destruct (is_low_surrogate c); [discriminate|]. injection He as <-.
      rewrite Hoct by lia. rewrite utf8_decode_unit by exact Hc. reflexivity.
  - apply code_units_cons in Hu as [Hc Hu].
    pose proof Hu as Hu2. apply code_units_cons in Hu2 as [Hd Hr].
    change (encodeURIComponent (c :: d :: r)) with
      (if uri_unreserved c then
         let* rest := encodeURIComponent (d :: r) in inr (c :: rest)
       else if is_high_surrogate c then
         (if is_low_surrogate d then
            let* rest := encodeURIComponent r in
            inr (flat_map percent (utf8 (code_point c d)) ++ rest)
          else inl URIError)
       else if is_low_surrogate c then inl URIError
       else let* rest := encodeURIComponent (d :: r) in
            inr (flat_map percent (utf8 c) ++ rest)) in He.
    destruct (uri_unreserved c) eqn:U.
    + destruct (encodeURIComponent (d :: r)) as [x|rest]; [discriminate|].
      injection He as <-. rewrite Hone by exact U. f_equal. apply IH2; auto.
    + destruct (is_high_surrogate c) eqn:Hh.
      * destruct (is_low_surrogate d) eqn:Hl; [|discriminate].
        destruct (encodeURIComponent r) as [x|rest]; [discriminate|].
        injection He as <-.
        rewrite Hoct by (apply surrogate_pair_range; assumption).
        rewrite utf8_decode_pair by assumption. do 2 f_equal. apply IH1; auto.
      * destruct (is_low_surrogate c); [discriminate|].
        destruct (encodeURIComponent (d :: r)) as [x|rest]; [discriminate|].
        injection He as <-. rewrite Hoct by lia.
        rewrite utf8_decode_unit by exact Hc. f_equal. apply IH2; auto.
Qed.

(** X5.  [urlEncode] loses nothing: two texts with the same encoding are
    the same text (the text can be read back from its encoding by
    percent-decoding and UTF-8 decoding). *)
Theorem urlEncode_injective (a b t : jsstring) :
  code_units a = true -> code_units b = true ->
  urlEncode a = inr t -> urlEncode b = inr t ->
  a = b.
Proof.
  intros Ua Ub Ha Hb.
  apply urlEncode_inr in Ha as (ea & Ea & ->).
  apply urlEncode_inr in Hb as (eb & Eb & Et).
  rewrite <- (urlEncode_decoded a ea Ua Ea), Et. exact (urlEncode_decoded b eb Ub Eb).
Qed.

Lemma urlEncode_injective_witness :
  lit "a b!*" ++ [8364; 55357; 56832] = [97; 32; 98; 33; 42; 8364; 55357; 56832].
Proof.
  apply (urlEncode_injective (lit "a b!*" ++ [8364; 55357; 56832])
           [97; 32; 98; 33; 42; 8364; 55357; 56832]
           (lit "a%20b%21%2A%E2%82%AC%F0%9F%98%80")); reflexivity.
Defined.

Lemma split_at_colon (a b a' b' : jsstring) :
  Forall (fun c => c <> 58) a -> Forall (fun c => c <> 58) a' ->
  a ++ 58 :: b = a' ++ 58 :: b' -> a = a' /\ b = b'.
Proof.
  intros Ha. revert a'. induction Ha as [|x a Hx _ IH]; intros a' Ha' E.
  - destruct Ha' as [|y a' Hy _]; cbn [app] in E.
    + injection E as <-. auto.
    + injection E as E _. congruence.
  - destruct Ha' as [|y a' Hy Ha']; cbn [app] in E.
    + injection E as E _. congruence.
    + injection E as <- E. destruct (IH a' Ha' E) as [-> ->]. auto.
Qed.

(** X6.  The text [getTwitterToken] hands to [btoa] determines the key and
    the secret: no encoded text has a colon, so the colon between the two
    is the only one, and each part decodes to what it was made from. *)
Theorem credentials_text_injective (key secret key' secret' t : jsstring) :
  code_units key = true -> code_units secret = true ->
  code_units key' = true -> code_units secret' = true ->
  credentials_text key secret = inr t ->
  credentials_text key' secret' = inr t ->
  key = key' /\ secret = secret'.
Proof.
  intros Uk Us Uk' Us' H H'. unfold credentials_text in *.
  destruct (urlEncode key) as [x|k] eqn:Ek; [discriminate|].
  destruct (urlEncode secret) as [x|s] eqn:Es; [discriminate|].
  destruct (urlEncode key') as [x|k'] eqn:Ek'; [discriminate|].
  destruct (urlEncode secret') as [x|s'] eqn:Es'; [discriminate|].
  cbn [bind_exn] in *. injection H as <-. injection H' as E.
  assert (Hcolon : forall a e, code_units a = true -> urlEncode a = inr e ->
                               Forall (fun c => c <> 58) e).
  { intros a e Ua Ea. destruct (urlEncode_percent_encoded_chars a e Ua Ea) as [_ Hc].
    eapply Forall_impl; [exact Hc|]. cbn beta. tauto. }
  destruct (split_at_colon k' s' k s (Hcolon _ _ Uk' Ek') (Hcolon _ _ Uk Ek) E) as [-> ->].
  split.
  - apply urlEncode_inr in Ek as (e1 & E1 & T1). apply urlEncode_inr in Ek' as (e2 & E2 & T2).
    rewrite <- (urlEncode_decoded key e1 Uk E1), <- (urlEncode_decoded key' e2 Uk' E2).
    congruence.
  - apply urlEncode_inr in Es as (e1 & E1 & T1). apply urlEncode_inr in Es' as (e2 & E2 & T2).
    rewrite <- (urlEncode_decoded secret e1 Us E1), <- (urlEncode_decoded secret' e2 Us' E2).
    congruence.
Qed.

Lemma credentials_text_injective_witness :
  lit "my key" = lit "my key" /\ lit "s3cr*t" = lit "s3cr*t".
Proof.
  apply (credentials_text_injective (lit "my key") (lit "s3cr*t") (lit "my key") (lit "s3cr*t")
           (lit "my%20key:s3cr%2At")); reflexivity.
Defined.

(** ** The two requests *)

Lemma trace_emit (ev : event) (w : World) : trace (emit ev w) = trace w ++ [ev].
Proof. reflexivity. Qed.

Lemma ok_bounds (r : response) : ok r = true <-> 200 <= status r < 300.
Proof.
  unfold ok. rewrite andb_true_iff, N.leb_le, N.ltb_lt. tauto.
Qed.



(** X8.  [getTweetBatch] returns exactly when the status is one of
    200..299 and the body is JSON: it returns the body as it is and writes
    nothing on the error console.  In every other case it writes one line
    with the query and the exception on the error console, as the last
    thing it does, and throws that exception.  Either way it has made one
    request; it touches no file and sets no timeout. *)
Theorem getTweetBatch_outcome (token : jsvalue) (url query : jsstring)
    (fromDate maxResults next : jsvalue) (w : World) :
  let out := getTweetBatch token url query fromDate maxResults next w in
  let o := network w (fetches w) in
  let asked := [EDebug (lit " getTweetBatch - url:" ++ url ++ lit ", query:" ++ query);
                EFetch url (batch_request token query fromDate maxResults next)] in
  (forall batch, fst out = inr batch <->
     (exists resp, o = Responded resp /\ 200 <= status resp < 300 /\ json resp = inr batch)) /\
  (forall batch, fst out = inr batch -> trace (snd out) = trace w ++ asked) /\
  (forall e, fst out = inl e ->
     batch_failure o = Some e /\
     trace (snd out) = trace w ++ asked ++ [EError (batch_error_line query e)]) /\
  files (snd out) = files w /\ network (snd out) = network w /\
  fetches (snd out) = S (fetches w).
Proof.
  intros out o asked. unfold out, asked. rewrite getTweetBatch_run. fold o.
  unfold batch_failure.
  destruct o as [e|resp] eqn:Ho.
  - cbn [fst snd]. split; [intros b; split; [intros [=] | intros (r & [=] & _)]|].
    split; [discriminate|]. split.
    { intros e' [= <-]. split; [reflexivity|]. rewrite !trace_emit, <- !app_assoc. reflexivity. }
    split; [reflexivity|]. split; [reflexivity|]. rewrite !fetches_emit. reflexivity.
  - destruct (ok resp) eqn:Hok.
    + destruct (json resp) as [e|j] eqn:Hj; cbn [fst snd].
      * split; [intros b; split; [intros [=] | intros (r & [= <-] & _ & Hj'); congruence]|].
        split; [discriminate|]. split.
        { intros e' [= <-]. split; [reflexivity|].
          rewrite !trace_emit, <- !app_assoc. reflexivity. }
        split; [reflexivity|]. split; [reflexivity|]. rewrite !fetches_emit. reflexivity.
      * split.
        { intros b. split.
          - intros [= <-]. exists resp. repeat split; auto; apply ok_bounds, Hok.
          - intros (r & [= <-] & _ & Hj'). congruence. }
        split.
        { intros b _. rewrite !trace_emit, <- !app_assoc. reflexivity. }
        split; [discriminate|].
        split; [reflexivity|]. split; [reflexivity|]. rewrite !fetches_emit. reflexivity.
    + cbn [fst snd]. split.
      { intros b. split; [intros [=] | intros (r & [= <-] & Hb & _)].
        apply ok_bounds in Hb. congruence. }
      split; [discriminate|]. split.
      { intros e' [= <-]. split; [reflexivity|].
        rewrite !trace_emit, <- !app_assoc. reflexivity. }
      split; [reflexivity|]. split; [reflexivity|]. rewrite !fetches_emit. reflexivity.
Qed.

Lemma getTweetBatch_outcome_witness :
  batch_failure (Rejected connection_refused) = Some connection_refused /\
  trace (snd (getTweetBatch (JStr (lit "AAAAAAAA")) sample_url sample_query sample_fromDate
                (JNum 100) JNull (initial_world (fun _ => Rejected connection_refused))))
  = [] ++ [EDebug (lit " getTweetBatch - url:" ++ sample_url ++ lit ", query:" ++ sample_query);
           EFetch sample_url (batch_request (JStr (lit "AAAAAAAA")) sample_query
                                sample_fromDate (JNum 100) JNull)]
       ++ [EError (batch_error_line sample_query connection_refused)].
Proof.
  destruct (getTweetBatch_outcome (JStr (lit "AAAAAAAA")) sample_url sample_query
              sample_fromDate (JNum 100) JNull
              (initial_world (fun _ => Rejected connection_refused)))
    as (_ & _ & H & _).
  exact (H connection_refused eq_refl).
Defined.

(** ** Reading a file *)




(** ** The log of a run *)

Lemma continues_turn (o : fetch_outcome) :
  continues o = true <-> turn_failure o = None /\ truthy (cursor_of o) = true.
Proof.
  unfold continues, turn_failure, batch_failure, items_failure, cursor_of.
  destruct o as [e|r]; [split; [discriminate | intros [[=] _]]|].
  destruct (ok r); [|split; [discriminate | intros [[=] _]]].
  destruct (json r) as [e|[t|items nx]]; cbn [andb push_batch snd next_of].
  - split; [discriminate | intros [[=] _]].
  - split; [discriminate | intros [[=] _]].
  - destruct (snd (push_results items [])) as [e|u].
    + rewrite andb_false_r. split; [discriminate | intros [[=] _]].
    + rewrite andb_true_r. split; [auto | intros [_ H]; exact H].
Qed.


(** What the loop has done when it ends: the turns of the outcomes it has
    used, all of which but the last made it go round again. *)
Lemma do_while_trace (token : jsvalue) (url query : jsstring) (fromDate maxResults : jsvalue)
    (fuel : nat) :
  forall (next : jsvalue) (tweets : list jsvalue) (w : World)
         (tweets' : list jsvalue) (r : exn + unit) (w' : World),
  do_while fuel token url query fromDate maxResults next tweets w = Some (tweets', r, w') ->
  trace w' = trace w ++ loop_events token url query fromDate maxResults next
                          (outcomes w (fetches w) (fetches w')) /\
  (fetches w < fetches w')%nat /\
  (forall k, (fetches w <= k)%nat -> (S k < fetches w')%nat ->
             continues (network w k) = true) /\
  continues (network w (pred (fetches w'))) = false /\
  r = match turn_failure (network w (pred (fetches w'))) with
      | Some e => inl e
      | None => inr tt
      end.
Proof.
  induction fuel as [|fuel IH]; intros next tweets w tweets' r w' H; [discriminate|].
  cbn [do_while] in H. rewrite getTweetBatch_run in H.
  set (d := EDebug _) in H. set (f := EFetch _ _) in H.
  assert (Hone : forall tail w2,
            trace w2 = trace w ++
              page_events token url query fromDate maxResults next (network w (fetches w))
              ++ tail ->
            fetches w2 = S (fetches w) -> tail = [] ->
            trace w2 = trace w ++ loop_events token url query fromDate maxResults next
                                    (outcomes w (fetches w) (fetches w2))).
  { intros tail w2 T F ->. rewrite F, outcomes_cons, outcomes_nil by lia.
    cbn [loop_events]. exact T. }
  assert (Hstop : forall w2 e,
            fetches w2 = S (fetches w) ->
            turn_failure (network w (fetches w)) = Some e ->
            (fetches w < fetches w2)%nat /\
            (forall k, (fetches w <= k)%nat -> (S k < fetches w2)%nat ->
                       continues (network w k) = true) /\
            continues (network w (pred (fetches w2))) = false /\
            @inl exn unit e = match turn_failure (network w (pred (fetches w2))) with
                              | Some e => inl e
                              | None => inr tt
                              end).
  { intros w2 e F T. rewrite F. cbn [pred]. rewrite T.
    split; [lia|]. split; [intros; lia|]. split; [|reflexivity].
    destruct (continues (network w (fetches w))) eqn:C; [|reflexivity].
    apply continues_turn in C as [C _]. congruence. }
  unfold page_events, turn_failure, batch_failure, items_failure in *.
  fold d in Hone. fold f in Hone.
  destruct (network w (fetches w)) as [e|resp] eqn:Hn.
  { injection H as <- <- <-. split; [|apply Hstop; [rewrite !fetches_emit; reflexivity | reflexivity]].
    apply (Hone []); [|rewrite !fetches_emit; reflexivity | reflexivity].
    rewrite !trace_emit, <- !app_assoc. reflexivity. }
  destruct (ok resp) eqn:Hok.
  2:{ injection H as <- <- <-. split; [|apply Hstop; [rewrite !fetches_emit; reflexivity | reflexivity]].
      apply (Hone []); [|rewrite !fetches_emit; reflexivity | reflexivity].
      rewrite !trace_emit, <- !app_assoc. reflexivity. }
  destruct (json resp) as [e|batch] eqn:Hj.
  { injection H as <- <- <-. split; [|apply Hstop; [rewrite !fetches_emit; reflexivity | reflexivity]].
    apply (Hone []); [|rewrite !fetches_emit; reflexivity | reflexivity].
    rewrite !trace_emit, <- !app_assoc. reflexivity. }
  rewrite push_batch_app in H.
  destruct (snd (push_batch batch [])) as [e|[]] eqn:P.
  { injection H as <- <- <-. split; [|apply Hstop; [rewrite !fetches_emit; reflexivity | reflexivity]].
    apply (Hone []); [|rewrite !fetches_emit; reflexivity | reflexivity].
    rewrite !trace_emit, <- !app_assoc. reflexivity. }
  set (w2 := snd (rateLimiter 3 (emit f (emit d w)))) in H.
  assert (T2 : trace w2 = trace w ++ [d; f; EDebug (lit " rateLimiter - sec:3"); ETimeout 3000]).
  { unfold w2, rateLimiter, bind, console_debug. cbn [snd].
    rewrite !trace_emit, <- !app_assoc. reflexivity. }
  assert (F2 : fetches w2 = S (fetches w)).
  { unfold w2, rateLimiter, bind, console_debug. cbn [snd].
    rewrite !fetches_emit. reflexivity. }
  assert (N2 : network w2 = network w) by reflexivity.
  assert (Hc : continues (network w (fetches w)) = truthy (next_of batch)).
  { unfold continues. rewrite Hn, Hok, Hj. destruct batch as [t|items nx]; [discriminate|].
    cbn [push_batch next_of] in *. rewrite P. cbn [andb]. apply andb_true_r. }
  destruct (truthy (next_of batch)) eqn:T.
  - apply IH in H as (Tr & Lt & Cont & Last & R). rewrite F2, N2 in *.
    split; [|split; [lia|split; [|split]]].
    + rewrite Tr, T2, (outcomes_cons w (fetches w)) by lia. cbn [loop_events].
      unfold page_events, batch_failure, items_failure, cursor_of.
      rewrite Hn, Hok, Hj, P, (outcomes_network w w2) by exact N2.
      rewrite <- !app_assoc. reflexivity.
    + intros k Hk1 Hk2. destruct (Nat.eq_dec k (fetches w)) as [->|Nk]; [exact Hc|].
      apply Cont; lia.
    + exact Last.
    + exact R.
  - assert (Ew : w' = w2) by congruence. assert (Er : r = inr tt) by congruence.
    subst w' r. split.
    { apply (Hone []); [|exact F2 | reflexivity].
      rewrite T2, ?Hn, ?Hok, ?Hj, ?P. reflexivity. }
    rewrite F2. cbn [pred]. rewrite Hn, Hok, Hj, P.
    split; [lia|split; [intros; lia|split; [rewrite <- Hn; exact Hc | reflexivity]]].
Qed.

Lemma fetches_written (tweets : list jsvalue) (w : World) :
  fetches (written tweets w) = fetches w.
Proof.
  unfold fetches, written. cbn [trace]. rewrite fetch_calls_app. cbn [fetch_calls].
  rewrite app_nil_r. reflexivity.
Qed.

(** A finished run of [search], event by event. *)
Lemma search_trace (fuel : nat) (url query : jsstring) (fromDate maxResults : jsvalue)
    (w : World) (r : exn + Z) (w' : World) :
  search fuel url query fromDate maxResults w = Some (r, w') ->
  let o := network w (fetches w) in
  let pages := outcomes w (S (fetches w)) (fetches w') in
  trace w' = trace w ++ search_events (basic_credentials w) url query fromDate maxResults
                          o pages r /\
  r = search_result o (network w (pred (fetches w'))) (flat_map page_tweets pages) /\
  (fetches w < fetches w')%nat /\
  (token_failure o <> None <-> fetches w' = S (fetches w)) /\
  (forall k, (S (fetches w) <= k)%nat -> (S k < fetches w')%nat ->
             continues (network w k) = true) /\
  (token_failure o = None -> continues (network w (pred (fetches w'))) = false).
Proof.
  rewrite search_unfold, search_try_unfold, getTwitterToken_run, fetches_emit.
  intros H o pages. cbn [network emit basic_credentials] in H.
  set (d := EDebug (lit " search - url:" ++ url ++ lit ", query:" ++ query)) in H.
  set (dt := EDebug (lit " getTwitterToken - url:" ++ AUTH_URL)) in H.
  set (ft := EFetch AUTH_URL _) in H. fold o in H.
  unfold search_events, search_result. fold d dt ft.
  assert (Hfail : forall e, token_failure o = Some e ->
            Some (@inl exn Z e,
                  written [] (emit (EError (search_error_line url query e))
                                (emit (EError (token_error_line AUTH_URL e))
                                   (emit ft (emit dt (emit d w))))))
            = Some (r, w') ->
            trace w' = trace w ++ [d; dt; ft] ++ [EError (token_error_line AUTH_URL e)]
                         ++ match r with
                            | inl e => [EError (search_error_line url query e)]
                            | inr _ => []
                            end
                         ++ [EWriteFile OUTFILE (tweets_text (flat_map page_tweets pages))] /\
            r = inl e /\ (fetches w < fetches w')%nat /\
            (Some e <> None <-> fetches w' = S (fetches w)) /\
            (forall k, (S (fetches w) <= k)%nat -> (S k < fetches w')%nat ->
                       continues (network w k) = true) /\
            (Some e = None -> continues (network w (pred (fetches w'))) = false)).
  { intros e Ht E. injection E as <- Ew.
    assert (F : fetches w' = S (fetches w)).
    { rewrite <- Ew, fetches_written, !fetches_emit. reflexivity. }
    unfold pages. rewrite F, outcomes_nil. cbn [flat_map].
    split; [|split; [reflexivity|split; [lia|split; [|split; [intros; lia|discriminate]]]]].
    - rewrite <- Ew. unfold written. cbn [trace]. rewrite !trace_emit, <- !app_assoc.
      reflexivity.
    - split; [auto | discriminate]. }
  unfold token_failure, token_of in *.
  destruct o as [e|resp] eqn:Ho; [cbn [fst snd] in H; apply (Hfail e eq_refl H)|].
  destruct (ok resp) eqn:Hok; [|cbn [fst snd] in H; apply (Hfail _ eq_refl H)].
  destruct (json resp) as [e|j] eqn:Hj; [cbn [fst snd] in H; apply (Hfail e eq_refl H)|].
  clear Hfail. cbn [fst snd] in H.
  set (w1 := emit ft (emit dt (emit d w))) in H.
  assert (F1 : fetches w1 = S (fetches w)) by (unfold w1; rewrite !fetches_emit; reflexivity).
  assert (T1 : trace w1 = trace w ++ [d; dt; ft]).
  { unfold w1. rewrite !trace_emit, <- !app_assoc. reflexivity. }
  assert (N1 : network w1 = network w) by reflexivity.
  destruct (do_while fuel (access_token_of j) url query fromDate maxResults JNull [] w1)
    as [[[tweets' rr] w2]|] eqn:D; [|discriminate].
  pose proof (do_while_spec _ _ _ _ _ _ _ _ _ _ _ _ D) as (_ & _ & _ & Tw & _).
  apply do_while_trace in D as (Tr & Lt & Cont & Last & R).
  rewrite F1, N1, (outcomes_network w w1) in * by exact N1. cbn [app] in Tw.
  assert (Hw : fetches w' = fetches w2).
  { destruct rr as [e|u]; injection H as <- <-;
      rewrite fetches_written, ?fetches_emit; reflexivity. }
  unfold pages. rewrite Hw. rewrite <- Tw.
  split; [|split; [|split; [lia|split; [|split; [exact Cont | intros _; exact Last]]]]].
  - destruct rr as [e|u]; injection H as <- <-; unfold written; cbn [trace];
      rewrite ?trace_emit, Tr, T1, <- !app_assoc; reflexivity.
  - destruct (turn_failure (network w (pred (fetches w2)))) as [e|]; subst rr;
      injection H as <- _; reflexivity.
  - split; [intros X; exfalso; apply X; reflexivity | intros X; lia].
Qed.

(** X10.  The whole of what a finished run of [search] does to the outside,
    in order: its debug line, the debug line and the request of
    [getTwitterToken], then either the error line of [getTwitterToken] or
    the turns of the loop (per page a debug line and a request, followed by
    the error line of [getTweetBatch] when the request failed, by nothing
    when an item was rejected, by the debug line and the timeout of
    [rateLimiter] otherwise), then the error line of [search] when the run
    failed, and last the write of the result file.  The result is the
    exception of the token request, or that of the last turn, or the number
    of tweets. *)
Theorem search_log (fuel : nat) (url query : jsstring) (fromDate maxResults : jsvalue)
    (w : World) (r : exn + Z) (w' : World) :
  search fuel url query fromDate maxResults w = Some (r, w') ->
  let o := network w (fetches w) in
  let pages := outcomes w (S (fetches w)) (fetches w') in
  trace w' = trace w ++ search_events (basic_credentials w) url query fromDate maxResults
                          o pages r /\
  r = search_result o (network w (pred (fetches w'))) (flat_map page_tweets pages).
Proof.
  intros H o pages.
  destruct (search_trace _ _ _ _ _ _ _ _ H) as (T & R & _). split; assumption.
Qed.

Lemma search_log_witness :
  exists w',
    search 3 sample_url sample_query sample_fromDate (JNum 100) line_drops_world
      = Some (inl connection_refused, w') /\
    trace w'
    = [EDebug (lit " search - url:" ++ sample_url ++ lit ", query:" ++ sample_query);
       EDebug (lit " getTwitterToken - url:" ++ AUTH_URL);
       EFetch AUTH_URL (token_request (lit "a2V5OnNlY3JldA=="));
       EDebug (lit " getTweetBatch - url:" ++ sample_url ++ lit ", query:" ++ sample_query);
       EFetch sample_url (batch_request (JStr (lit "AAAAAAAA")) sample_query sample_fromDate
                            (JNum 100) JNull);
       EDebug (lit " rateLimiter - sec:3");
       ETimeout 3000;
       EDebug (lit " getTweetBatch - url:" ++ sample_url ++ lit ", query:" ++ sample_query);
       EFetch sample_url (batch_request (JStr (lit "AAAAAAAA")) sample_query sample_fromDate
                            (JNum 100) (JStr (lit "abc")));
       EError (batch_error_line sample_query connection_refused);
       EError (search_error_line sample_url sample_query connection_refused);
       EWriteFile OUTFILE (tweets_text [long_tweet; hello_tweet])].
Proof.
  eexists. split; [vm_compute; reflexivity|].
  match goal with
  | |- trace ?w1 = _ =>
      pose proof (search_log 3 sample_url sample_query sample_fromDate (JNum 100)
                    line_drops_world (inl connection_refused) w1 eq_refl) as [T _]
  end.
  rewrite T. vm_compute. reflexivity.
Defined.

Lemma waits_quiet (tail : list event) :
  Forall (fun ev => match ev with EFetch _ _ | ETimeout _ => False | _ => True end) tail ->
  waits tail = [[]].
Proof.
  induction 1 as [|ev tail Hev _ IH]; [reflexivity|].
  cbn [waits]. rewrite IH. destruct ev; tauto || reflexivity.
Qed.

(** After each turn of the loop that did not fail there is one timeout of
    3000 ms, after a turn that failed there is none. *)
Lemma waits_loop_events (token : jsvalue) (url query : jsstring)
    (fromDate maxResults : jsvalue) (tail : list event) (os : list fetch_outcome) :
  waits tail = [[]] ->
  forall next,
  waits (loop_events token url query fromDate maxResults next os ++ tail)
  = [] :: map (fun o => match turn_failure o with
                        | Some _ => []
                        | None => [3000%Z]
                        end) os.
Proof.
  intros Ht. induction os as [|o os IH]; intros next; [exact Ht|].
  cbn [loop_events map]. unfold page_events, turn_failure.
  rewrite <- !app_assoc.
  destruct (batch_failure o) as [e|]; [|destruct (items_failure o) as [e|]];
    cbn [app waits]; rewrite IH; reflexivity.
Qed.

Lemma outcomes_snoc (w : World) (from n : nat) :
  outcomes w from (S (from + n)) = outcomes w from (from + n) ++ [network w (from + n)%nat].
Proof.
  unfold outcomes.
  replace (S (from + n) - from)%nat with (S n) by lia.
  replace (from + n - from)%nat with n by lia.
  rewrite seq_S, map_app. reflexivity.
Qed.

Lemma map_outcomes_repeat {A : Type} (f : fetch_outcome -> A) (c : A) (w : World)
    (from n : nat) :
  (forall k, (from <= k)%nat -> (k < from + n)%nat -> f (network w k) = c) ->
  map f (outcomes w from (from + n)) = repeat c n.
Proof.
  induction n as [|n IH]; intros H.
  - rewrite Nat.add_0_r, outcomes_nil. reflexivity.
  - replace (from + S n)%nat with (S (from + n)) by lia.
    rewrite outcomes_snoc, map_app, IH by (intros; apply H; lia).
    cbn [map]. rewrite H by lia. symmetry. apply repeat_cons.
Qed.

(** X11.  The pacing of a run of [search]: no timeout before the token
    request nor between it and the first page request; exactly one timeout,
    of 3000 ms, between two page requests that follow each other; after the
    last page request one timeout of 3000 ms when the run succeeds and none
    when it fails. *)
Theorem search_waits (fuel : nat) (url query : jsstring) (fromDate maxResults : jsvalue)
    (w : World) (r : exn + Z) (w' : World) :
  search fuel url query fromDate maxResults w = Some (r, w') ->
  exists evs,
    trace w' = trace w ++ evs /\
    waits evs
    = [] :: match (fetches w' - S (fetches w))%nat with
            | O => [[]]
            | S between =>
                [] :: repeat [3000%Z] between
                  ++ [match r with
                      | inr _ => [3000%Z]
                      | inl _ => []
                      end]
            end.
Proof.
  intros H.
  destruct (search_trace _ _ _ _ _ _ _ _ H) as (T & R & Lt & Tok & Cont & Last).
  eexists. split; [exact T|]. unfold search_events.
  set (tail := match r with inl e => _ | inr _ => [] end ++ [EWriteFile _ _]).
  assert (Hq : waits tail = [[]]).
  { apply waits_quiet. unfold tail. destruct r; repeat constructor. }
  cbn [app waits]. f_equal.
  unfold search_result in R.
  destruct (token_failure (network w (fetches w))) as [e|] eqn:Ht.
  - rewrite (proj1 Tok) by discriminate.
    rewrite Nat.sub_diag. cbn [app waits]. rewrite Hq. reflexivity.
  - assert (Hn : fetches w' <> S (fetches w)).
    { intros E. apply Tok in E. apply E. reflexivity. }
    rewrite waits_loop_events by exact Hq. f_equal.
    destruct (fetches w' - S (fetches w))%nat as [|between] eqn:Hb; [lia|].
    replace (fetches w') with (S (S (fetches w) + between)) in * by lia.
    cbn [pred] in *. rewrite outcomes_snoc, map_app. cbn [map].
    rewrite (map_outcomes_repeat _ [3000%Z]).
    + destruct (turn_failure (network w (S (fetches w) + between))); subst r; reflexivity.
    + intros k Hk1 Hk2.
      destruct (proj1 (continues_turn _) (Cont k Hk1 ltac:(lia))) as [-> _]. reflexivity.
Qed.

Lemma search_waits_witness :
  exists w' evs,
    search 3 sample_url sample_query sample_fromDate (JNum 100) two_pages_world
      = Some (inr 3%Z, w') /\
    trace w' = evs /\ waits evs = [[]; []; [3000%Z]; [3000%Z]].
Proof.
  eexists. 
  match goal with
  | |- exists evs, _ = Some (_, ?w1) /\ _ =>
      assert (E : search 3 sample_url sample_query sample_fromDate (JNum 100) two_pages_world
                  = Some (inr 3%Z, w1)) by (vm_compute; reflexivity);
      destruct (search_waits 3 sample_url sample_query sample_fromDate (JNum 100)
                  two_pages_world (inr 3%Z) w1 E) as (evs & T & W)
  end.
  exists evs. split; [exact E|]. split; [exact T | exact W].
Defined.

(** ** The token request *)

(** When the token request fails, [search] ends whatever the bound: the
    loop is not entered. *)
Lemma search_without_token (fuel : nat) (url query : jsstring) (fromDate maxResults : jsvalue)
    (w : World) (e : exn) :
  token_failure (network w (fetches w)) = Some e ->
  search fuel url query fromDate maxResults w
  = Some (inl e,
          written []
            (emit (EError (search_error_line url query e))
               (emit (EError (token_error_line AUTH_URL e))
                  (emit (EFetch AUTH_URL (token_request (basic_credentials w)))
                     (emit (EDebug (lit " getTwitterToken - url:" ++ AUTH_URL))
                        (emit (EDebug (lit " search - url:" ++ url ++ lit ", query:" ++ query))
                           w)))))).
Proof.
  intros H. rewrite search_unfold, search_try_unfold, getTwitterToken_run, fetches_emit.
  cbn [network emit basic_credentials]. unfold token_failure in H.
  destruct (network w (fetches w)) as [e'|resp].
  - injection H as ->. reflexivity.
  - destruct (ok resp).
    + destruct (json resp) as [e'|j]; [|discriminate]. injection H as ->. reflexivity.
    + injection H as <-. reflexivity.
Qed.

(** X12.  When the token request fails (the network rejects it, the status
    is not 2xx, or the body is not JSON), [search] makes no search request:
    the token request is its only call of [fetch]; the failure is logged by
    [getTwitterToken] and again by [search], the result file is written
    with an empty array, replacing what it held, and the caller gets the
    exception of the token request. *)
Theorem search_token_failure (fuel : nat) (url query : jsstring)
    (fromDate maxResults : jsvalue) (w : World) (e : exn) :
  token_failure (network w (fetches w)) = Some e ->
  exists w',
    search fuel url query fromDate maxResults w = Some (inl e, w') /\
    fetch_calls (trace w')
    = fetch_calls (trace w) ++ [(AUTH_URL, token_request (basic_credentials w))] /\
    trace w'
    = trace w ++ [EDebug (lit " search - url:" ++ url ++ lit ", query:" ++ query);
                  EDebug (lit " getTwitterToken - url:" ++ AUTH_URL);
                  EFetch AUTH_URL (token_request (basic_credentials w));
                  EError (token_error_line AUTH_URL e);
                  EError (search_error_line url query e);
                  EWriteFile OUTFILE (lit "[]")] /\
    files w' = <[OUTFILE := lit "[]"]> (files w).
Proof.
  intros H. eexists. split; [apply search_without_token, H|].
  unfold written. cbn [trace files emit].
  split; [|split; [|reflexivity]].
  - rewrite !fetch_calls_app. cbn [fetch_calls]. rewrite !app_nil_r. reflexivity.
  - rewrite <- !app_assoc. reflexivity.
Qed.

Lemma search_token_failure_witness :
  exists w',
    search 0 sample_url sample_query sample_fromDate (JNum 100) not_found_world
      = Some (inl (JsError (lit "response status: 404")), w') /\
    files w' !! OUTFILE = Some (lit "[]") /\
    length (fetch_calls (trace w')) = 1%nat.
Proof.
  destruct (search_token_failure 0 sample_url sample_query sample_fromDate (JNum 100)
              not_found_world (JsError (lit "response status: 404")) eq_refl)
    as (w' & S & C & _ & F).
  exists w'. split; [exact S|]. split.
  - rewrite F. apply lookup_insert_eq.
  - rewrite C. reflexivity.
Defined.

(** X13.  [search] does not look at the token it gets: whatever
    [access_token] a 2xx answer of the token endpoint carries, the first
    search request is made, with the cursor [null] and the header
    [Authorization: Bearer <token as text>]; for a body without
    [access_token] the header reads [Bearer undefined]. *)
Theorem search_sends_any_token (fuel : nat) (url query : jsstring)
    (fromDate maxResults : jsvalue) (w : World) (r : exn + Z) (w' : World)
    (resp : response) (j : json_body) :
  search fuel url query fromDate maxResults w = Some (r, w') ->
  network w (fetches w) = Responded resp -> ok resp = true -> json resp = inr j ->
  let sent := batch_request (access_token_of j) query fromDate maxResults JNull in
  fetch_calls (trace w') !! S (fetches w) = Some (url, sent) /\
  headers sent = [(lit "Authorization", lit "Bearer " ++ to_string (access_token_of j))] /\
  (access_token_of j = JUndefined ->
   headers sent = [(lit "Authorization", lit "Bearer undefined")]).
Proof.
  intros H Hn Ho Hj sent.
  destruct (search_spec _ _ _ _ _ _ _ _ H) as (_ & _ & _ & _ & _ & _ & _ & _ & _ & _ & Tok).
  assert (Lt : (S (fetches w) < fetches w')%nat).
  { apply Tok. unfold batch_failure. rewrite Hn, Ho, Hj. reflexivity. }
  split; [|split; [reflexivity | intros E; unfold sent; rewrite E; reflexivity]].
  rewrite (search_calls _ _ _ _ _ _ _ _ H Lt).
  rewrite lookup_app_r by (unfold fetches; lia).
  replace (S (fetches w) - length (fetch_calls (trace w)))%nat with 1%nat
    by (unfold fetches; lia).
  cbn [map lookup list_lookup]. unfold token_of. rewrite Hn, Hj. reflexivity.
Qed.

Lemma search_sends_any_token_witness :
  exists w',
    search 3 sample_url sample_query sample_fromDate (JNum 100) tokenless_world
      = Some (inr 1%Z, w') /\
    fetch_calls (trace w') !! 1%nat
    = Some (sample_url,
            {| method := lit "POST";
               headers := [(lit "Authorization", lit "Bearer undefined")];
               body := Some (lit "{" ++ quote (lit "query") ++ lit ":" ++ quote sample_query
                               ++ lit "," ++ quote (lit "fromDate") ++ lit ":"
                               ++ quote (lit "201910010000") ++ lit ","
                               ++ quote (lit "maxResults") ++ lit ":100}") |}).
Proof.
  eexists. split; [vm_compute; reflexivity|].
  match goal with
  | |- fetch_calls (trace ?w1) !! _ = _ =>
      destruct (search_sends_any_token 3 sample_url sample_query sample_fromDate (JNum 100)
                  tokenless_world (inr 1%Z) w1
                  {| status := 200; json := inr (TokenJson JUndefined) |}
                  (TokenJson JUndefined) eq_refl eq_refl eq_refl eq_refl) as (S & _ & _)
  end.
  exact S.
Defined.

(** ** The end of a run *)

(** X14.  [search] has no bound on the number of pages of its own.  A run
    ends exactly when the token request fails or some page request has an
    outcome that does not make the loop go round again (a failure, a
    rejected item, or a page whose [next] is falsy); it then ends the same
    way under every larger bound.  When the token arrives and every page
    has a truthy [next] and items that are all normalized, the run ends
    under no bound at all. *)
Theorem search_ends_iff (url query : jsstring) (fromDate maxResults : jsvalue) (w : World) :
  ((exists fuel x, search fuel url query fromDate maxResults w = Some x) <->
   (token_failure (network w (fetches w)) <> None \/
    exists k, continues (network w (S (fetches w) + k)) = false)) /\
  (forall fuel fuel' x,
     search fuel url query fromDate maxResults w = Some x -> (fuel <= fuel')%nat ->
     search fuel' url query fromDate maxResults w = Some x) /\
  (token_failure (network w (fetches w)) = None ->
   (forall k, continues (network w (S (fetches w) + k)) = true) ->
   forall fuel, search fuel url query fromDate maxResults w = None).
Proof.
  assert (Hto : forall fuel x, search fuel url query fromDate maxResults w = Some x ->
            token_failure (network w (fetches w)) <> None \/
            exists k, continues (network w (S (fetches w) + k)) = false).
  { intros fuel [r w'] H.
    destruct (search_trace _ _ _ _ _ _ _ _ H) as (_ & _ & Lt & Tok & _ & Last).
    destruct (token_failure (network w (fetches w))) as [e|] eqn:Ht.
    - left. discriminate.
    - right. exists (fetches w' - S (S (fetches w)))%nat.
      assert (Hn : fetches w' <> S (fetches w)).
      { intros E. apply Tok in E. apply E. reflexivity. }
      replace (S (fetches w) + (fetches w' - S (S (fetches w))))%nat
        with (pred (fetches w')) by lia.
      apply Last. reflexivity. }
  split; [split|split].
  - intros (fuel & x & H). exact (Hto fuel x H).
  - intros [Ht | [k Hk]].
    + destruct (token_failure (network w (fetches w))) as [e|] eqn:E; [|congruence].
      exists 0%nat. eexists. apply search_without_token, E.
    + exists (S k). apply search_ends, Hk.
  - intros fuel fuel' x H Hle. induction Hle as [|m _ IH]; [exact H|].
    apply search_more_fuel, IH.
  - intros Ht Hall fuel.
    destruct (search fuel url query fromDate maxResults w) as [x|] eqn:H; [|reflexivity].
    destruct (Hto fuel x H) as [C | [k Hk]]; [congruence|].
    rewrite Hall in Hk. discriminate.
Qed.

Lemma search_ends_iff_witness :
  search 5 sample_url sample_query sample_fromDate (JNum 100) endless_world = None.
Proof.
  apply (proj2 (proj2 (search_ends_iff sample_url sample_query sample_fromDate (JNum 100)
                         endless_world))).
  - reflexivity.
  - intros k. reflexivity.
Defined.

(** ** The result file after a run *)

Lemma tweet_objects_map (tweets : list jsvalue) :
  Forall (fun t => exists text created, t = tweet_object text (JStr created)) tweets ->
  exists l : list (jsstring * jsstring),
    tweets = map (fun t => tweet_object (fst t) (JStr (snd t))) l.
Proof.
  induction 1 as [|t rest (text & created & ->) _ (l & ->)].
  - exists []. reflexivity.
  - exists ((text, created) :: l). reflexivity.
Qed.

(** X15.  [readTweetFile] after [search]: when the tweets a finished run
    has pushed have strings as their timestamps, reading the result file
    gives back those very tweets in order, whether the run returned a count
    or threw; after a run that returned a count, as many tweets as it
    counted. *)
Theorem search_then_readTweetFile (fuel : nat) (url query : jsstring)
    (fromDate maxResults : jsvalue) (w : World) (r : exn + Z) (w' : World) :
  search fuel url query fromDate maxResults w = Some (r, w') ->
  let tweets := flat_map page_tweets (outcomes w (S (fetches w)) (fetches w')) in
  Forall (fun t => exists text created, t = tweet_object text (JStr created)) tweets ->
  readTweetFile OUTFILE w' = (inr (JArr tweets), w') /\
  (forall n, r = inr n -> n = Z.of_nat (length tweets)).
Proof.
  intros H tweets Hs.
  destruct (search_spec _ _ _ _ _ _ _ _ H) as (evs & _ & _ & _ & F & _ & Ok & _).
  fold tweets in F. split; [|intros n Hn; apply (Ok n Hn)].
  unfold readTweetFile, bind, readFile, lift. rewrite F, lookup_insert_eq.
  rewrite tweets_text_stored.
  destruct (tweet_objects_map tweets Hs) as [l ->].
  rewrite JSON_parse_tweets_text. reflexivity.
Qed.

Lemma search_then_readTweetFile_witness :
  exists w',
    search 3 sample_url sample_query sample_fromDate (JNum 100) two_pages_world
      = Some (inr 3%Z, w') /\
    readTweetFile OUTFILE w' = (inr (JArr [long_tweet; hello_tweet; reply_tweet]), w').
Proof.
  eexists. split; [vm_compute; reflexivity|].
  match goal with
  | |- readTweetFile _ ?w1 = _ =>
      destruct (search_then_readTweetFile 3 sample_url sample_query sample_fromDate
                  (JNum 100) two_pages_world (inr 3%Z) w1 eq_refl) as [R _]
  end.
  - repeat constructor; eexists; eexists; reflexivity.
  - exact R.
Defined.

(** ** What a run has pushed and logged *)

Lemma push_results_normalized (items : list jsvalue) :
  snd (push_results items []) = inr tt ->
  Forall2 (fun item tweet => normalize item = inr tweet) items (fst (push_results items [])).
Proof.
  induction items as [|item rest IH]; [constructor|]. cbn [push_results].
  destruct (normalize item) as [e|tweet] eqn:Hn; [discriminate|].
  rewrite push_results_app. cbn [fst snd app]. intros H.
  constructor; [exact Hn | apply IH, H].
Qed.

Lemma outcomes_in (w : World) (from to : nat) (o : fetch_outcome) :
  In o (outcomes w from to) -> exists k, (from <= k < to)%nat /\ o = network w k.
Proof.
  unfold outcomes. intros H. apply in_map_iff in H as (k & <- & Hk).
  apply in_seq in Hk. exists k. split; [lia | reflexivity].
Qed.

(** X16.  What a successful run has written: one tweet for each item of
    each page received, in the order of the pages and of their items, each
    tweet being what the normalizer makes of its item; the count returned
    is the number of items received. *)
Theorem search_tweets_in_order (fuel : nat) (url query : jsstring)
    (fromDate maxResults : jsvalue) (w : World) (n : Z) (w' : World) :
  search fuel url query fromDate maxResults w = Some (inr n, w') ->
  let pages := outcomes w (S (fetches w)) (fetches w') in
  Forall2 (fun item tweet => normalize item = inr tweet)
    (flat_map page_items pages) (flat_map page_tweets pages) /\
  n = Z.of_nat (length (flat_map page_items pages)) /\
  files w' !! OUTFILE = Some (tweets_text (flat_map page_tweets pages)).
Proof.
  intros H pages.
  destruct (search_spec _ _ _ _ _ _ _ _ H) as (evs & _ & _ & _ & F & _ & Ok & _).
  destruct (Ok n eq_refl) as [Hn Hpages]. fold pages in F, Hn.
  assert (Hall : Forall2 (fun item tweet => normalize item = inr tweet)
                   (flat_map page_items pages) (flat_map page_tweets pages)).
  { assert (Hin : forall o, In o pages ->
              Forall2 (fun item tweet => normalize item = inr tweet)
                (page_items o) (page_tweets o)).
    { intros o Ho. apply outcomes_in in Ho as (k & Hk & ->).
      destruct (Hpages k Hk) as (resp & items & nx & Hnet & Hok & Hj & Hp).
      unfold page_items, page_tweets. rewrite Hnet, Hok, Hj. cbn [push_batch].
      apply push_results_normalized, Hp. }
    clearbody pages. clear - Hin.
    induction pages as [|o rest IH]; [constructor|]. cbn [flat_map].
    apply Forall2_app; [apply Hin; left; reflexivity|].
    apply IH. intros o' Ho'. apply Hin. right. exact Ho'. }
  split; [exact Hall|]. split.
  - rewrite Hn. f_equal. symmetry. eapply Forall2_length, Hall.
  - rewrite F, tweets_text_stored. apply lookup_insert_eq.
Qed.

Lemma search_tweets_in_order_witness :
  exists w',
    search 3 sample_url sample_query sample_fromDate (JNum 100) two_pages_world
      = Some (inr 3%Z, w') /\
    Forall2 (fun item tweet => normalize item = inr tweet)
      [JObj long_item_fields; hello_item; reply_item] [long_tweet; hello_tweet; reply_tweet].
Proof.
  eexists. split; [vm_compute; reflexivity|].
  exact (proj1 (search_tweets_in_order 3 sample_url sample_query sample_fromDate (JNum 100)
                  two_pages_world 3%Z _ eq_refl)).
Defined.

Lemma error_lines_app (a b : list event) :
  error_lines (a ++ b) = error_lines a ++ error_lines b.
Proof. apply flat_map_app. Qed.

Lemma error_lines_loop_events (token : jsvalue) (url query : jsstring)
    (fromDate maxResults : jsvalue) (os : list fetch_outcome) :
  forall next,
  error_lines (loop_events token url query fromDate maxResults next os)
  = flat_map (fun o => match batch_failure o with
                       | Some e => [batch_error_line query e]
                       | None => []
                       end) os.
Proof.
  induction os as [|o os IH]; intros next; [reflexivity|].
  cbn [loop_events flat_map]. rewrite error_lines_app, IH. f_equal.
  unfold page_events.
  destruct (batch_failure o) as [e|]; [|destruct (items_failure o)]; reflexivity.
Qed.

Lemma flat_map_outcomes_nil {A : Type} (f : fetch_outcome -> list A) (w : World)
    (from n : nat) :
  (forall k, (from <= k)%nat -> (k < from + n)%nat -> f (network w k) = []) ->
  flat_map f (outcomes w from (from + n)) = [].
Proof.
  induction n as [|n IH]; intros H.
  - rewrite Nat.add_0_r, outcomes_nil. reflexivity.
  - replace (from + S n)%nat with (S (from + n)) by lia.
    rewrite outcomes_snoc, flat_map_app, IH by (intros; apply H; lia).
    cbn [flat_map app]. rewrite H by lia. reflexivity.
Qed.

(** X17.  What a run of [search] writes on the error console: nothing when
    it succeeds; when it fails, the line of [search] with the exception,
    preceded by the line of the function in which the exception arose when
    that was [getTwitterToken] or [getTweetBatch] (so a failed request is
    reported twice), and by nothing when it arose in the loop over the
    items. *)
Theorem search_error_lines (fuel : nat) (url query : jsstring)
    (fromDate maxResults : jsvalue) (w : World) (r : exn + Z) (w' : World) :
  search fuel url query fromDate maxResults w = Some (r, w') ->
  exists evs,
    trace w' = trace w ++ evs /\
    error_lines evs
    = match r with
      | inr _ => []
      | inl e =>
          match token_failure (network w (fetches w)) with
          | Some _ => [token_error_line AUTH_URL e]
          | None =>
              match batch_failure (network w (pred (fetches w'))) with
              | Some _ => [batch_error_line query e]
              | None => []
              end
          end ++ [search_error_line url query e]
      end.
Proof.
  intros H.
  destruct (search_trace _ _ _ _ _ _ _ _ H) as (T & R & Lt & Tok & Cont & Last).
  eexists. split; [exact T|]. unfold search_events, search_result in *.
  rewrite !error_lines_app.
  change (error_lines [EDebug _; EDebug _; EFetch _ _]) with (@nil jsstring).
  change (error_lines [EWriteFile _ _]) with (@nil jsstring).
  rewrite app_nil_r. cbn [app].
  destruct (token_failure (network w (fetches w))) as [e|] eqn:Ht.
  - subst r. reflexivity.
  - assert (Hn : fetches w' <> S (fetches w)).
    { intros E. apply Tok in E. apply E. reflexivity. }
    rewrite error_lines_loop_events.
    destruct (fetches w' - S (fetches w))%nat as [|between] eqn:Hb; [lia|].
    replace (fetches w') with (S (S (fetches w) + between)) in * by lia.
    cbn [pred] in *. rewrite outcomes_snoc, flat_map_app. cbn [flat_map].
    rewrite flat_map_outcomes_nil, app_nil_r.
    2:{ intros k Hk1 Hk2.
        destruct (proj1 (continues_turn _) (Cont k Hk1 ltac:(lia))) as [C _].
        unfold turn_failure in C. destruct (batch_failure (network w k)); [discriminate|].
        reflexivity. }
    unfold turn_failure in R. cbn [app].
    destruct (batch_failure (network w (S (fetches w) + between))) as [e|].
    + subst r. reflexivity.
    + destruct (items_failure (network w (S (fetches w) + between))); subst r; reflexivity.
Qed.

Lemma search_error_lines_witness :
  exists w' evs,
    search 3 sample_url sample_query sample_fromDate (JNum 100) line_drops_world
      = Some (inl connection_refused, w') /\
    trace w' = evs /\
    error_lines evs = [batch_error_line sample_query connection_refused;
                       search_error_line sample_url sample_query connection_refused].
Proof.
  eexists.
  match goal with
  | |- exists evs, _ = Some (_, ?w1) /\ _ =>
      assert (E : search 3 sample_url sample_query sample_fromDate (JNum 100) line_drops_world
                  = Some (inl connection_refused, w1)) by (vm_compute; reflexivity);
      destruct (search_error_lines 3 sample_url sample_query sample_fromDate (JNum 100)
                  line_drops_world (inl connection_refused) w1 E) as (evs & T & L)
  end.
  exists evs. split; [exact E|]. split; [exact T | exact L].
Defined.

(** ** The request body as JSON *)













(** ** The normalizer, item by item *)

Lemma replace_marks_length (s : jsstring) :
  (length (replace_marks s) <= length s)%nat.
Proof.
  induction s as [| c | c d r IH1 IH2] using list_pair_ind.
  - reflexivity.
  - cbn [replace_marks]. destruct (c =? CR); [reflexivity|].
    destruct ((c =? LF) || (c =? AT) || (c =? HASH)); reflexivity.
  - change (replace_marks (c :: d :: r)) with
      (if c =? CR then
         (if d =? LF then SPACE :: replace_marks r else SPACE :: replace_marks (d :: r))
       else if (c =? LF) || (c =? AT) || (c =? HASH) then SPACE :: replace_marks (d :: r)
       else c :: replace_marks (d :: r)).
    destruct (c =? CR); [destruct (d =? LF)|
      destruct ((c =? LF) || (c =? AT) || (c =? HASH))]; cbn [length] in *; lia.
Qed.

Lemma replace_marks_nil (s : jsstring) : replace_marks s = [] <-> s = [].
Proof.
  split; [|intros ->; reflexivity].
  destruct s as [|c r]; [reflexivity|]. cbn [replace_marks].
  destruct (c =? CR); [destruct r as [|d r']; [|destruct (d =? LF)]; discriminate|].
  destruct ((c =? LF) || (c =? AT) || (c =? HASH)); discriminate.
Qed.

Lemma trim_start_nil (s : jsstring) :
  trim_start s = [] <-> forallb is_white_space s = true.
Proof.
  induction s as [|c r IH]; cbn [trim_start forallb]; [tauto|].
  destruct (is_white_space c); cbn [andb]; [exact IH|].
  split; discriminate.
Qed.

Lemma trim_parts (s : jsstring) :
  exists p q, s = p ++ trim s ++ q /\
              forallb is_white_space p = true /\ forallb is_white_space q = true.
Proof.
  destruct (trim_start_suffix s) as (p & Hp & Fp).
  destruct (trim_end_prefix (trim_start s)) as (q & Hq & Fq).
  exists p, q. split; [|split].
  - unfold trim. rewrite <- Hq. exact Hp.
  - apply forallb_forall. intros x Hx. rewrite List.Forall_forall in Fp. auto.
  - apply forallb_forall. intros x Hx. rewrite List.Forall_forall in Fq. auto.
Qed.

(** X19.  The text of a tweet is never longer than the text it was made
    from: trimming cuts white space off both ends and nothing else, the
    replacement puts one space for each mark (one for a carriage return
    with its line feed).  The text is empty exactly when the source held
    nothing but white space. *)
Theorem normalize_text_shrinks (s : jsstring) :
  (exists p q, s = p ++ trim s ++ q /\
               forallb is_white_space p = true /\ forallb is_white_space q = true) /\
  (length (normalize_text s) <= length (trim s) <= length s)%nat /\
  (normalize_text s = [] <-> forallb is_white_space s = true).
Proof.
  pose proof (trim_parts s) as (p & q & E & Wp & Wq).
  split; [exists p, q; auto|]. split; [split|].
  - apply replace_marks_length.
  - rewrite E at 2. rewrite !length_app. lia.
  - unfold normalize_text. rewrite replace_marks_nil. split.
    + intros H. rewrite E, H, !forallb_app, Wp, Wq. reflexivity.
    + intros H. unfold trim. apply trim_start_nil in H. rewrite H. reflexivity.
Qed.

(** X20.  When the normalizer throws: it throws nothing but a [TypeError],
    on reading [truncated] of an item that is [null] or [undefined], on
    reading [full_text] when the item is flagged as truncated and has no
    [extended_tweet], or on calling [trim] on a selected text that is not a
    string.  It returns a tweet exactly when the selected text is a string;
    an item without [created_at] is not a failure. *)
Theorem normalize_throws_type_error (item : jsvalue) :
  (forall e, normalize item = inl e ->
     (e = JsTypeError (lit "truncated") /\ (item = JUndefined \/ item = JNull)) \/
     (e = JsTypeError (lit "full_text") /\
      exists truncated ext,
        get item (lit "truncated") = inr truncated /\ truthy truncated = true /\
        get item (lit "extended_tweet") = inr ext /\ (ext = JUndefined \/ ext = JNull)) \/
     (e = JsTypeError (lit "trim") /\
      exists truncated source,
        get item (lit "truncated") = inr truncated /\
        selected_text item truncated = inr source /\ forall s, source <> JStr s)) /\
  ((exists tweet, normalize item = inr tweet) <->
   (exists truncated s,
      get item (lit "truncated") = inr truncated /\
      selected_text item truncated = inr (JStr s))).
Proof.
  assert (Hget : forall k v e, get v k = inl e ->
            e = JsTypeError k /\ (v = JUndefined \/ v = JNull)).
  { intros k v e H. destruct v; cbn [get] in H; try discriminate;
      injection H as <-; auto. }
  assert (Hsome : forall k e, item <> JUndefined -> item <> JNull ->
            get item k = inl e -> False).
  { intros k e H1 H2 H. destruct (Hget _ _ _ H) as [_ [E|E]]; auto. }
  split.
  - intros e H. unfold normalize in H.
    destruct (get item (lit "truncated")) as [e1|truncated] eqn:G1; cbn [bind_exn] in H.
    { injection H as <-. left. apply (Hget _ _ _ G1). }
    assert (N1 : item <> JUndefined) by (intros ->; discriminate).
    assert (N2 : item <> JNull) by (intros ->; discriminate).
    destruct (selected_text item truncated) as [e2|source] eqn:G2; cbn [bind_exn] in H.
    { injection H as <-. right. left. unfold selected_text in G2.
      destruct (truthy truncated) eqn:T; [|exfalso; exact (Hsome _ _ N1 N2 G2)].
      destruct (get item (lit "extended_tweet")) as [e3|ext] eqn:G3; cbn [bind_exn] in G2;
        [exfalso; exact (Hsome _ _ N1 N2 G3)|].
      destruct (Hget _ _ _ G2) as [-> Hext]. split; [reflexivity|].
      exists truncated, ext. auto. }
    destruct (call_trim source) as [e3|trimmed] eqn:G3; cbn [bind_exn] in H.
    { injection H as <-. right. right.
      destruct source; cbn [call_trim] in G3; try discriminate; injection G3 as <-;
        (split; [reflexivity|]); eexists; eexists; (split; [reflexivity|]);
        (split; [exact G2 | discriminate]). }
    destruct (get item (lit "created_at")) as [e4|created] eqn:G4; cbn [bind_exn] in H;
      [exfalso; exact (Hsome _ _ N1 N2 G4) | discriminate].
  - split.
    + intros [tweet H]. apply normalize_inv in H as (t & s & c & G1 & G2 & _).
      exists t, s. auto.
    + intros (t & s & G1 & G2). unfold normalize. rewrite G1. cbn [bind_exn].
      rewrite G2. cbn [bind_exn call_trim].
      destruct (get item (lit "created_at")) as [e|created] eqn:G4.
      * exfalso. destruct (Hget _ _ _ G4) as [_ [-> | ->]]; discriminate.
      * eexists. reflexivity.
Qed.

Lemma normalize_throws_type_error_witness :
  normalize textless_item = inl (JsTypeError (lit "trim")) /\
  (JsTypeError (lit "trim") = JsTypeError (lit "trim") /\
   exists truncated source,
     get textless_item (lit "truncated") = inr truncated /\
     selected_text textless_item truncated = inr source /\ forall s, source <> JStr s).
Proof.
  split; [reflexivity|].
  destruct (proj1 (normalize_throws_type_error textless_item) (JsTypeError (lit "trim"))
              eq_refl) as [[E _] | [[E _] | H]]; [discriminate E | discriminate E | exact H].
Defined.

(** X21.  The loop over the items of a page pushes one tweet per item, in
    the order of the items, onto what the array holds already; it stops at
    the first item the normalizer rejects, with the tweets of the items
    before it pushed; the items after it are not looked at. *)
Theorem push_results_in_order (items acc : list jsvalue) :
  (forall tweets,
     Forall2 (fun item tweet => normalize item = inr tweet) items tweets ->
     push_results items acc = (acc ++ tweets, inr tt)) /\
  (forall good tweets bad rest e,
     items = good ++ bad :: rest ->
     Forall2 (fun item tweet => normalize item = inr tweet) good tweets ->
     normalize bad = inl e ->
     push_results items acc = (acc ++ tweets, inl e)) /\
  ((exists tweets, Forall2 (fun item tweet => normalize item = inr tweet) items tweets) \/
   (exists good tweets bad rest e,
      items = good ++ bad :: rest /\
      Forall2 (fun item tweet => normalize item = inr tweet) good tweets /\
      normalize bad = inl e)).
Proof.
  split; [|split].
  - intros tweets H. revert acc. induction H as [|item tweet items tweets Hn _ IH]; intros acc.
    + rewrite app_nil_r. reflexivity.
    + cbn [push_results]. rewrite Hn, IH, <- app_assoc. reflexivity.
  - intros good tweets bad rest e -> H Hb. revert acc.
    induction H as [|item tweet items tweets Hn _ IH]; intros acc.
    + cbn [app push_results]. rewrite Hb, app_nil_r. reflexivity.
    + cbn [app push_results]. rewrite Hn, IH, <- app_assoc. reflexivity.
  - clear acc. induction items as [|item items IH].
    + left. exists []. constructor.
    + destruct (normalize item) as [e|tweet] eqn:Hn.
      * right. exists [], [], item, items, e. repeat split; [constructor | exact Hn].
      * destruct IH as [[tweets H] | (good & tweets & bad & rest & e & -> & H & Hb)].
        -- left. exists (tweet :: tweets). constructor; assumption.
        -- right. exists (item :: good), (tweet :: tweets), bad, rest, e.
           repeat split; [constructor; assumption | exact Hb].
Qed.

Lemma push_results_in_order_witness :
  push_results [hello_item; textless_item; reply_item] [long_tweet]
  = ([long_tweet] ++ [hello_tweet], inl (JsTypeError (lit "trim"))).
Proof.
  apply (proj1 (proj2 (push_results_in_order [hello_item; textless_item; reply_item]
                         [long_tweet]))
           [hello_item] [hello_tweet] textless_item [reply_item]).
  - reflexivity.
  - repeat constructor.
  - reflexivity.
Defined.
